(** * my-bill: the directory builder, the places cache and the submission API

    A shallow embedding of the parts of [server.js] that the specification
    talks about, followed by the theorems that settle its testable
    properties.

    Conventions of the embedding.
    - A JavaScript string is represented by its UTF-8 encoding, a Rocq
      [string].  Every string the server handles comes from a JSON file, a
      request body or a literal of the source, so it has such an encoding.
      [chars] splits a string into its characters (one code point each);
      the regular expressions and [trim] work on that list, the way the
      JavaScript operations work on the characters of the string.
    - A field of a JSON record that may be missing is an [option string];
      [a || b] on strings is [orElse], on fields [fieldOr].
    - JavaScript [Map] objects, which iterate in insertion order, are
      association lists ([jsmap]); the caches, which are only read by key,
      are [gmap]s.
    - Code that can throw returns a [Completion]; [tryCatch] is the
      [try { } catch { }] of the source. *)

From stdpp Require Import gmap strings list fin_maps.
From Stdlib Require Import Ascii String ZArith Lia DecimalString Sorted.

Open Scope string_scope.
Open Scope list_scope.

(* ===================================================================== *)
(** ** Strings *)
(* ===================================================================== *)

Definition code (c : ascii) : nat := nat_of_ascii c.

(** The string made of the given bytes. *)
Definition bytes (l : list nat) : string :=
  foldr (fun n s => String (ascii_of_nat n) s) EmptyString l.

(** The double quote character, as a string. *)
Definition dq : string := bytes [34].

(** [s] between double quotes: the value of an HTML attribute. *)
Definition quoted (s : string) : string := dq +:+ s +:+ dq.

Definition isContinuation (c : ascii) : bool :=
  (128 <=? code c)%nat && (code c <? 192)%nat.

(** The characters of a string: a lead byte with the continuation bytes
    that follow it. *)
Fixpoint chars (s : string) : list string :=
  match s with
  | EmptyString => []
  | String c s' =>
      match s' with
      | EmptyString => [String c EmptyString]
      | String d _ =>
          if isContinuation d then
            match chars s' with
            | t :: r => String c t :: r
            | [] => [String c EmptyString]
            end
          else String c EmptyString :: chars s'
      end
  end.

Definition joinStrings (l : list string) : string :=
  foldr String.append EmptyString l.

Definition isEmpty (s : string) : bool :=
  match s with EmptyString => true | _ => false end.

(** [a || b] for two strings: the empty string is the only falsy one. *)
Definition orElse (a b : string) : string := if isEmpty a then b else a.

(** [record.field || d]: a missing field is [undefined], falsy as well. *)
Definition fieldOr (f : option string) (d : string) : string :=
  match f with
  | Some s => orElse s d
  | None => d
  end.

(** [String(value ?? '')]. *)
Definition stringOf (f : option string) : string := default EmptyString f.

(** The characters that [String.prototype.trim] removes and that [\s]
    matches: the WhiteSpace and LineTerminator code points U+0009 to
    U+000D, U+0020, U+00A0, U+1680, U+2000 to U+200A, U+2028, U+2029,
    U+202F, U+205F, U+3000 and U+FEFF, in UTF-8. *)
Definition jsWhitespace : list string :=
  [ bytes [9]; bytes [10]; bytes [11]; bytes [12]; bytes [13]; bytes [32];
    bytes [194; 160]; bytes [225; 154; 128];
    bytes [226; 128; 128]; bytes [226; 128; 129]; bytes [226; 128; 130];
    bytes [226; 128; 131]; bytes [226; 128; 132]; bytes [226; 128; 133];
    bytes [226; 128; 134]; bytes [226; 128; 135]; bytes [226; 128; 136];
    bytes [226; 128; 137]; bytes [226; 128; 138];
    bytes [226; 128; 168]; bytes [226; 128; 169]; bytes [226; 128; 175];
    bytes [226; 129; 159]; bytes [227; 128; 128]; bytes [239; 187; 191] ].

Definition isSpace (t : string) : bool := existsb (String.eqb t) jsWhitespace.

Fixpoint dropWhile {A} (p : A -> bool) (l : list A) : list A :=
  match l with
  | [] => []
  | x :: r => if p x then dropWhile p r else l
  end.

Definition dropWhileEnd {A} (p : A -> bool) (l : list A) : list A :=
  rev (dropWhile p (rev l)).

(** [s.trim()]. *)
Definition trim (s : string) : string :=
  joinStrings (dropWhileEnd isSpace (dropWhile isSpace (chars s))).

Definition isUpperAscii (c : ascii) : bool := (65 <=? code c)%nat && (code c <=? 90)%nat.
Definition isLowerAscii (c : ascii) : bool := (97 <=? code c)%nat && (code c <=? 122)%nat.
Definition isDigitAscii (c : ascii) : bool := (48 <=? code c)%nat && (code c <=? 57)%nat.

(** [s.toLowerCase()], character by character.  The ASCII letters are
    lowered, and so are the two characters outside ASCII whose lower case
    contains an ASCII letter: the Kelvin sign U+212A (k) and the dotted
    capital I U+0130 (i followed by U+0307).  The other case pairs of
    Unicode are outside ASCII on both sides and are left as they are: no
    pattern of the server mentions one of them. *)
Definition lowerChar (t : string) : string :=
  match t with
  | String c EmptyString =>
      if isUpperAscii c then String (ascii_of_nat (code c + 32)) EmptyString else t
  | _ =>
      if String.eqb t (bytes [226; 132; 170]) then "k"
      else if String.eqb t (bytes [196; 176]) then bytes [105; 204; 135]
      else t
  end.

Definition toLowerCase (s : string) : string :=
  joinStrings (map lowerChar (chars s)).

(** The canonical form that a regular expression with the [i] flag compares
    characters by: ASCII letters in upper case. *)
Definition canonChar (t : string) : string :=
  match t with
  | String c EmptyString =>
      if isLowerAscii c then String (ascii_of_nat (code c - 32)) EmptyString else t
  | _ => t
  end.

(** A number in a template literal: its decimal digits. *)
Definition showNat (n : nat) : string := NilEmpty.string_of_uint (Nat.to_uint n).

(* ===================================================================== *)
(** ** Regular expressions *)
(* ===================================================================== *)

(** Patterns over the characters of a string.  [RChar p] matches one
    character that satisfies [p]. *)
Inductive regex : Type :=
  | RNone : regex
  | REps : regex
  | RChar : (string -> bool) -> regex
  | RSeq : regex -> regex -> regex
  | RAlt : regex -> regex -> regex
  | RStar : regex -> regex.

Fixpoint nullable (r : regex) : bool :=
  match r with
  | RNone => false
  | REps => true
  | RChar _ => false
  | RSeq a b => nullable a && nullable b
  | RAlt a b => nullable a || nullable b
  | RStar _ => true
  end.

(** What is left of [r] to match once the character [t] has been read. *)
Fixpoint deriv (t : string) (r : regex) : regex :=
  match r with
  | RNone => RNone
  | REps => RNone
  | RChar p => if p t then REps else RNone
  | RSeq a b =>
      if nullable a then RAlt (RSeq (deriv t a) b) (deriv t b)
      else RSeq (deriv t a) b
  | RAlt a b => RAlt (deriv t a) (deriv t b)
  | RStar a => RSeq (deriv t a) (RStar a)
  end.

(** Some prefix of [ts] matches [r]. *)
Fixpoint matchPrefix (r : regex) (ts : list string) : bool :=
  nullable r ||
  match ts with
  | [] => false
  | t :: ts' => matchPrefix (deriv t r) ts'
  end.

(** Some substring of [ts] matches [r]. *)
Fixpoint search (r : regex) (ts : list string) : bool :=
  matchPrefix r ts ||
  match ts with
  | [] => false
  | _ :: ts' => search r ts'
  end.

(** [re.test(s)] for a pattern without anchors. *)
Definition test (r : regex) (s : string) : bool := search r (chars s).

(** The whole of [ts] matches [r]: [/^r$/.test(s)]. *)
Fixpoint matchAll (r : regex) (ts : list string) : bool :=
  match ts with
  | [] => nullable r
  | t :: ts' => matchAll (deriv t r) ts'
  end.

(** A literal of a pattern with the [i] flag. *)
Definition litI (s : string) : regex :=
  foldr (fun t r => RSeq (RChar (fun u => String.eqb (canonChar u) (canonChar t))) r)
        REps (chars s).

(** [\s]. *)
Definition reSpace : regex := RChar isSpace.

(** [a|b|...]. *)
Definition alts (l : list regex) : regex := foldr RAlt RNone l.

(** The words a pattern stands for. *)
Inductive Matches : regex -> list string -> Prop :=
  | MEps : Matches REps []
  | MChar p t : p t = true -> Matches (RChar p) [t]
  | MSeq a b u v : Matches a u -> Matches b v -> Matches (RSeq a b) (u ++ v)
  | MAltL a b u : Matches a u -> Matches (RAlt a b) u
  | MAltR a b u : Matches b u -> Matches (RAlt a b) u
  | MStarNil a : Matches (RStar a) []
  | MStarApp a u v : Matches a u -> Matches (RStar a) v -> Matches (RStar a) (u ++ v).

(** The pattern [r] occurs somewhere in the string [s]. *)
Definition Occurs (r : regex) (s : string) : Prop :=
  exists pre mid post, chars s = pre ++ mid ++ post /\ Matches r mid.

(* ===================================================================== *)
(** ** HTML and URL helpers *)
(* ===================================================================== *)

(** [s.replace(/c/g, r)] for a single character [c] and a replacement [r]
    without [$]. *)
Fixpoint replaceAll (c : ascii) (r : string) (s : string) : string :=
  match s with
  | EmptyString => EmptyString
  | String d s' =>
      if Ascii.eqb d c then r +:+ replaceAll c r s'
      else String d (replaceAll c r s')
  end.

Definition chAmp : ascii := "&"%char.
Definition chLt : ascii := "<"%char.
Definition chGt : ascii := ">"%char.
Definition chDq : ascii := ascii_of_nat 34.
Definition chSq : ascii := "'"%char.

(** [escapeHtml]: the five replacements, in the order of the source. *)
Definition escapeHtml (value : option string) : string :=
  replaceAll chSq "&#39;"
    (replaceAll chDq "&quot;"
       (replaceAll chGt "&gt;"
          (replaceAll chLt "&lt;"
             (replaceAll chAmp "&amp;" (stringOf value))))).

Definition isSlugChar (c : ascii) : bool := isLowerAscii c || isDigitAscii c.

(** [.replace(/[^a-z0-9]+/g, '-')]: every maximal run of characters
    outside [a-z0-9] becomes one dash.  [inRun] tells that the previous
    byte was part of such a run. *)
Fixpoint collapseRuns (inRun : bool) (s : string) : string :=
  match s with
  | EmptyString => EmptyString
  | String c s' =>
      if isSlugChar c then String c (collapseRuns false s')
      else if inRun then collapseRuns true s'
      else String "-"%char (collapseRuns true s')
  end.

Definition dropLeadingDash (s : string) : string :=
  match s with
  | String "-"%char s' => s'
  | _ => s
  end.

Fixpoint dropTrailingDash (s : string) : string :=
  match s with
  | EmptyString => EmptyString
  | String c EmptyString => if Ascii.eqb c "-"%char then EmptyString else s
  | String c s' => String c (dropTrailingDash s')
  end.

(** [slugifyAscii]; the last step is [.replace(/^-|-$/g, '')]. *)
Definition slugifyAscii (value : option string) : string :=
  dropTrailingDash (dropLeadingDash (collapseRuns false (toLowerCase (stringOf value)))).

(** The class [[-a-zA-Z0-9_./:]] of [sanitizeCover]. *)
Definition isCoverChar (t : string) : bool :=
  match t with
  | String c EmptyString =>
      isLowerAscii c || isUpperAscii c || isDigitAscii c
      || existsb (Ascii.eqb c) ["-"%char; "_"%char; "."%char; "/"%char; ":"%char]
  | _ => false
  end.

Definition coverRe : regex := RSeq (RChar isCoverChar) (RStar (RChar isCoverChar)).

Definition sanitizeCover (value : option string) : string :=
  let raw := trim (stringOf value) in
  if isEmpty raw then EmptyString
  else if negb (matchAll coverRe (chars raw)) then EmptyString
  else raw.

Definition hexDigit (n : nat) : ascii :=
  if (n <? 10)%nat then ascii_of_nat (48 + n) else ascii_of_nat (55 + n).

Definition isUnreserved (c : ascii) : bool :=
  isLowerAscii c || isUpperAscii c || isDigitAscii c
  || existsb (Ascii.eqb c)
       ["-"%char; "_"%char; "."%char; "!"%char; "~"%char; "*"%char; "'"%char;
        "("%char; ")"%char].

(** [encodeURIComponent]: every byte of the UTF-8 encoding that is not an
    unreserved character is written as a percent sign and two hexadecimal
    digits. *)
Fixpoint encodeURIComponent (s : string) : string :=
  match s with
  | EmptyString => EmptyString
  | String c s' =>
      if isUnreserved c then String c (encodeURIComponent s')
      else String "%"%char
             (String (hexDigit (code c / 16))
                (String (hexDigit (code c mod 16)) (encodeURIComponent s')))
  end.

(** [s.startsWith(p)], with what follows [p] in [s]. *)
Fixpoint stripPrefix (p s : string) : option string :=
  match p with
  | EmptyString => Some s
  | String c p' =>
      match s with
      | EmptyString => None
      | String d s' => if Ascii.eqb c d then stripPrefix p' s' else None
      end
  end.

Definition startsWith (p s : string) : bool :=
  match stripPrefix p s with Some _ => true | None => false end.

(** [findSub pat s]: the text before and after the first occurrence of
    [pat] in [s]. *)
Fixpoint findSub (pat s : string) : option (string * string) :=
  match stripPrefix pat s with
  | Some post => Some (EmptyString, post)
  | None =>
      match s with
      | EmptyString => None
      | String c s' =>
          match findSub pat s' with
          | Some (pre, post) => Some (String c pre, post)
          | None => None
          end
      end
  end.

(** The replacement text of [String.prototype.replace] for a string
    pattern: [$$] is a dollar sign, [$&] the matched text, [$`] the text
    before the match and [$'] the text after it.  A string pattern has no
    capture groups, so every other use of [$] stands for itself. *)
Fixpoint substitution (matched pre post repl : string) : string :=
  match repl with
  | EmptyString => EmptyString
  | String "$"%char (String d rest as tail) =>
      if Ascii.eqb d "$"%char then String "$"%char (substitution matched pre post rest)
      else if Ascii.eqb d "&"%char then matched +:+ substitution matched pre post rest
      else if Ascii.eqb d "`"%char then pre +:+ substitution matched pre post rest
      else if Ascii.eqb d "'"%char then post +:+ substitution matched pre post rest
      else String "$"%char (substitution matched pre post tail)
  | String c rest => String c (substitution matched pre post rest)
  end.

(** [s.replace(pat, repl)] with a string pattern: the first occurrence
    only. *)
Definition jsReplace (pat repl s : string) : string :=
  match findSub pat s with
  | Some (pre, post) => pre +:+ substitution pat pre post repl +:+ post
  | None => s
  end.

(* ===================================================================== *)
(** ** Companies and the food categories *)
(* ===================================================================== *)

(** A record of [data/companies.json].  [lat] and [lng] hold the decimal
    rendering of [Number(company.lat)] and [Number(company.lng)] when that
    number is finite, and nothing otherwise: the conversion of a JSON
    value to a double is not part of the model. *)
Record Company : Type := {
  slug : option string;
  name : option string;
  summary : option string;
  city : option string;
  industry : option string;
  category : option string;
  placeId : option string;
  place_id : option string;
  contact : option string;
  cover : option string;
  mapQuery : option string;
  lat : option string;
  lng : option string
}.

Definition foodIndustry : string := "餐饮与服务".
Definition foodCategoryPriority : list string :=
  ["中餐"; "火锅"; "面馆"; "烧烤"; "饮品"; "超市"].

(** [/火锅|hot\s*pot|hotpot|麻辣烫|串串香/i] *)
Definition hotpotRe : regex :=
  alts [ litI "火锅";
         RSeq (litI "hot") (RSeq (RStar reSpace) (litI "pot"));
         litI "hotpot"; litI "麻辣烫"; litI "串串香" ].

(** [/面馆|拉面|ramen|noodle|noodles|牛肉面|兰州|刀削面|米线/i] *)
Definition noodleRe : regex :=
  alts [ litI "面馆"; litI "拉面"; litI "ramen"; litI "noodle"; litI "noodles";
         litI "牛肉面"; litI "兰州"; litI "刀削面"; litI "米线" ].

(** [/烧烤|串串|烤肉|bbq|barbecue|烤鱼/i] *)
Definition bbqRe : regex :=
  alts [ litI "烧烤"; litI "串串"; litI "烤肉"; litI "bbq"; litI "barbecue";
         litI "烤鱼" ].

(** [/茶|奶茶|饮品|咖啡|coffee|bubble\s*tea/i] *)
Definition drinkRe : regex :=
  alts [ litI "茶"; litI "奶茶"; litI "饮品"; litI "咖啡"; litI "coffee";
         RSeq (litI "bubble") (RSeq (RStar reSpace) (litI "tea")) ].

(** [/超市|便利|market|grocery/i] *)
Definition marketRe : regex :=
  alts [ litI "超市"; litI "便利"; litI "market"; litI "grocery" ].

(** The text both classifiers look at:
    [`${company.name || ''} ${company.summary || ''}`.toLowerCase()]. *)
Definition foodText (company : Company) : string :=
  toLowerCase (fieldOr (name company) EmptyString +:+ " "
               +:+ fieldOr (summary company) EmptyString).

(** [String(company.category || '').trim()]. *)
Definition existingCategory (company : Company) : string :=
  trim (fieldOr (category company) EmptyString).

(** [classifyFoodCategory], the classifier inside [buildCompaniesHtml]. *)
Definition classifyFoodCategory (company : Company) : string :=
  let existing := existingCategory company in
  if negb (isEmpty existing) then existing
  else
    let text := foodText company in
    if test hotpotRe text then "火锅"
    else if test noodleRe text then "面馆"
    else if test bbqRe text then "烧烤"
    else "中餐".

(** [classifyFoodCategoryForDirectory], the classifier of the module that
    [buildDirectoryDataScript] calls. *)
Definition classifyFoodCategoryForDirectory (company : Company) : string :=
  let existing := existingCategory company in
  if negb (isEmpty existing) then existing
  else
    let text := foodText company in
    if test hotpotRe text then "火锅"
    else if test noodleRe text then "面馆"
    else if test bbqRe text then "烧烤"
    else if test drinkRe text then "饮品"
    else if test marketRe text then "超市"
    else "中餐".

(* ===================================================================== *)
(** ** Configuration and the local photo files *)
(* ===================================================================== *)

(** The constants that [server.js] reads from the environment when it
    starts. *)
Record Config : Type := {
  PLACES_API_ENABLED : bool;
  PLACES_PROVIDER : string;
  GOOGLE_PLACES_API_KEY : string;
  SERPAPI_KEY : string;
  SEARCHAPI_KEY : string
}.

Definition isPlacesApiEnabled (cfg : Config) : bool :=
  if negb (PLACES_API_ENABLED cfg) then false
  else if String.eqb (PLACES_PROVIDER cfg) "serpapi" then negb (isEmpty (SERPAPI_KEY cfg))
  else if String.eqb (PLACES_PROVIDER cfg) "searchapi" then negb (isEmpty (SEARCHAPI_KEY cfg))
  else negb (isEmpty (GOOGLE_PLACES_API_KEY cfg)).

(** What a rendering of the directory reads besides its arguments: the
    template loaded at start-up, the companies file, which files exist in
    [image/place-photos] ([fs.existsSync], by file name) and the
    configuration. *)
Record Env : Type := {
  companiesTemplate : string;
  companiesData : list Company;
  photoExists : string -> bool;
  config : Config
}.

(** [getLocalPlacePhoto(placeId, index)?.url]. *)
Definition getLocalPlacePhoto (env : Env) (placeId : string) (index : nat) : option string :=
  let safeId := trim placeId in
  if isEmpty safeId then None
  else
    let fileName :=
      if (0 <? index)%nat then safeId +:+ "-" +:+ showNat index +:+ ".jpg"
      else safeId +:+ ".jpg" in
    if photoExists env fileName then Some ("/image/place-photos/" +:+ fileName)
    else None.

Definition buildPlacePhotoUrl (env : Env) (placeId : string) (index : nat) : string :=
  match getLocalPlacePhoto env placeId index with
  | Some url => url
  | None =>
      if negb (isPlacesApiEnabled (config env)) then EmptyString
      else
        let safeId := trim placeId in
        if isEmpty safeId then EmptyString
        else
          let safeIndex := if (0 <? index)%nat then "/" +:+ showNat index else EmptyString in
          "/api/place-photo/" +:+ safeId +:+ safeIndex
  end.

Definition resolveCompanyCoverUrl (env : Env) (company : Company) (placeId : string) : string :=
  let explicitCover := sanitizeCover (cover company) in
  if negb (isEmpty explicitCover) then explicitCover
  else
    let localCover := default EmptyString (getLocalPlacePhoto env placeId 0) in
    orElse (sanitizeCover (Some localCover)) (buildPlacePhotoUrl env placeId 0).

(* ===================================================================== *)
(** ** JavaScript maps, numbers and sorting *)
(* ===================================================================== *)

(** A [Map] with string keys: the entries in insertion order. *)
Definition jsmap (V : Type) : Type := list (string * V).

Fixpoint mapGet {V} (k : string) (m : jsmap V) : option V :=
  match m with
  | [] => None
  | (k', v) :: r => if String.eqb k k' then Some v else mapGet k r
  end.

Definition mapHas {V} (k : string) (m : jsmap V) : bool :=
  match mapGet k m with Some _ => true | None => false end.

(** [m.set(k, v)]: a key that is there keeps its place. *)
Fixpoint mapSet {V} (k : string) (v : V) (m : jsmap V) : jsmap V :=
  match m with
  | [] => [(k, v)]
  | (k', v') :: r => if String.eqb k k' then (k', v) :: r else (k', v') :: mapSet k v r
  end.

(** An update of the object stored under [k], seen by every later
    [m.get(k)]. *)
Fixpoint mapAdjust {V} (f : V -> V) (k : string) (m : jsmap V) : jsmap V :=
  match m with
  | [] => []
  | (k', v') :: r => if String.eqb k k' then (k', f v') :: r else (k', v') :: mapAdjust f k r
  end.

Definition mapKeys {V} (m : jsmap V) : list string := map fst m.

(** The numbers a comparator can return. *)
Inductive jsnum : Type :=
  | Num (z : Z)
  | PosInf
  | NegInf
  | NaN.

(** [a - b]. *)
Definition jsSub (a b : jsnum) : jsnum :=
  match a, b with
  | Num x, Num y => Num (x - y)
  | NaN, _ | _, NaN => NaN
  | PosInf, PosInf | NegInf, NegInf => NaN
  | PosInf, _ => PosInf
  | NegInf, _ => NegInf
  | Num _, PosInf => NegInf
  | Num _, NegInf => PosInf
  end.

(** [a !== b] on numbers. *)
Definition jsNe (a b : jsnum) : bool :=
  match a, b with
  | Num x, Num y => negb (x =? y)%Z
  | PosInf, PosInf | NegInf, NegInf => false
  | _, _ => true
  end.

(** The comparator result says that its first argument goes after the
    second. *)
Definition isPositive (n : jsnum) : bool :=
  match n with
  | Num z => (0 <? z)%Z
  | PosInf => true
  | _ => false
  end.

Fixpoint insertBy {A} (cmp : A -> A -> jsnum) (x : A) (sorted : list A) : list A :=
  match sorted with
  | [] => [x]
  | y :: r => if isPositive (cmp x y) then y :: insertBy cmp x r else x :: y :: r
  end.

(** [[...l].sort(cmp)].  [Array.prototype.sort] is stable: elements that
    compare equal keep their order.  The model is the stable insertion
    sort.  For the cities the choice of the algorithm does not matter: the
    comparator orders them strictly, and any arrangement of them that is
    [Ordered] is the same list ([any_sort_of_the_cities]). *)
Definition sortBy {A} (cmp : A -> A -> jsnum) (l : list A) : list A :=
  foldr (insertBy cmp) [] l.


(** [m.has(k) ? m.get(k) : Number.POSITIVE_INFINITY]. *)
Definition priorityOf (m : jsmap nat) (k : string) : jsnum :=
  match mapGet k m with
  | Some p => Num (Z.of_nat p)
  | None => PosInf
  end.

(** [m.get(k)] used as a number: [undefined] becomes [NaN]. *)
Definition indexOf (m : jsmap nat) (k : string) : jsnum :=
  match mapGet k m with
  | Some i => Num (Z.of_nat i)
  | None => NaN
  end.

(** The comparator of both sorts of [buildCompaniesHtml]: the priority
    first, the first-seen index second. *)
Definition byPriority (priority index : jsmap nat) (a b : string) : jsnum :=
  let pa := priorityOf priority a in
  let pb := priorityOf priority b in
  if jsNe pa pb then jsSub pa pb
  else jsSub (indexOf index a) (indexOf index b).

(* ===================================================================== *)
(** ** The directory builder *)
(* ===================================================================== *)

Record CityEntry : Type := {
  count : nat;
  industries : jsmap (list Company)
}.

(** The three variables that the first loop of [buildCompaniesHtml]
    fills. *)
Record Grouping : Type := {
  cityOrder : list string;
  cityIndex : jsmap nat;
  cityMap : jsmap CityEntry
}.

Definition emptyGrouping : Grouping :=
  {| cityOrder := []; cityIndex := []; cityMap := [] |}.

Definition cityOf (company : Company) : string := fieldOr (city company) "未分类城市".
Definition industryOf (company : Company) : string := fieldOr (industry company) "其他".

(** What the loop does to the entry of the company's city. *)
Definition addToEntry (company : Company) (entry : CityEntry) : CityEntry :=
  let ind := industryOf company in
  let withIndustry :=
    if negb (mapHas ind (industries entry)) then mapSet ind [] (industries entry)
    else industries entry in
  {| count := count entry + 1;
     industries := mapAdjust (fun items => items ++ [company]) ind withIndustry |}.

(** The body of [companies.forEach]. *)
Definition addCompany (g : Grouping) (company : Company) : Grouping :=
  let c := cityOf company in
  let g1 :=
    if negb (mapHas c (cityMap g)) then
      {| cityOrder := cityOrder g ++ [c];
         cityIndex := mapSet c (List.length (cityOrder g)) (cityIndex g);
         cityMap := mapSet c {| count := 0; industries := [] |} (cityMap g) |}
    else g in
  {| cityOrder := cityOrder g1;
     cityIndex := cityIndex g1;
     cityMap := mapAdjust (addToEntry company) c (cityMap g1) |}.

Definition groupCompanies (companies : list Company) : Grouping :=
  fold_left addCompany companies emptyGrouping.

Definition priorityCities : jsmap nat := [("墨西哥城", 0); ("蒙特雷", 1)].

Definition orderedCities (g : Grouping) : list string :=
  sortBy (byPriority priorityCities (cityIndex g)) (cityOrder g).

(** [cityMap.get(city)]; every city of [cityOrder] has an entry
    ([cityEntry_found]). *)
Definition cityEntryOf (g : Grouping) (c : string) : CityEntry :=
  default {| count := 0; industries := [] |} (mapGet c (cityMap g)).

(** An attribute of a tag: a space, the name and the quoted value. *)
Definition attr (n v : string) : string := " " +:+ n +:+ "=" +:+ quoted v.

(** [slug ? `city-${slug}` : `city-${index + 1}`]. *)
Definition cityId (c : string) (index : nat) : string :=
  let slug := slugifyAscii (Some c) in
  if negb (isEmpty slug) then "city-" +:+ slug else "city-" +:+ showNat (index + 1).

Definition navAllButton (totalCount : nat) : string :=
  "<button" +:+ attr "class" "pill is-active" +:+ attr "type" "button"
  +:+ attr "data-city" "all" +:+ ">全部 <em>" +:+ showNat totalCount +:+ "</em></button>".

Definition navCityButton (c : string) (index n : nat) : string :=
  "<button" +:+ attr "class" "pill" +:+ attr "type" "button"
  +:+ attr "data-city" (escapeHtml (Some c))
  +:+ attr "data-city-target" (cityId c index)
  +:+ ">" +:+ escapeHtml (Some c) +:+ " <em>" +:+ showNat n +:+ "</em></button>".

Definition navHtml (g : Grouping) (totalCount : nat) : string :=
  joinStrings
    (navAllButton totalCount
     :: imap (fun index c => navCityButton c index (count (cityEntryOf g c)))
          (orderedCities g)).

(** [/未提供|暂无/i] *)
Definition noContactRe : regex := alts [ litI "未提供"; litI "暂无" ].

(** [String(company.placeId || company.place_id || '').trim()]. *)
Definition companyPlaceId (company : Company) : string :=
  trim (fieldOr (placeId company) (fieldOr (place_id company) EmptyString)).

(** The trimmed contact of a card and whether the card shows it. *)
Definition contactValue (company : Company) : string :=
  trim (fieldOr (contact company) EmptyString).

Definition hasContact (company : Company) : bool :=
  negb (isEmpty (contactValue company)) && negb (test noContactRe (contactValue company)).

(** The opening tag of a card, up to its closing angle bracket. *)
Definition cardOpening (env : Env) (company : Company) : string :=
  let safeSlug := encodeURIComponent (fieldOr (slug company) EmptyString) in
  let safeCover := resolveCompanyCoverUrl env company (companyPlaceId company) in
  let coverStyle :=
    if negb (isEmpty safeCover) then
      attr "style"
        ("background-image: linear-gradient(140deg, rgba(15, 23, 42, 0.12), rgba(15, 23, 42, 0.35)), url('"
         +:+ safeCover +:+ "')")
    else EmptyString in
  let coverClass := if negb (isEmpty safeCover) then " company-cover" else EmptyString in
  let coordsAttr :=
    match lat company, lng company with
    | Some la, Some lo => attr "data-lat" la +:+ attr "data-lng" lo
    | _, _ => EmptyString
    end in
  let ind := trim (fieldOr (industry company) EmptyString) in
  let industryAttr :=
    if negb (isEmpty ind) then attr "data-industry" (escapeHtml (Some ind)) else EmptyString in
  let resolvedCategory :=
    if String.eqb ind foodIndustry then classifyFoodCategory company else EmptyString in
  let categoryAttr :=
    if negb (isEmpty resolvedCategory) then attr "data-category" (escapeHtml (Some resolvedCategory))
    else EmptyString in
  "<a" +:+ attr "class" ("company-card company-link" +:+ coverClass)
  +:+ attr "href" ("/company/" +:+ safeSlug)
  +:+ coverStyle +:+ coordsAttr +:+ industryAttr +:+ categoryAttr +:+ ">".

(** One card of [renderCompanyCards]. *)
Definition renderCompanyCard (env : Env) (company : Company) : string :=
  let safeName := escapeHtml (name company) in
  let safeSummary := escapeHtml (summary company) in
  let safeContact := escapeHtml (Some (contactValue company)) in
  cardOpening env company
  +:+ "<h4>" +:+ safeName +:+ "</h4>"
  +:+ "<p" +:+ attr "class" "company-desc" +:+ ">" +:+ safeSummary +:+ "</p>"
  +:+ "<div" +:+ attr "class" "company-distance" +:+ " data-distance hidden></div>"
  +:+ (if hasContact company then
         "<div" +:+ attr "class" "company-contact" +:+ "><span>微信/WhatsApp："
         +:+ safeContact +:+ "</span></div>"
       else EmptyString)
  +:+ "</a>".

Definition renderCompanyCards (env : Env) (items : list Company) : string :=
  joinStrings (map (renderCompanyCard env) items).

(** [new Map(foodCategoryPriority.map((name, index) => [name, index]))]. *)
Definition categoryPriority : jsmap nat :=
  fold_left (fun m p => mapSet (snd p) (fst p) m)
    (imap (fun index n => (index, n)) foodCategoryPriority) [].

(** The [categoryCounts] of [buildCityToolsHtml]. *)
Definition countCategories (foodItems : list Company) : jsmap nat :=
  fold_left
    (fun counts company =>
       let cat := classifyFoodCategory company in
       mapSet cat (default 0 (mapGet cat counts) + 1) counts)
    foodItems [].

Definition filterPill (value scope : string) : string :=
  "<button" +:+ attr "class" "filter-pill" +:+ attr "type" "button"
  +:+ attr "data-filter" (escapeHtml (Some value))
  +:+ attr "data-filter-scope" scope
  +:+ ">" +:+ escapeHtml (Some value) +:+ "</button>".

Definition buildCityToolsHtml (cityEntry : CityEntry)
    (industryEntries : list (string * list Company)) : string :=
  let foodItems := default [] (mapGet foodIndustry (industries cityEntry)) in
  let categoryCounts := countCategories foodItems in
  let categoryButtons :=
    joinStrings
      (map (fun cat => filterPill cat "category")
         (List.filter (fun cat => mapHas cat categoryCounts) foodCategoryPriority)) in
  let industryButtons :=
    joinStrings
      (map (fun entry => filterPill (fst entry) "industry")
         (List.filter (fun entry => negb (String.eqb (fst entry) foodIndustry))
            (map (fun e => (fst e, List.length (snd e))) industryEntries))) in
  "<div" +:+ attr "class" "city-tools" +:+ " data-city-tools"
  +:+ attr "data-food-industry" (escapeHtml (Some foodIndustry)) +:+ ">"
  +:+ "<div" +:+ attr "class" "industry-sort" +:+ attr "role" "group"
  +:+ attr "aria-label" "排序" +:+ ">"
  +:+ "<span" +:+ attr "class" "tools-label" +:+ ">排序</span>"
  +:+ "<button" +:+ attr "class" "sort-pill is-active" +:+ attr "type" "button"
  +:+ attr "data-sort" "default" +:+ ">默认</button>"
  +:+ "<button" +:+ attr "class" "sort-pill" +:+ attr "type" "button"
  +:+ attr "data-sort" "distance" +:+ ">离我最近</button>"
  +:+ "</div>"
  +:+ "<div" +:+ attr "class" "industry-filters" +:+ attr "role" "group"
  +:+ attr "aria-label" "门店筛选" +:+ ">"
  +:+ "<span" +:+ attr "class" "tools-label" +:+ ">筛选</span>"
  +:+ "<button" +:+ attr "class" "filter-pill is-active" +:+ attr "type" "button"
  +:+ attr "data-filter" "all" +:+ ">全部</button>"
  +:+ categoryButtons
  +:+ industryButtons
  +:+ "</div>"
  +:+ "</div>".

Definition serviceCard : string :=
  "<div" +:+ attr "class" "service-card"
  +:+ "><strong>企业广告招租</strong><p>把你的企业放上来</p></div>".

Definition buildCityServiceHtml : string :=
  "<div" +:+ attr "class" "city-service" +:+ ">"
  +:+ "<div" +:+ attr "class" "city-service-head" +:+ ">"
  +:+ "<h3>企业服务</h3>"
  +:+ "<span>企业广告招租</span>"
  +:+ "</div>"
  +:+ "<div" +:+ attr "class" "city-service-grid" +:+ ">"
  +:+ serviceCard +:+ serviceCard +:+ serviceCard
  +:+ "</div>"
  +:+ "</div>".

(** The three variables of the loop over the food companies of a city. *)
Record CategoryGrouping : Type := {
  categoryOrder : list string;
  categoryIndex : jsmap nat;
  categoryMap : jsmap (list Company)
}.

Definition addToCategory (g : CategoryGrouping) (company : Company) : CategoryGrouping :=
  let cat := orElse (classifyFoodCategory company) "其他" in
  let g1 :=
    if negb (mapHas cat (categoryMap g)) then
      {| categoryOrder := categoryOrder g ++ [cat];
         categoryIndex := mapSet cat (List.length (categoryOrder g)) (categoryIndex g);
         categoryMap := mapSet cat [] (categoryMap g) |}
    else g in
  {| categoryOrder := categoryOrder g1;
     categoryIndex := categoryIndex g1;
     categoryMap := mapAdjust (fun items => items ++ [company]) cat (categoryMap g1) |}.

Definition groupCategories (items : list Company) : CategoryGrouping :=
  fold_left addToCategory items
    {| categoryOrder := []; categoryIndex := []; categoryMap := [] |}.

Definition industryHead (ind : string) (n : nat) : string :=
  "<div" +:+ attr "class" "industry-block" +:+ attr "data-industry" (escapeHtml (Some ind)) +:+ ">"
  +:+ "<div" +:+ attr "class" "industry-head" +:+ ">"
  +:+ "<h3>" +:+ escapeHtml (Some ind) +:+ "</h3>"
  +:+ "<span" +:+ attr "class" "industry-count" +:+ ">" +:+ showNat n +:+ " 家</span>"
  +:+ "</div>".

Definition renderCategory (env : Env) (g : CategoryGrouping) (cat : string) : string :=
  let categoryItems := default [] (mapGet cat (categoryMap g)) in
  let cardsHtml := renderCompanyCards env categoryItems in
  "<div" +:+ attr "class" "industry-subgroup" +:+ attr "data-category" (escapeHtml (Some cat)) +:+ ">"
  +:+ "<div" +:+ attr "class" "industry-subhead" +:+ ">"
  +:+ "<h4>" +:+ escapeHtml (Some cat) +:+ "</h4>"
  +:+ "<span" +:+ attr "class" "industry-count" +:+ ">"
  +:+ showNat (List.length categoryItems) +:+ " 家</span>"
  +:+ "</div>"
  +:+ "<div" +:+ attr "class" "company-grid" +:+ ">" +:+ cardsHtml +:+ "</div>"
  +:+ "</div>".

(** One entry of [industryEntries.map]. *)
Definition renderIndustry (env : Env) (entry : string * list Company) : string :=
  let ind := fst entry in
  let items := snd entry in
  if String.eqb ind foodIndustry then
    let g := groupCategories items in
    let orderedCategories :=
      sortBy (byPriority categoryPriority (categoryIndex g)) (categoryOrder g) in
    let categoriesHtml := joinStrings (map (renderCategory env g) orderedCategories) in
    industryHead ind (List.length items)
    +:+ "<div" +:+ attr "class" "industry-subgroups" +:+ ">" +:+ categoriesHtml +:+ "</div>"
    +:+ "</div>"
  else
    let cardsHtml := renderCompanyCards env items in
    industryHead ind (List.length items)
    +:+ "<div" +:+ attr "class" "company-grid" +:+ ">" +:+ cardsHtml +:+ "</div>"
    +:+ "</div>".

(** One entry of [orderedCities.map] in [sectionsHtml]. *)
Definition renderCitySection (env : Env) (g : Grouping) (index : nat) (c : string) : string :=
  let cityEntry := cityEntryOf g c in
  let industryEntries := industries cityEntry in
  let cityToolsHtml := buildCityToolsHtml cityEntry industryEntries in
  let industriesHtml := joinStrings (map (renderIndustry env) industryEntries) in
  "<section" +:+ attr "class" "city-section" +:+ attr "id" (cityId c index)
  +:+ attr "data-city" (escapeHtml (Some c)) +:+ ">"
  +:+ "<div" +:+ attr "class" "city-head" +:+ ">"
  +:+ "<h2>" +:+ escapeHtml (Some c) +:+ "</h2>"
  +:+ "</div>"
  +:+ cityToolsHtml
  +:+ buildCityServiceHtml
  +:+ "<div" +:+ attr "class" "city-body" +:+ ">" +:+ industriesHtml +:+ "</div>"
  +:+ "</section>".

Definition sectionsHtml (env : Env) (g : Grouping) : string :=
  joinStrings (imap (renderCitySection env g) (orderedCities g)).

(** The argument of [buildCompaniesHtml]. *)
Record Options : Type := {
  template : option string;
  filter : option (Company -> bool)
}.

Definition navPlaceholder : string := "<!--COMPANY_NAV-->".
Definition sectionsPlaceholder : string := "<!--COMPANY_SECTIONS-->".

(** The list that [buildCompaniesHtml] renders: the companies file, through
    the filter when there is one. *)
Definition selectedCompanies (options : Options) (env : Env) : list Company :=
  match filter options with
  | Some f => List.filter f (companiesData env)
  | None => companiesData env
  end.

Definition buildCompaniesHtml (options : Options) (env : Env) : string :=
  let tpl := fieldOr (template options) (companiesTemplate env) in
  if isEmpty tpl then EmptyString
  else
    let companies := selectedCompanies options env in
    match companies with
    | [] =>
        jsReplace sectionsPlaceholder
          ("<p" +:+ attr "class" "muted" +:+ ">暂无企业数据。</p>")
          (jsReplace navPlaceholder EmptyString tpl)
    | _ =>
        let g := groupCompanies companies in
        jsReplace sectionsPlaceholder (sectionsHtml env g)
          (jsReplace navPlaceholder (navHtml g (List.length companies)) tpl)
    end.

(* ===================================================================== *)
(** ** The memory tier: caches with a time to live *)
(* ===================================================================== *)

(** [{ value, expiresAt }]; times are milliseconds since the epoch. *)
Record CacheEntry (V : Type) : Type := {
  value : V;
  expiresAt : Z
}.
Arguments value {V} _.
Arguments expiresAt {V} _.

(** [7 * 24 * 60 * 60 * 1000] *)
Definition PLACES_CACHE_TTL_MS : Z := 7 * 24 * 60 * 60 * 1000.

(** [getCachedValue(cache, key)] when [Date.now()] is [now]: the value
    returned ([None] for [null]) and the cache afterwards. *)
Definition getCachedValue {V} (cache : gmap string (CacheEntry V)) (key : string) (now : Z)
    : option V * gmap string (CacheEntry V) :=
  match cache !! key with
  | None => (None, cache)
  | Some entry =>
      if (now <? expiresAt entry)%Z then (Some (value entry), cache)
      else (None, delete key cache)
  end.

(** [setCachedValue(cache, key, value)] when [Date.now()] is [now]. *)
Definition setCachedValue {V} (cache : gmap string (CacheEntry V)) (key : string) (v : V) (now : Z)
    : gmap string (CacheEntry V) :=
  <[key := {| value := v; expiresAt := (now + PLACES_CACHE_TTL_MS)%Z |}]> cache.

(* ===================================================================== *)
(** ** JSON values and exceptions *)
(* ===================================================================== *)

(** A value parsed from JSON.  Numbers are kept as integers: the code
    modelled here only asks whether a number is zero and prints it. *)
#[warnings="-register-all"]
Inductive Json : Type :=
  | JNull
  | JBool (b : bool)
  | JNum (n : Z)
  | JStr (s : string)
  | JArr (items : list Json)
  | JObj (fields : list (string * Json)).

(** The result of running code that can throw. *)
Inductive Completion (A : Type) : Type :=
  | Normal (a : A)
  | Throw (message : string).
Arguments Normal {A} _.
Arguments Throw {A} _.

Definition bind {A B} (c : Completion A) (k : A -> Completion B) : Completion B :=
  match c with
  | Normal a => k a
  | Throw e => Throw e
  end.

Notation "'let!' x ':=' c 'in' k" := (bind c (fun x => k))
  (at level 10, x name, c at level 100, k at level 200).

(** [try { body } catch (err) { handler }]. *)
Definition tryCatch {A} (body : Completion A) (handler : string -> Completion A) : Completion A :=
  match body with
  | Normal a => Normal a
  | Throw e => handler e
  end.

(** A JavaScript value is truthy.  [None] is [undefined]. *)
Definition truthy (v : Json) : bool :=
  match v with
  | JNull => false
  | JBool b => b
  | JNum n => negb (n =? 0)%Z
  | JStr s => negb (isEmpty s)
  | JArr _ => true
  | JObj _ => true
  end.

Definition truthyOpt (v : option Json) : bool :=
  match v with
  | Some j => truthy j
  | None => false
  end.

(** [a || b] on values that may be [undefined]. *)
Definition orValue (a b : option Json) : option Json :=
  if truthyOpt a then a else b.

Fixpoint lookupField (k : string) (fields : list (string * Json)) : option Json :=
  match fields with
  | [] => None
  | (k', v) :: r => if String.eqb k k' then Some v else lookupField k r
  end.

(** [v.k] for one of the property names that the server reads (none of
    them is a property of a string, a number or an array): a [TypeError] on
    [null], the field of an object, [undefined] otherwise. *)
Definition getProp (v : Json) (k : string) : Completion (option Json) :=
  match v with
  | JNull => Throw "TypeError: Cannot read properties of null"
  | JObj fields => Normal (lookupField k fields)
  | _ => Normal None
  end.

(** [v?.k], where [v] may be [undefined]. *)
Definition getPropOpt (v : option Json) (k : string) : option Json :=
  match v with
  | Some (JObj fields) => lookupField k fields
  | _ => None
  end.

(** [Array.isArray(v) ? v : []]. *)
Definition arrayOrEmpty (v : option Json) : list Json :=
  match v with
  | Some (JArr items) => items
  | _ => []
  end.

Definition isArray (v : option Json) : bool :=
  match v with
  | Some (JArr _) => true
  | _ => false
  end.

Definition showZ (z : Z) : string :=
  match z with
  | Z0 => "0"
  | Zpos p => showNat (Pos.to_nat p)
  | Zneg p => "-" +:+ showNat (Pos.to_nat p)
  end.

(** [String(v)].  An array joins the strings of its elements with commas,
    [null] counting as the empty string.  A plain object is
    [[object Object]], unless it has a field called [toString]: that field
    hides [Object.prototype.toString], it is not a function, and the
    conversion is a [TypeError]. *)
Fixpoint jsString (v : Json) : Completion string :=
  match v with
  | JNull => Normal "null"
  | JBool true => Normal "true"
  | JBool false => Normal "false"
  | JNum n => Normal (showZ n)
  | JStr s => Normal s
  | JArr items =>
      (fix join (l : list Json) : Completion string :=
         match l with
         | [] => Normal EmptyString
         | x :: r =>
             let! sx := match x with JNull => Normal EmptyString | _ => jsString x end in
             match r with
             | [] => Normal sx
             | _ => let! sr := join r in Normal (sx +:+ "," +:+ sr)
             end
         end) items
  | JObj fields =>
      match lookupField "toString" fields with
      | Some _ => Throw "TypeError: Cannot convert object to primitive value"
      | None => Normal "[object Object]"
      end
  end.

(** [String(v || '').trim()] for a value that may be [undefined]. *)
Definition stringOrEmpty (v : option Json) : Completion string :=
  match v with
  | Some j => if truthy j then let! s := jsString j in Normal (trim s) else Normal EmptyString
  | None => Normal EmptyString
  end.

(* ===================================================================== *)
(** ** The places cache *)
(* ===================================================================== *)

(** What a request to the provider comes to: [fetch] rejects, the body is
    not JSON, or there is a status and a parsed body. *)
Inductive FetchOutcome : Type :=
  | NetworkError
  | InvalidBody (status : nat)
  | Response (status : nat) (data : Json).

(** [res.ok] *)
Definition statusOk (status : nat) : bool := (200 <=? status)%nat && (status <=? 299)%nat.

(** [fetchJson]: the body is parsed before the status is looked at. *)
Definition fetchJson (live : FetchOutcome) : Completion Json :=
  match live with
  | NetworkError => Throw "fetch failed"
  | InvalidBody _ => Throw "SyntaxError: Unexpected token in JSON"
  | Response status data =>
      if negb (statusOk status) then Throw ("HTTP " +:+ showNat status) else Normal data
  end.

(** [fetchSerpApiJson]: the key check, then the request.  Building the URL
    from strings does not throw. *)
Definition fetchSerpApiJson (cfg : Config) (live : FetchOutcome) : Completion Json :=
  let searchapi := String.eqb (PLACES_PROVIDER cfg) "searchapi" in
  let apiKey := if searchapi then SEARCHAPI_KEY cfg else SERPAPI_KEY cfg in
  if isEmpty apiKey then
    Throw (if searchapi then "Missing SEARCHAPI_KEY" else "Missing SERPAPI_KEY")
  else fetchJson live.

(** The mutable state of the places cache: two of the module-level maps,
    the variable [placeDetailsDiskCache] ([None] while it is [null]) and
    the object stored in [data/place-details.json] ([None] when the file
    cannot be read or parsed).  The disk tier is an object whose
    properties are in insertion order; place ids are not names of
    properties of [Object.prototype]. *)
Record PlacesState : Type := {
  placesCache : gmap string (CacheEntry Json);
  placeIdCache : gmap string (CacheEntry string);
  placeDetailsDiskCache : option (jsmap Json);
  diskFile : option (jsmap Json)
}.

Definition withPlacesCache (c : gmap string (CacheEntry Json)) (st : PlacesState) : PlacesState :=
  {| placesCache := c; placeIdCache := placeIdCache st;
     placeDetailsDiskCache := placeDetailsDiskCache st; diskFile := diskFile st |}.

Definition withPlaceIdCache (c : gmap string (CacheEntry string)) (st : PlacesState) : PlacesState :=
  {| placesCache := placesCache st; placeIdCache := c;
     placeDetailsDiskCache := placeDetailsDiskCache st; diskFile := diskFile st |}.

Definition withDiskCache (d : option (jsmap Json)) (st : PlacesState) : PlacesState :=
  {| placesCache := placesCache st; placeIdCache := placeIdCache st;
     placeDetailsDiskCache := d; diskFile := diskFile st |}.

Definition withDiskFile (f : option (jsmap Json)) (st : PlacesState) : PlacesState :=
  {| placesCache := placesCache st; placeIdCache := placeIdCache st;
     placeDetailsDiskCache := placeDetailsDiskCache st; diskFile := f |}.

(** [loadPlaceDetailsDiskCache]: the object loaded before, or the file, or
    an empty object. *)
Definition loadPlaceDetailsDiskCache (st : PlacesState) : jsmap Json * PlacesState :=
  match placeDetailsDiskCache st with
  | Some m => (m, st)
  | None =>
      let m := default [] (diskFile st) in
      (m, withDiskCache (Some m) st)
  end.

(** [savePlaceDetailsDiskCache]; a failed write is caught and logged there. *)
Definition savePlaceDetailsDiskCache (st : PlacesState) : PlacesState :=
  match placeDetailsDiskCache st with
  | None => st
  | Some m => withDiskFile (Some m) st
  end.

(** [diskCache[placeId] = v], on the object that the variable holds. *)
Definition setDiskEntry (placeId : string) (v : Json) (st : PlacesState) : PlacesState :=
  match placeDetailsDiskCache st with
  | None => st
  | Some m => withDiskCache (Some (mapSet placeId v m)) st
  end.

(** [diskCache[placeId]] as a condition and as a result: the entry when
    it is truthy. *)
Definition diskEntry (diskCache : jsmap Json) (placeId : string) : option Json :=
  match mapGet placeId diskCache with
  | Some v => if truthy v then Some v else None
  | None => None
  end.

(** The disk tier as the next call sees it. *)
Definition diskTier (st : PlacesState) : jsmap Json := fst (loadPlaceDetailsDiskCache st).

Fixpoint findM (p : Json -> Completion bool) (l : list Json) : Completion (option Json) :=
  match l with
  | [] => Normal None
  | x :: r =>
      let! b := p x in
      if b then Normal (Some x) else findM p r
  end.

(** [x || null], seen as a condition later: a falsy [x] is as good as
    [null]. *)
Definition orNull (v : option Json) : option Json := if truthyOpt v then v else None.

Definition pickPlaceResult (data : Json) (placeId : string) : Completion (option Json) :=
  let localResults := arrayOrEmpty (getPropOpt (Some data) "local_results") in
  let placeResults :=
    orValue (getPropOpt (Some data) "place_results") (getPropOpt (Some data) "place_result") in
  let candidates :=
    match localResults with
    | _ :: _ => localResults
    | [] => match orNull placeResults with Some p => [p] | None => [] end
    end in
  if isEmpty placeId then Normal (orNull (head candidates))
  else
    let! found :=
      findM (fun item =>
               let! s := stringOrEmpty (getPropOpt (Some item) "place_id") in
               Normal (String.eqb s placeId))
            candidates in
    Normal (orNull (orValue found (head candidates))).

Section PlacesProvider.

(** The object literal that [mapSerpPlaceResult] builds from a truthy
    place and the fallback id.  Its fields are made with [Number] and
    [String]; they are doubles and are not modelled.  Whatever the
    conversions do, they return a value or throw. *)
Variable mapFields : Json -> string -> Completion Json.

Definition mapSerpPlaceResult (place : option Json) (fallbackPlaceId : string)
    : Completion (option Json) :=
  match orNull place with
  | None => Normal None
  | Some p => let! mapped := mapFields p fallbackPlaceId in Normal (Some mapped)
  end.

(** The body of the [try] of the [searchapi] branch of
    [fetchPlaceDetails], up to the value it stores and returns
    ([None] for [return null]). *)
Definition searchApiDetails (cfg : Config) (live : FetchOutcome) (placeId : string)
    : Completion (option Json) :=
  let! data := fetchSerpApiJson cfg live in
  let! place := pickPlaceResult data placeId in
  let! mapped := mapSerpPlaceResult place placeId in
  Normal (orNull mapped).

(** The same for the [serpapi] branch. *)
Definition serpApiDetails (cfg : Config) (live : FetchOutcome) (placeId : string)
    : Completion (option Json) :=
  let! data := fetchSerpApiJson cfg live in
  let! placeResults := getProp data "place_results" in
  let! placeResult := getProp data "place_result" in
  let! localResults := getProp data "local_results" in
  let place :=
    orValue placeResults
      (orValue placeResult (if isArray localResults then head (arrayOrEmpty localResults) else None)) in
  let! mapped := mapSerpPlaceResult place placeId in
  Normal (orNull mapped).

(** The same for the Google branch:
    [data.status !== 'OK' || !data.result] returns [null]. *)
Definition googleDetails (live : FetchOutcome) : Completion (option Json) :=
  let! data := fetchJson live in
  let! status := getProp data "status" in
  let! result := getProp data "result" in
  match status with
  | Some (JStr s) =>
      if negb (String.eqb s "OK") || negb (truthyOpt result) then Normal None
      else Normal result
  | _ => Normal None
  end.

(** The call to the live provider in [fetchPlaceDetails], with its
    [catch], which logs and returns [null]. *)
Definition liveDetails (cfg : Config) (live : FetchOutcome) (placeId query : string)
    : Completion (option Json) :=
  if String.eqb (PLACES_PROVIDER cfg) "searchapi" then
    let safeQuery := trim query in
    if isEmpty safeQuery then Normal None
    else tryCatch (searchApiDetails cfg live placeId) (fun _ => Normal None)
  else if String.eqb (PLACES_PROVIDER cfg) "serpapi" then
    tryCatch (serpApiDetails cfg live placeId) (fun _ => Normal None)
  else if isEmpty (GOOGLE_PLACES_API_KEY cfg) then Normal None
  else tryCatch (googleDetails live) (fun _ => Normal None).

(** What the body of the [try] that [liveDetails] runs for the
    configured provider comes to, before the [catch]. *)
Definition detailsAttempt (cfg : Config) (live : FetchOutcome) (placeId : string)
    : Completion (option Json) :=
  if String.eqb (PLACES_PROVIDER cfg) "searchapi" then searchApiDetails cfg live placeId
  else if String.eqb (PLACES_PROVIDER cfg) "serpapi" then serpApiDetails cfg live placeId
  else googleDetails live.

(** The three statements after a successful call:
    [setCachedValue(placesCache, placeId, v); diskCache[placeId] = v;
    savePlaceDetailsDiskCache()]. *)
Definition storeDetails (placeId : string) (v : Json) (now : Z) (st : PlacesState) : PlacesState :=
  savePlaceDetailsDiskCache
    (setDiskEntry placeId v
       (withPlacesCache (setCachedValue (placesCache st) placeId v now) st)).

(** [fetchPlaceDetails(placeId, query)].  [now] is the time of the call,
    [later] the time at which the provider has answered, [live] what the
    provider answers if it is asked. *)
Definition fetchPlaceDetails (cfg : Config) (live : FetchOutcome) (now later : Z)
    (placeId query : string) (st : PlacesState) : Completion (option Json) * PlacesState :=
  if negb (isPlacesApiEnabled cfg) || isEmpty placeId then (Normal None, st)
  else
    let (cached, cache1) := getCachedValue (placesCache st) placeId now in
    let st1 := withPlacesCache cache1 st in
    if truthyOpt cached then (Normal cached, st1)
    else
      let (diskCache, st2) := loadPlaceDetailsDiskCache st1 in
      match diskEntry diskCache placeId with
      | Some entry =>
          (Normal (Some entry),
           withPlacesCache (setCachedValue (placesCache st2) placeId entry now) st2)
      | None =>
          match liveDetails cfg live placeId query with
          | Normal (Some v) => (Normal (Some v), storeDetails placeId v later st2)
          | Normal None => (Normal None, st2)
          | Throw e => (Throw e, st2)
          end
      end.

(** The body of the [try] of the SerpApi branch of
    [fetchPlaceIdByQuery], up to the id it returns. *)
Definition serpApiFind (cfg : Config) (live : FetchOutcome) : Completion string :=
  let! data := fetchSerpApiJson cfg live in
  let! localResults := getProp data "local_results" in
  let! placeResults := getProp data "place_results" in
  let first := orNull (orValue (head (arrayOrEmpty localResults)) placeResults) in
  stringOrEmpty (getPropOpt first "place_id").

(** The same for the Google branch. *)
Definition googleFind (live : FetchOutcome) : Completion string :=
  let! data := fetchJson live in
  let! status := getProp data "status" in
  let! candidates := getProp data "candidates" in
  let ok := match status with Some (JStr s) => String.eqb s "OK" | _ => false end in
  if negb ok || negb (isArray candidates) || negb (truthyOpt (head (arrayOrEmpty candidates)))
  then Normal EmptyString
  else
    let! placeId := getProp (default JNull (head (arrayOrEmpty candidates))) "place_id" in
    stringOrEmpty placeId.

Definition liveFind (cfg : Config) (live : FetchOutcome) : Completion string :=
  if String.eqb (PLACES_PROVIDER cfg) "serpapi" || String.eqb (PLACES_PROVIDER cfg) "searchapi"
  then tryCatch (serpApiFind cfg live) (fun _ => Normal EmptyString)
  else if isEmpty (GOOGLE_PLACES_API_KEY cfg) then Normal EmptyString
  else tryCatch (googleFind live) (fun _ => Normal EmptyString).

(** The same for [liveFind]. *)
Definition findAttempt (cfg : Config) (live : FetchOutcome) : Completion string :=
  if String.eqb (PLACES_PROVIDER cfg) "serpapi" || String.eqb (PLACES_PROVIDER cfg) "searchapi"
  then serpApiFind cfg live
  else googleFind live.

(** [if (cached) return cached] for a cached id: the empty string is
    falsy. *)
Definition orEmptyId (cached : option string) : option string :=
  match cached with
  | Some id => if isEmpty id then None else Some id
  | None => None
  end.

(** [fetchPlaceIdByQuery(query)]. *)
Definition fetchPlaceIdByQuery (cfg : Config) (live : FetchOutcome) (now later : Z)
    (query : string) (st : PlacesState) : Completion string * PlacesState :=
  if negb (isPlacesApiEnabled cfg) || isEmpty query then (Normal EmptyString, st)
  else
    let (cached, cache1) := getCachedValue (placeIdCache st) query now in
    let st1 := withPlaceIdCache cache1 st in
    match orEmptyId cached with
    | Some id => (Normal id, st1)
    | None =>
        match liveFind cfg live with
        | Normal placeId =>
            (Normal placeId,
             if negb (isEmpty placeId)
             then withPlaceIdCache (setCachedValue (placeIdCache st1) query placeId later) st1
             else st1)
        | Throw e => (Throw e, st1)
        end
    end.

(** [item?.name === company.name] *)
Definition sameName (item : Json) (company : Company) : bool :=
  match getPropOpt (Some item) "name", name company with
  | None, None => true
  | Some (JStr s), Some n => String.eqb s n
  | _, _ => false
  end.

(** [getCompanyPlaceData(company)].  [liveId] and [live] are what the
    provider answers to the two requests, [t1] to [t4] the times of the
    two calls and of the two answers. *)
Definition getCompanyPlaceData (cfg : Config) (liveId live : FetchOutcome)
    (t1 t2 t3 t4 : Z) (company : Company) (st : PlacesState)
    : Completion (option Json) * PlacesState :=
  let explicitPlaceId := companyPlaceId company in
  let query := trim (fieldOr (mapQuery company) (fieldOr (name company) EmptyString)) in
  let (diskCache, st1) := loadPlaceDetailsDiskCache st in
  let cachedByPlaceId :=
    if negb (isEmpty explicitPlaceId) then diskEntry diskCache explicitPlaceId else None in
  if negb (isPlacesApiEnabled cfg) then
    match cachedByPlaceId with
    | Some entry => (Normal (Some entry), st1)
    | None =>
        (Normal (orNull (List.find (fun item => sameName item company) (map snd diskCache))), st1)
    end
  else
    let (idResult, st2) :=
      if negb (isEmpty explicitPlaceId) then (Normal explicitPlaceId, st1)
      else fetchPlaceIdByQuery cfg liveId t1 t2 query st1 in
    match idResult with
    | Throw e => (Throw e, st2)
    | Normal placeId =>
        if isEmpty placeId then (Normal None, st2)
        else
          let (liveResult, st3) := fetchPlaceDetails cfg live t3 t4 placeId query st2 in
          match liveResult with
          | Throw e => (Throw e, st3)
          | Normal (Some v) =>
              if truthy v then
                (Normal (Some v), savePlaceDetailsDiskCache (setDiskEntry placeId v st3))
              else (Normal (diskEntry (diskTier st3) placeId), st3)
          | Normal None => (Normal (diskEntry (diskTier st3) placeId), st3)
          end
    end.

End PlacesProvider.



(* ===================================================================== *)
(** ** The submission API *)
(* ===================================================================== *)

Module Submissions.


(** A row of the table [submissions].  [None] is [NULL]; [name] and
    [email] are declared [NOT NULL]. *)
Record Row : Type := {
  row_id : nat;
  row_name : string;
  row_email : string;
  row_city : option string;
  row_type : option string;
  row_details : option string;
  row_contact : option string;
  created_at : Z
}.

(** The table and the counter of its [AUTOINCREMENT] key. *)
Record Table : Type := {
  rows : list Row;
  lastID : nat
}.

(** What a handler answers: [res.status(s).json(...)]. *)
Inductive Payload : Type :=
  | OkId (id : nat)
  | OkData (data : list Row)
  | Failure (message : string).

Record Reply : Type := {
  status : nat;
  payload : Payload
}.



Definition digitValue (t : string) : option Z :=
  match t with
  | String c EmptyString =>
      if isDigitAscii c then Some (Z.of_nat (code c - 48)) else None
  | _ => None
  end.

(** The digits at the head of [ts], read in base ten after [acc]. *)
Fixpoint readDigits (acc : Z) (ts : list string) : Z :=
  match ts with
  | [] => acc
  | t :: r =>
      match digitValue t with
      | Some d => readDigits (10 * acc + d) r
      | None => acc
      end
  end.

Definition startsWithDigit (ts : list string) : bool :=
  match ts with
  | t :: _ => match digitValue t with Some _ => true | None => false end
  | [] => false
  end.

(** [parseInt(value, 10)]: white space, a sign, digits; [None] is [NaN],
    also for a parameter that is not there. *)
Definition parseInt (v : option string) : option Z :=
  match v with
  | None => None
  | Some s =>
      let ts := dropWhile isSpace (chars s) in
      let (negative, digits) :=
        match ts with
        | t :: r =>
            if String.eqb t "-" then (true, r)
            else if String.eqb t "+" then (false, r)
            else (false, ts)
        | [] => (false, ts)
        end in
      if startsWithDigit digits then
        Some (if negative then (- readDigits 0 digits)%Z else readDigits 0 digits)
      else None
  end.

(** [Math.min(parseInt(req.query.limit, 10) || 100, 500)]: [NaN] and
    zero are falsy. *)
Definition queryLimit (limit : option string) : Z :=
  let parsed :=
    match parseInt limit with
    | Some z => if (z =? 0)%Z then 100%Z else z
    | None => 100%Z
    end in
  Z.min parsed 500.

(** [ORDER BY datetime(created_at) DESC]. *)
Definition newestFirst (a b : Row) : jsnum := Num (created_at b - created_at a).

(** [LIMIT n]: SQLite puts no bound on the rows when [n] is negative. *)
Definition sqlLimit (n : Z) (l : list Row) : list Row :=
  if (n <? 0)%Z then l else take (Z.to_nat n) l.

(** [SELECT ... FROM submissions ORDER BY datetime(created_at) DESC
    LIMIT ?]. *)
Definition selectSubmissions (limit : Z) (db : Table) : list Row :=
  sqlLimit limit (sortBy newestFirst (rows db)).

(** The handler of [GET /api/submissions]. *)
Definition listSubmissions (limit : option string) (db : Table) : Reply :=
  {| status := 200; payload := OkData (selectSubmissions (queryLimit limit) db) |}.

End Submissions.

(* ===================================================================== *)
(** ** Predicates of the statements *)
(* ===================================================================== *)

(** The character [c] occurs in [s]. *)
Fixpoint charIn (c : ascii) (s : string) : bool :=
  match s with
  | EmptyString => false
  | String d s' => Ascii.eqb d c || charIn c s'
  end.

(** The entities that [escapeHtml] writes. *)
Definition htmlEntities : list string := ["&amp;"; "&lt;"; "&gt;"; "&quot;"; "&#39;"].

(** Every ampersand of [s] starts one of the entities. *)
Fixpoint ampsOk (s : string) : bool :=
  match s with
  | EmptyString => true
  | String c s' =>
      (negb (Ascii.eqb c chAmp) || existsb (fun e => startsWith e s) htmlEntities)
      && ampsOk s'
  end.

(** What [escapeHtml] writes for one character, and for a whole string in
    one pass. *)
Definition escapeChar (c : ascii) : string :=
  if Ascii.eqb c chAmp then "&amp;"
  else if Ascii.eqb c chLt then "&lt;"
  else if Ascii.eqb c chGt then "&gt;"
  else if Ascii.eqb c chDq then "&quot;"
  else if Ascii.eqb c chSq then "&#39;"
  else String c EmptyString.

Fixpoint escapeAll (s : string) : string :=
  match s with
  | EmptyString => EmptyString
  | String c s' => escapeChar c +:+ escapeAll s'
  end.

(** The rows of [l] are in the order newest first. *)
Definition NewestFirst (l : list Submissions.Row) : Prop :=
  StronglySorted (fun a b => (Submissions.created_at b <= Submissions.created_at a)%Z) l.

(** A table of [n] submissions, one per second; the row with key [i] was
    made at time [i]. *)
Definition sampleRow (i : nat) : Submissions.Row :=
  {| Submissions.row_id := i; Submissions.row_name := "网站访客";
     Submissions.row_email := "+52123"; Submissions.row_city := None;
     Submissions.row_type := None; Submissions.row_details := None;
     Submissions.row_contact := Some "+52123";
     Submissions.created_at := Z.of_nat i |}.

Definition sampleTable (n : nat) : Submissions.Table :=
  {| Submissions.rows := map sampleRow (seq 1 n); Submissions.lastID := n |}.


(** A configuration with the provider switched off, a place of the disk
    tier and a company that points to it. *)
Definition disabledConfig : Config :=
  {| PLACES_API_ENABLED := false; PLACES_PROVIDER := "google";
     GOOGLE_PLACES_API_KEY := "key"; SERPAPI_KEY := EmptyString;
     SEARCHAPI_KEY := EmptyString |}.

Definition casaPlace : Json :=
  JObj [("place_id", JStr "p1"); ("name", JStr "Casa Lanzhou"); ("rating", JNum 5)].

Definition casaState : PlacesState :=
  {| placesCache := ∅; placeIdCache := ∅;
     placeDetailsDiskCache := Some [("p1", casaPlace)];
     diskFile := Some [("p1", casaPlace)] |}.

Definition casaCompany : Company :=
  {| slug := Some "casa"; name := Some "Casa Lanzhou"; summary := None;
     city := None; industry := None; category := None;
     placeId := Some "p1"; place_id := None; contact := None; cover := None;
     mapQuery := None; lat := None; lng := None |}.

(** A stand-in for the field mapping of [mapSerpPlaceResult]. *)
Definition sameFields (place : Json) (fallbackPlaceId : string) : Completion Json :=
  Normal place.

(** The distinct elements of [l], in the order of their first
    occurrence. *)
Fixpoint firstSeen (l : list string) : list string :=
  match l with
  | [] => []
  | x :: r => x :: List.filter (fun y => negb (String.eqb y x)) (firstSeen r)
  end.

Definition isMexicoCity (c : string) : bool := String.eqb c "墨西哥城".
Definition isMonterrey (c : string) : bool := String.eqb c "蒙特雷".

(** 墨西哥城 first, 蒙特雷 second, then the other elements of [l] in the
    order they have in [l]. *)
Definition pinnedFirst (l : list string) : list string :=
  List.filter isMexicoCity l
  ++ List.filter isMonterrey l
  ++ List.filter (fun c => negb (isMexicoCity c) && negb (isMonterrey c)) l.

(** The number of companies of [companies] whose city is [c]. *)
Definition countOf (c : string) (companies : list Company) : nat :=
  List.length (List.filter (fun company => String.eqb (cityOf company) c) companies).

(** The position of the first [c] in [l]. *)
Fixpoint position (c : string) (l : list string) : option nat :=
  match l with
  | [] => None
  | y :: r => if String.eqb c y then Some 0 else option_map S (position c r)
  end.

(** The index map that the loop builds for the cities [l]. *)
Definition indexMap (l : list string) : jsmap nat := imap (fun i c => (c, i)) l.

(** What the first loop of [buildCompaniesHtml] has established once it
    has gone through [companies]. *)
Record GroupInv (companies : list Company) (g : Grouping) : Prop := {
  inv_keys : mapKeys (cityMap g) = cityOrder g;
  inv_index : cityIndex g = indexMap (cityOrder g);
  inv_order : cityOrder g = firstSeen (map cityOf companies);
  inv_count : forall c, count (cityEntryOf g c) = countOf c companies
}.

(** The index map [idx] grows along [l]. *)
Definition Rising (idx : jsmap nat) (l : list string) : Prop :=
  StronglySorted
    (fun a b => exists i j, mapGet a idx = Some i /\ mapGet b idx = Some j /\ (i < j)%nat) l.

(** A template, a configuration with the Google provider enabled, and two
    states of the photo directory: empty, and with the photo of place
    [p1]. *)
Definition sampleTemplate : string :=
  "<nav><!--COMPANY_NAV--></nav><main><!--COMPANY_SECTIONS--></main>".

Definition enabledConfig : Config :=
  {| PLACES_API_ENABLED := true; PLACES_PROVIDER := "google";
     GOOGLE_PLACES_API_KEY := "key"; SERPAPI_KEY := EmptyString;
     SEARCHAPI_KEY := EmptyString |}.

Definition envWithoutPhoto : Env :=
  {| companiesTemplate := sampleTemplate; companiesData := [casaCompany];
     photoExists := fun _ => false; config := enabledConfig |}.

Definition envWithPhoto : Env :=
  {| companiesTemplate := sampleTemplate; companiesData := [casaCompany];
     photoExists := fun fileName => String.eqb fileName "p1.jpg"; config := enabledConfig |}.

Definition envOtherKey : Env :=
  {| companiesTemplate := sampleTemplate; companiesData := [casaCompany];
     photoExists := fun _ => false;
     config := {| PLACES_API_ENABLED := true; PLACES_PROVIDER := "google";
                  GOOGLE_PLACES_API_KEY := "another key"; SERPAPI_KEY := EmptyString;
                  SEARCHAPI_KEY := EmptyString |} |}.

Definition defaultOptions : Options := {| template := None; filter := None |}.

(** The company of the specification's scenario, and a milk tea shop. *)
Definition abcNoodles : Company :=
  {| slug := Some "abc"; name := Some "Abc Noodles"; summary := Some "牛肉面";
     city := None; industry := Some "餐饮与服务"; category := None;
     placeId := None; place_id := None; contact := None; cover := None;
     mapQuery := None; lat := None; lng := None |}.

Definition milkTeaShop : Company :=
  {| slug := Some "naicha"; name := Some "奶茶店"; summary := None;
     city := None; industry := Some "餐饮与服务"; category := None;
     placeId := None; place_id := None; contact := None; cover := None;
     mapQuery := None; lat := None; lng := None |}.

(** [x] is an element of [l], as a test. *)
Definition memb (x : string) (l : list string) : bool := existsb (String.eqb x) l.

(* ===================================================================== *)
(** ** More of [server.js]: links, photo counts, the directory data *)
(* ===================================================================== *)

(** [s.length]: the number of UTF-16 code units of [s].  A character
    whose UTF-8 encoding has four bytes lies outside the basic plane and
    takes two units, every other character one. *)
Definition jsLength (s : string) : nat :=
  list_sum (map (fun t => if (String.length t =? 4)%nat then 2%nat else 1%nat) (chars s)).

(** The class of [sanitizeUrl]: every character but white space, the two
    quotes and the two angle brackets. *)
Definition isUrlChar (t : string) : bool :=
  negb (isSpace t || existsb (String.eqb t) [dq; "'"; "<"; ">"]).

(** [/^https?:\/\//i], without its anchor. *)
Definition httpRe : regex :=
  RSeq (litI "http") (RSeq (RAlt (litI "s") REps) (litI "://")).

(** The pattern of [sanitizeUrl], without its anchors: [httpRe] and one
    or more characters of the class. *)
Definition urlRe : regex :=
  RSeq httpRe (RSeq (RChar isUrlChar) (RStar (RChar isUrlChar))).

Definition sanitizeUrl (value : option string) : string :=
  let raw := trim (stringOf value) in
  if isEmpty raw then EmptyString
  else if negb (matchAll urlRe (chars raw)) then EmptyString
  else raw.

(** [isHttpUrl]: [/^https?:\/\//i.test(String(value || ''))]. *)
Definition isHttpUrl (value : option string) : bool :=
  matchPrefix httpRe (chars (fieldOr value EmptyString)).

(** The loop of [countLocalPlacePhotos] from index [i] on, with [fuel]
    iterations left: it stops at the first photo that is not there. *)
Fixpoint scanPhotos (env : Env) (safeId : string) (i fuel : nat) : nat :=
  match fuel with
  | O => O
  | S fuel' =>
      match getLocalPlacePhoto env safeId i with
      | Some _ => S (scanPhotos env safeId (S i) fuel')
      | None => O
      end
  end.

Definition MAX_SCAN : nat := 12.

Definition countLocalPlacePhotos (env : Env) (placeId : string) : nat :=
  let safeId := trim placeId in
  if isEmpty safeId then O else scanPhotos env safeId 0 MAX_SCAN.


(** [l.join(sep)]. *)
Fixpoint joinWith (sep : string) (l : list string) : string :=
  match l with
  | [] => EmptyString
  | [x] => x
  | x :: r => x +:+ sep +:+ joinWith sep r
  end.


Definition chBackslash : ascii := ascii_of_nat 92.













(* ===================================================================== *)
(** ** The forum: rate limit and posts *)
(* ===================================================================== *)

Module Forum.

(** [10 * 60 * 1000], [4] and [25 * 1000] *)
Definition FORUM_RATE_LIMIT_WINDOW_MS : Z := 10 * 60 * 1000.
Definition FORUM_RATE_LIMIT_MAX : nat := 4.
Definition FORUM_MIN_INTERVAL_MS : Z := 25 * 1000.

(** An entry of [forumRateLimits]. *)
Record Entry : Type := {
  count : nat;
  resetAt : Z;
  lastAt : Z
}.

(** What [checkForumRateLimit] returns. *)
Inductive RateResult : Type :=
  | Allowed
  | TooFast (retryIn : Z)
  | RateLimited (retryIn : Z).

(** [checkForumRateLimit(ip)] when [Date.now()] is [now].  The entry read
    from the map is the object stored there: when the window is over, the
    three assignments that start a new window change the stored entry,
    also when the call then refuses the post.  An entry made by the
    [||] is only stored by the [set] at the end. *)
Definition checkForumRateLimit (ip : string) (now : Z) (limits : gmap string Entry)
    : RateResult * gmap string Entry :=
  let key := orElse ip "unknown" in
  let stored := limits !! key in
  let entry0 :=
    default {| count := 0; resetAt := (now + FORUM_RATE_LIMIT_WINDOW_MS)%Z; lastAt := 0 |}
            stored in
  let entry1 :=
    if (resetAt entry0 <? now)%Z
    then {| count := 0; resetAt := (now + FORUM_RATE_LIMIT_WINDOW_MS)%Z; lastAt := 0 |}
    else entry0 in
  let limits1 :=
    match stored with
    | Some _ => <[key := entry1]> limits
    | None => limits
    end in
  if (now - lastAt entry1 <? FORUM_MIN_INTERVAL_MS)%Z then
    (TooFast (FORUM_MIN_INTERVAL_MS - (now - lastAt entry1)), limits1)
  else if (FORUM_RATE_LIMIT_MAX <=? count entry1)%nat then
    (RateLimited (resetAt entry1 - now), limits1)
  else
    (Allowed,
     <[key := {| count := count entry1 + 1; resetAt := resetAt entry1; lastAt := now |}]>
       limits).

(** [req.body] of [POST /api/forum-posts]. *)
Record PostBody : Type := {
  website : option string;
  title : option string;
  content : option string;
  category : option string;
  city : option string;
  contact : option string
}.

(** A row of the table [forum_posts]. *)
Record Post : Type := {
  post_id : nat;
  post_title : string;
  post_content : string;
  post_category : option string;
  post_city : option string;
  post_contact : option string;
  post_ip_hash : option string;
  post_user_agent : option string;
  post_created_at : Z
}.

Record Table : Type := {
  posts : list Post;
  lastID : nat
}.

Inductive Payload : Type :=
  | OkId (id : nat)
  | OkData (data : list Post)
  | Failure (message : string).

Record Reply : Type := {
  status : nat;
  payload : Payload
}.

(** The two things a request changes: the rate limits and the table. *)
Record State : Type := {
  limits : gmap string Entry;
  table : Table
}.

(** [INSERT INTO forum_posts (...) VALUES (?, ?, ?, ?, ?, ?, ?)] at time
    [now]; [title] and [content] are declared [NOT NULL]. *)
Definition insertPost (t c cat ci ct ih ua : option string) (now : Z) (db : Table)
    : option (nat * Table) :=
  match t, c with
  | Some t', Some c' =>
      let id := S (lastID db) in
      Some (id,
            {| posts := posts db ++
                 [{| post_id := id; post_title := t'; post_content := c';
                     post_category := cat; post_city := ci; post_contact := ct;
                     post_ip_hash := ih; post_user_agent := ua;
                     post_created_at := now |}];
               lastID := id |})
  | _, _ => None
  end.

(** [Math.max(1, Math.ceil((rate.retryIn || 1000) / 1000))] *)
Definition retrySeconds (retryIn : Z) : Z :=
  let r := if (retryIn =? 0)%Z then 1000%Z else retryIn in
  Z.max 1 (- ((- r) / 1000))%Z.

Definition retryOf (r : RateResult) : Z :=
  match r with
  | Allowed => 0%Z
  | TooFast retryIn => retryIn
  | RateLimited retryIn => retryIn
  end.

(** The handler of [POST /api/forum-posts].  [ipHash] and [userAgent]
    are what [hashIp] and the [slice] of the header give; they are stored
    as they are. *)
Definition createPost (body : PostBody) (ip ipHash userAgent : string) (now : Z) (st : State)
    : Reply * State :=
  let honeypot := trim (fieldOr (website body) EmptyString) in
  if negb (isEmpty honeypot) then
    ({| status := 400; payload := Failure "提交失败" |}, st)
  else
    let (rate, limits') := checkForumRateLimit ip now (limits st) in
    let st1 := {| limits := limits'; table := table st |} in
    match rate with
    | TooFast _ | RateLimited _ =>
        ({| status := 429;
            payload := Failure ("发布太频繁，请 " +:+ showZ (retrySeconds (retryOf rate))
                                +:+ " 秒后再试") |}, st1)
    | Allowed =>
        let safeTitle := trim (fieldOr (title body) EmptyString) in
        let safeContent := trim (fieldOr (content body) EmptyString) in
        let safeCategory := trim (fieldOr (category body) EmptyString) in
        let safeCity := trim (fieldOr (city body) EmptyString) in
        let safeContact := trim (fieldOr (contact body) EmptyString) in
        if (jsLength safeTitle <? 2)%nat || (80 <? jsLength safeTitle)%nat then
          ({| status := 400; payload := Failure "标题需要 2-80 个字" |}, st1)
        else if (jsLength safeContent <? 10)%nat || (2000 <? jsLength safeContent)%nat then
          ({| status := 400; payload := Failure "内容需要 10-2000 个字" |}, st1)
        else
          match insertPost (Some safeTitle) (Some safeContent) (Some safeCategory)
                  (Some safeCity) (Some safeContact) (Some ipHash) (Some userAgent)
                  now (table st1) with
          | None => ({| status := 500; payload := Failure "存储失败" |}, st1)
          | Some (id, db') =>
              ({| status := 200; payload := OkId id |}, {| limits := limits'; table := db' |})
          end
    end.

(** [Math.min(parseInt(req.query.limit, 10) || 50, 200)] *)
Definition queryLimit (limit : option string) : Z :=
  let parsed :=
    match Submissions.parseInt limit with
    | Some z => if (z =? 0)%Z then 50%Z else z
    | None => 50%Z
    end in
  Z.min parsed 200.

(** [ORDER BY datetime(created_at) DESC] *)
Definition newestFirst (a b : Post) : jsnum := Num (post_created_at b - post_created_at a).



End Forum.

(* ===================================================================== *)
(** ** Sequences of requests to the forum *)
(* ===================================================================== *)

(** The key under which [checkForumRateLimit] counts an address. *)
Definition rateKey (ip : string) : string := orElse ip "unknown".

(** Calls of [checkForumRateLimit], one after the other: the addresses
    with the times of the calls. *)
Fixpoint runChecks (calls : list (string * Z)) (limits : gmap string Forum.Entry)
    : list (string * Forum.RateResult) * gmap string Forum.Entry :=
  match calls with
  | [] => ([], limits)
  | (ip, t) :: rest =>
      let (r, limits1) := Forum.checkForumRateLimit ip t limits in
      let (rs, limits2) := runChecks rest limits1 in
      ((ip, r) :: rs, limits2)
  end.

Definition isAllowed (r : Forum.RateResult) : bool :=
  match r with Forum.Allowed => true | _ => false end.

(** How many calls for the key [k] were allowed. *)
Definition allowedFor (k : string) (rs : list (string * Forum.RateResult)) : nat :=
  List.length
    (List.filter (fun p => String.eqb (rateKey (fst p)) k && isAllowed (snd p)) rs).




(** The bounds that [POST /api/forum-posts] puts on a post. *)
Definition validPost (p : Forum.Post) : Prop :=
  (2 <= jsLength (Forum.post_title p) <= 80)%nat /\
  (10 <= jsLength (Forum.post_content p) <= 2000)%nat.

(** What is left to an address of its four posts, and what the limiter
    keeps true of its entry during a span that starts at [lo]. *)
Definition budget (k : string) (limits : gmap string Forum.Entry) : nat :=
  match limits !! k with
  | Some e => (Forum.FORUM_RATE_LIMIT_MAX - Forum.count e)%nat
  | None => Forum.FORUM_RATE_LIMIT_MAX
  end.

Definition windowOpen (k : string) (lo : Z) (limits : gmap string Forum.Entry) : Prop :=
  match limits !! k with
  | Some e => (lo + Forum.FORUM_RATE_LIMIT_WINDOW_MS <= Forum.resetAt e)%Z
  | None => True
  end.


(* ===================================================================== *)
(** ** Sequences of calls to the places cache *)
(* ===================================================================== *)








Definition googleCandidates : FetchOutcome :=
  Response 200 (JObj [("status", JStr "OK");
                      ("candidates", JArr [JObj [("place_id", JStr "p1")]])]).

(* ===================================================================== *)
(** ** Groups: what the loops of [buildCompaniesHtml] compute *)
(* ===================================================================== *)

(** The elements of [l] by key: the keys in the order in which they are
    first seen, each with its elements in the order of [l]. *)
Definition groupBy {A} (key : A -> string) (l : list A) : jsmap (list A) :=
  map (fun k => (k, List.filter (fun x => String.eqb (key x) k) l)) (firstSeen (map key l)).

(** One round of a loop that groups by key: [if (!m.has(k)) m.set(k, [])]
    and [m.get(k).push(x)]. *)
Definition groupStep {A} (key : A -> string) (m : jsmap (list A)) (x : A) : jsmap (list A) :=
  mapAdjust (fun items => items ++ [x]) (key x)
    (if negb (mapHas (key x) m) then mapSet (key x) [] m else m).

(** The companies of the city [c]. *)
Definition companiesOf (c : string) (cs : list Company) : list Company :=
  List.filter (fun x => String.eqb (cityOf x) c) cs.

(** The elements of [l] that are in [names], in the order of [names], and
    then the others in the order of [l]. *)
Definition byRank (names l : list string) : list string :=
  flat_map (fun n => List.filter (String.eqb n) l) names
  ++ List.filter (fun c => negb (memb c names)) l.

(** The categories of the food companies [items] in the order in which
    [renderIndustry] goes through them. *)
Definition orderedCategoriesOf (items : list Company) : list string :=
  let g := groupCategories items in
  sortBy (byPriority categoryPriority (categoryIndex g)) (categoryOrder g).

(** The companies whose cards [renderIndustry] writes, in the order of the
    cards: category after category for the food industry, the items as
    they are for another industry. *)
Definition industryCards (entry : string * list Company) : list Company :=
  if String.eqb (fst entry) foodIndustry then
    flat_map (fun cat => default [] (mapGet cat (categoryMap (groupCategories (snd entry)))))
      (orderedCategoriesOf (snd entry))
  else snd entry.

(** The companies of all the cards of [sectionsHtml], city after city and
    industry after industry. *)
Definition cardsInOrder (g : Grouping) : list Company :=
  flat_map (fun c => flat_map industryCards (industries (cityEntryOf g c))) (orderedCities g).

(* ===================================================================== *)
(** ** Predicates on strings *)
(* ===================================================================== *)

(** Every byte of [s] satisfies [p]. *)
Fixpoint allBytes (p : ascii -> bool) (s : string) : bool :=
  match s with
  | EmptyString => true
  | String c s' => p c && allBytes p s'
  end.

(** [s] ends with a dash. *)
Fixpoint endsWithDash (s : string) : bool :=
  match s with
  | EmptyString => false
  | String c EmptyString => Ascii.eqb c "-"%char
  | String _ s' => endsWithDash s'
  end.

(** A letter of [a-z], a digit or a dash. *)
Definition isSlugByte (c : ascii) : bool := isSlugChar c || Ascii.eqb c "-"%char.

(** The bytes of [s] are letters of [a-z], digits and dashes, and no dash
    follows another; after a dash ([afterDash]) the string does not start
    with one either. *)
Fixpoint dashesApart (afterDash : bool) (s : string) : bool :=
  match s with
  | EmptyString => true
  | String c s' =>
      if isSlugChar c then dashesApart false s'
      else Ascii.eqb c "-"%char && negb afterDash && dashesApart true s'
  end.

(** The class [[-a-zA-Z0-9_./:]] of [sanitizeCover], on bytes. *)
Definition isCoverByte (c : ascii) : bool := isCoverChar (String c EmptyString).

(** A byte that [encodeURIComponent] can write: an unreserved character or
    the percent sign. *)
Definition isUriByte (c : ascii) : bool := isUnreserved c || Ascii.eqb c "%"%char.

(** A character as [chars] makes them: a byte and the continuation bytes
    that follow it. *)
Definition isToken (t : string) : bool :=
  match t with
  | EmptyString => false
  | String _ conts => allBytes isContinuation conts
  end.

(** A character that does not start with a continuation byte. *)
Definition startsFresh (t : string) : bool :=
  match t with
  | EmptyString => false
  | String c _ => negb (isContinuation c)
  end.

(** A list of characters that [chars] can return. *)
Definition Tokens (l : list string) : Prop :=
  match l with
  | [] => True
  | t :: r => isToken t = true /\ Forall (fun u => isToken u = true /\ startsFresh u = true) r
  end.

(* ===================================================================== *)
(** ** The company page: labels, opening hours and absolute links *)
(* ===================================================================== *)

(** [s.split(sep)] on characters: the pieces between the characters that
    satisfy [p].  A text without such a character is one piece. *)
Fixpoint splitOn (p : string -> bool) (ts : list string) : list (list string) :=
  match ts with
  | [] => [[]]
  | t :: r =>
      if p t then [] :: splitOn p r
      else
        match splitOn p r with
        | part :: parts => (t :: part) :: parts
        | [] => [[t]]
        end
  end.

(** The middle dot U+00B7 that separates the parts of a summary. *)
Definition middleDot : string := "·".
Definition isMiddleDot (t : string) : bool := String.eqb t middleDot.

(** [parseCategoryFromSummary] *)
Definition parseCategoryFromSummary (summary : option string) : string :=
  let raw := trim (fieldOr summary EmptyString) in
  if negb (existsb isMiddleDot (chars raw)) then EmptyString
  else
    let parts :=
      List.filter (fun part => negb (isEmpty part))
        (map (fun piece => trim (joinStrings piece)) (splitOn isMiddleDot (chars raw))) in
    if (1 <? List.length parts)%nat then List.last parts EmptyString else EmptyString.

(** [formatCategoryLabel] *)
Definition formatCategoryLabel (company : Company) : string :=
  let raw :=
    orElse (trim (fieldOr (category company) EmptyString))
           (parseCategoryFromSummary (summary company)) in
  if isEmpty raw then EmptyString
  else if String.eqb raw "中餐" then "中餐馆"
  else raw.

(** The colon and the full-width colon U+FF1A of [getTodayHours]. *)
Definition isColon (t : string) : bool := String.eqb t ":" || String.eqb t "：".

(** [getTodayHours(openingHours)] on the day [today] of the week, as
    [Date.prototype.getDay] numbers the days: 0 is Sunday. *)
Definition getTodayHours (openingHours : option Json) (today : nat) : Completion string :=
  let weekdayText := getPropOpt openingHours "weekday_text" in
  if negb (isArray weekdayText) || (List.length (arrayOrEmpty weekdayText) <? 7)%nat
  then Normal EmptyString
  else
    let index := ((today + 6) mod 7)%nat in
    let! entry := stringOrEmpty (nth_error (arrayOrEmpty weekdayText) index) in
    if isEmpty entry then Normal EmptyString
    else
      let parts := splitOn isColon (chars entry) in
      if (List.length parts <? 2)%nat then Normal EmptyString
      else Normal (trim (joinWith ":" (map joinStrings (List.tl parts)))).

(** [buildAbsoluteUrl(value)]; [origin] is the constant [SITE_ORIGIN]. *)
Definition buildAbsoluteUrl (origin : string) (value : option string) : string :=
  let raw := trim (fieldOr value EmptyString) in
  if isEmpty raw then EmptyString
  else if matchPrefix httpRe (chars raw) then raw
  else
    let prefix := if startsWith "/" raw then EmptyString else "/" in
    origin +:+ prefix +:+ raw.

(** A full-width colon becomes a colon. *)
Definition plainColon (t : string) : string := if isColon t then ":" else t.

(** The opening hours that Google gives for a week that starts on
    Monday. *)
Definition sampleHours : Json :=
  JObj [("weekday_text",
         JArr [JStr "Monday: 9:00 AM – 5:00 PM"; JStr "Tuesday: 9:00 AM – 5:00 PM";
               JStr "Wednesday: 9:00 AM – 5:00 PM"; JStr "Thursday: 9:00 AM – 5:00 PM";
               JStr "Friday: 9:00 AM – 9:00 PM"; JStr "Saturday: 10:00 AM – 9:00 PM";
               JStr "Sunday: Closed"])].




(* ===================================================================== *)
(** ** The cookie of the visitor *)
(* ===================================================================== *)

(** The value of a hexadecimal digit, in either case. *)
Definition hexValue (c : ascii) : option nat :=
  if isDigitAscii c then Some (code c - 48)%nat
  else if (65 <=? code c)%nat && (code c <=? 70)%nat then Some (code c - 55)%nat
  else if (97 <=? code c)%nat && (code c <=? 102)%nat then Some (code c - 87)%nat
  else None.

(** The byte that the escape [%XY] at the head of [s] stands for, and
    what follows the escape. *)
Definition readEscape (s : string) : option (nat * string) :=
  match s with
  | String c (String x (String y rest)) =>
      if Ascii.eqb c "%"%char then
        match hexValue x, hexValue y with
        | Some a, Some b => Some ((16 * a + b)%nat, rest)
        | _, _ => None
        end
      else None
  | _ => None
  end.

(** [n] escaped continuation bytes at the head of [s]. *)
Fixpoint readContinuations (n : nat) (s : string) : option (list nat * string) :=
  match n with
  | O => Some ([], s)
  | S n' =>
      match readEscape s with
      | Some (b, rest) =>
          if (128 <=? b)%nat && (b <? 192)%nat then
            match readContinuations n' rest with
            | Some (bs, rest') => Some (b :: bs, rest')
            | None => None
            end
          else None
      | None => None
      end
  end.

(** How many continuation bytes follow the lead byte [lead] of a
    character of more than one byte. *)
Definition continuationCount (lead : nat) : option nat :=
  if (lead <? 192)%nat then None
  else if (lead <? 224)%nat then Some 1%nat
  else if (lead <? 240)%nat then Some 2%nat
  else if (lead <? 248)%nat then Some 3%nat
  else None.

(** The lead byte and the continuation bytes are the UTF-8 encoding of a
    code point: not too long an encoding, not a surrogate and not beyond
    U+10FFFF. *)
Definition validSequence (lead : nat) (conts : list nat) : bool :=
  match conts with
  | [_] => (194 <=? lead)%nat && (lead <=? 223)%nat
  | [b2; _] =>
      (lead =? 224)%nat && (160 <=? b2)%nat
      || (225 <=? lead)%nat && (lead <=? 236)%nat
      || (lead =? 237)%nat && (b2 <=? 159)%nat
      || (238 <=? lead)%nat && (lead <=? 239)%nat
  | [b2; _; _] =>
      (lead =? 240)%nat && (144 <=? b2)%nat
      || (241 <=? lead)%nat && (lead <=? 243)%nat
      || (lead =? 244)%nat && (b2 <=? 143)%nat
  | _ => false
  end.

Definition uriError : string := "URIError: URI malformed".

(** [decodeURIComponent(s)], with [fuel] steps left; every step reads at
    least one byte of [s]. *)
Fixpoint decodeFrom (fuel : nat) (s : string) : Completion string :=
  match s with
  | EmptyString => Normal EmptyString
  | String c rest =>
      match fuel with
      | O => Throw uriError
      | S fuel' =>
          if negb (Ascii.eqb c "%"%char) then
            let! r := decodeFrom fuel' rest in Normal (String c r)
          else
            match readEscape s with
            | None => Throw uriError
            | Some (b, rest1) =>
                if (b <? 128)%nat then
                  let! r := decodeFrom fuel' rest1 in Normal (String (ascii_of_nat b) r)
                else
                  match continuationCount b with
                  | None => Throw uriError
                  | Some n =>
                      match readContinuations n rest1 with
                      | None => Throw uriError
                      | Some (bs, rest2) =>
                          if validSequence b bs then
                            let! r := decodeFrom fuel' rest2 in Normal (bytes (b :: bs) +:+ r)
                          else Throw uriError
                      end
                  end
            end
      end
  end.

(** [decodeURIComponent(s)]: the fuel is the length of [s], enough to
    read all of it ([decodeFrom_enough]). *)
Definition decodeURIComponent (s : string) : Completion string :=
  decodeFrom (String.length s) s.

(** [item.indexOf('=')] with the two slices: the characters before the
    first equals sign and those after it. *)
Fixpoint breakAtEquals (ts : list string) : option (list string * list string) :=
  match ts with
  | [] => None
  | t :: r =>
      if String.eqb t "=" then Some ([], r)
      else
        match breakAtEquals r with
        | Some (before, after) => Some (t :: before, after)
        | None => None
        end
  end.

(** The [forEach] of [parseCookies] over the items of the header. *)
Fixpoint cookiesFrom (items : list (list string)) (cookies : jsmap string)
    : Completion (jsmap string) :=
  match items with
  | [] => Normal cookies
  | item :: rest =>
      match breakAtEquals item with
      | None => cookiesFrom rest cookies
      | Some (before, after) =>
          let name := trim (joinStrings before) in
          let value := trim (joinStrings after) in
          if isEmpty name then cookiesFrom rest cookies
          else
            let! decoded := decodeURIComponent value in
            cookiesFrom rest (mapSet name decoded cookies)
      end
  end.

(** [parseCookies(headerValue)] *)
Definition parseCookies (headerValue : string) : Completion (jsmap string) :=
  if isEmpty headerValue then Normal []
  else cookiesFrom (splitOn (fun t => String.eqb t ";") (chars headerValue)) [].

Definition ANALYTICS_COOKIE_NAME : string := "mx_vid".

(** The first part of the cookie that [ensureVisitorId] sets, which is
    what the browser sends back. *)
Definition visitorCookie (visitorId : string) : string :=
  ANALYTICS_COOKIE_NAME +:+ "=" +:+ encodeURIComponent visitorId.

(** [s] is well-formed UTF-8, as the encoding of a JavaScript string
    without lone surrogates is. *)
Fixpoint validUtf8 (s : string) : bool :=
  match s with
  | EmptyString => true
  | String c r =>
      if (code c <? 128)%nat then validUtf8 r
      else
        match continuationCount (code c), r with
        | Some 1%nat, String c2 r2 =>
            isContinuation c2 && validSequence (code c) [code c2] && validUtf8 r2
        | Some 2%nat, String c2 (String c3 r3) =>
            isContinuation c2 && isContinuation c3
            && validSequence (code c) [code c2; code c3] && validUtf8 r3
        | Some 3%nat, String c2 (String c3 (String c4 r4)) =>
            isContinuation c2 && isContinuation c3 && isContinuation c4
            && validSequence (code c) [code c2; code c3; code c4] && validUtf8 r4
        | _, _ => false
        end
  end.

(** A byte of a cookie value that needs no care: printable ASCII that is
    not a space, a semicolon or an equals sign. *)
Definition isCookieByte (c : ascii) : bool :=
  (33 <=? code c)%nat && (code c <=? 126)%nat
  && negb (Ascii.eqb c ";"%char) && negb (Ascii.eqb c "="%char).

(** A character of the class [[0-9a-f-]] under the [i] flag. *)
Definition isVisitorIdChar (t : string) : bool :=
  match t with
  | String c EmptyString =>
      isDigitAscii c
      || (97 <=? code c)%nat && (code c <=? 102)%nat
      || (65 <=? code c)%nat && (code c <=? 70)%nat
      || Ascii.eqb c "-"%char
  | _ => false
  end.

(** [r{n}] *)
Fixpoint times (n : nat) (r : regex) : regex :=
  match n with
  | O => REps
  | S n' => RSeq r (times n' r)
  end.

(** The pattern [/^[0-9a-f-]{36}$/i] of [ensureVisitorId], used with
    [matchAll]. *)
Definition visitorIdRe : regex := times 36 (RChar isVisitorIdChar).

Definition ANALYTICS_COOKIE_MAX_AGE : N := 60 * 60 * 24 * 365.

(** A number in a template literal, for a number kept in binary. *)
Definition showN (n : N) : string := NilEmpty.string_of_uint (N.to_uint n).

(** [value.includes(pat)] *)
Definition includes (pat value : string) : bool :=
  match findSub pat value with Some _ => true | None => false end.

(** What [ensureVisitorId] reads of the request. *)
Record VisitRequest := {
  visit_cookie : option string;          (* req.headers.cookie *)
  visit_secure : bool;                   (* req.secure *)
  visit_forwardedProto : option string;  (* req.headers['x-forwarded-proto'] *)
}.

(** [cookieParts.join('; ')] *)
Definition setCookieValue (visitorId : string) (isSecure : bool) : string :=
  joinWith "; "
    ([visitorCookie visitorId;
      "Max-Age=" +:+ showN ANALYTICS_COOKIE_MAX_AGE;
      "Path=/";
      "SameSite=Lax";
      "HttpOnly"] ++ (if isSecure then ["Secure"] else [])).

(** [ensureVisitorId(req, res)], with the result of [crypto.randomUUID()]
    given: the visitor id, and the [Set-Cookie] header appended to the
    response if there is one. *)
Definition ensureVisitorId (req : VisitRequest) (randomUUID : string)
    : Completion (string * option string) :=
  let! cookies := parseCookies (fieldOr (visit_cookie req) EmptyString) in
  let known := fieldOr (mapGet ANALYTICS_COOKIE_NAME cookies) EmptyString in
  if isEmpty known || negb (matchAll visitorIdRe (chars known)) then
    let forwardedProto := fieldOr (visit_forwardedProto req) EmptyString in
    let isSecure := visit_secure req || includes "https" forwardedProto in
    Normal (randomUUID, Some (setCookieValue randomUUID isSecure))
  else Normal (known, None).

(** A request without cookies. *)
Definition firstVisit : VisitRequest :=
  {| visit_cookie := None; visit_secure := false; visit_forwardedProto := Some "https" |}.

(** A request with the one cookie [header]. *)
Definition visitWith (header : string) : VisitRequest :=
  {| visit_cookie := Some header; visit_secure := false; visit_forwardedProto := None |}.

(* ===================================================================== *)
(** * Theorems *)
(* ===================================================================== *)

(* ===================================================================== *)
(** ** Strings *)
(* ===================================================================== *)

Lemma append_nil_l (s : string) : EmptyString +:+ s = s.
Proof. reflexivity. Qed.

Lemma append_cons (c : ascii) (s t : string) : String c s +:+ t = String c (s +:+ t).
Proof. reflexivity. Qed.

Lemma append_nil_r (s : string) : s +:+ EmptyString = s.
Proof. induction s as [|c s IH]; [reflexivity | now rewrite append_cons, IH]. Qed.

Lemma append_assoc (a b c : string) : (a +:+ b) +:+ c = a +:+ (b +:+ c).
Proof. induction a as [|x a IH]; [reflexivity | now rewrite !append_cons, IH]. Qed.

Lemma isEmpty_true (s : string) : isEmpty s = true <-> s = EmptyString.
Proof. destruct s; simpl; split; congruence. Qed.

Lemma isEmpty_false (s : string) : isEmpty s = false <-> s <> EmptyString.
Proof. destruct s; simpl; split; congruence. Qed.

(* ===================================================================== *)
(** ** Regular expressions: the matcher finds what the pattern denotes *)
(* ===================================================================== *)

Section RegexFacts.

Lemma Matches_nil_nullable r w : Matches r w -> w = [] -> nullable r = true.
Proof.
  induction 1 as [ | p t Hp | a b u v Ha IHa Hb IHb | a b u Ha IHa | a b u Hb IHb
                 | a | a u v Ha IHa Hs IHs ]; intros Hw; simpl; auto.
  - discriminate.
  - apply app_eq_nil in Hw as [-> ->]. now rewrite IHa, IHb.
  - now rewrite IHa.
  - rewrite IHb by assumption. now destruct (nullable a).
Qed.

Lemma nullable_Matches r : nullable r = true <-> Matches r [].
Proof.
  split.
  - induction r as [ | | p | a IHa b IHb | a IHa b IHb | a IHa ]; simpl; intros H.
    + discriminate.
    + constructor.
    + discriminate.
    + apply andb_true_iff in H as [Ha Hb].
      change (@nil string) with (@nil string ++ []). constructor; auto.
    + apply orb_true_iff in H as [Ha | Hb]; [apply MAltL | apply MAltR]; auto.
    + constructor.
  - intros H. now apply (Matches_nil_nullable r []).
Qed.

(** A non-empty word of a starred pattern starts with a non-empty word of
    the pattern. *)
Lemma Matches_star_cons a t w :
  Matches (RStar a) (t :: w) ->
  exists u v, w = u ++ v /\ Matches a (t :: u) /\ Matches (RStar a) v.
Proof.
  intros H. remember (RStar a) as r eqn:Er. remember (t :: w) as x eqn:Ex.
  revert w Ex.
  induction H as [ | | | | | a' | a' u v Ha _ Hs IHs ]; intros w Ex; try discriminate.
  injection Er as ->.
  destruct u as [|t' u'].
  - simpl in Ex. now apply IHs.
  - simpl in Ex. injection Ex as -> <-. exists u', v. auto.
Qed.

Lemma Matches_seq_inv a b w :
  Matches (RSeq a b) w -> exists u v, w = u ++ v /\ Matches a u /\ Matches b v.
Proof. intros H. inversion H; subst. eauto. Qed.

Lemma Matches_alt_inv a b w : Matches (RAlt a b) w -> Matches a w \/ Matches b w.
Proof. intros H. inversion H; subst; auto. Qed.

Lemma Matches_char_inv p w : Matches (RChar p) w -> exists t, w = [t] /\ p t = true.
Proof. intros H. inversion H; subst. eauto. Qed.

Lemma deriv_Matches t r : forall w, Matches (deriv t r) w <-> Matches r (t :: w).
Proof.
  induction r as [ | | p | a IHa b IHb | a IHa b IHb | a IHa ]; intros w; simpl.
  - split; intros H; inversion H.
  - split; intros H; inversion H.
  - destruct (p t) eqn:Hp; split; intros H; inversion H; subst.
    + now constructor.
    + constructor.
    + congruence.
  - assert (Hseq : Matches (RSeq (deriv t a) b) w -> Matches (RSeq a b) (t :: w)).
    { intros H. apply Matches_seq_inv in H as (u & v & -> & Hu & Hv).
      change (t :: u ++ v) with ((t :: u) ++ v). constructor; [now apply IHa | auto]. }
    assert (Hback : Matches (RSeq a b) (t :: w) ->
                    Matches (RSeq (deriv t a) b) w \/
                    (nullable a = true /\ Matches (deriv t b) w)).
    { intros H. apply Matches_seq_inv in H as (u & v & Hw & Hu & Hv).
      destruct u as [|t' u'].
      - simpl in Hw. subst v. right. split; [now apply nullable_Matches | now apply IHb].
      - simpl in Hw. injection Hw as <- ->. left. constructor; [now apply IHa | auto]. }
    destruct (nullable a) eqn:Hn.
    + split.
      * intros H. apply Matches_alt_inv in H as [H | H]; [now apply Hseq |].
        change (t :: w) with ([] ++ t :: w).
        constructor; [now apply nullable_Matches | now apply IHb].
      * intros H. destruct (Hback H) as [H1 | [_ H2]]; [now apply MAltL | now apply MAltR].
    + split; [exact Hseq |].
      intros H. destruct (Hback H) as [H1 | [H2 _]]; [exact H1 | discriminate].
  - split; intros H; apply Matches_alt_inv in H as [H | H].
    + apply MAltL. now apply IHa.
    + apply MAltR. now apply IHb.
    + apply MAltL. now apply IHa.
    + apply MAltR. now apply IHb.
  - split.
    + intros H. apply Matches_seq_inv in H as (u & v & -> & Hu & Hv).
      change (t :: u ++ v) with ((t :: u) ++ v). constructor; [now apply IHa | auto].
    + intros H. apply Matches_star_cons in H as (u & v & -> & Hu & Hv).
      constructor; [now apply IHa | auto].
Qed.

Lemma matchPrefix_spec ts : forall r,
  matchPrefix r ts = true <-> exists u v, ts = u ++ v /\ Matches r u.
Proof.
  induction ts as [|t ts IH]; intros r; simpl.
  - rewrite orb_false_r, nullable_Matches. split.
    + intros H. exists [], []. auto.
    + intros (u & v & Huv & Hm). symmetry in Huv. apply app_eq_nil in Huv as [-> _]. auto.
  - rewrite orb_true_iff, nullable_Matches, IH. split.
    + intros [H | (u & v & -> & Hm)].
      * exists [], (t :: ts). auto.
      * exists (t :: u), v. split; [reflexivity | now apply deriv_Matches].
    + intros (u & v & Huv & Hm). destruct u as [|t' u'].
      * now left.
      * simpl in Huv. injection Huv as <- ->. right.
        exists u', v. split; [reflexivity | now apply deriv_Matches].
Qed.

Lemma search_spec r ts :
  search r ts = true <-> exists pre mid post, ts = pre ++ mid ++ post /\ Matches r mid.
Proof.
  induction ts as [|t ts IH]; simpl.
  - rewrite orb_false_r. change (nullable r || false) with (matchPrefix r []).
    rewrite matchPrefix_spec. split.
    + intros (u & v & Huv & Hm). exists [], u, v. auto.
    + intros (pre & mid & post & Hts & Hm). symmetry in Hts.
      apply app_eq_nil in Hts as [-> Hts]. apply app_eq_nil in Hts as [-> ->].
      exists [], []. auto.
  - change (nullable r || matchPrefix (deriv t r) ts) with (matchPrefix r (t :: ts)).
    rewrite orb_true_iff, matchPrefix_spec, IH. split.
    + intros [(u & v & Huv & Hm) | (pre & mid & post & -> & Hm)].
      * exists [], u, v. auto.
      * exists (t :: pre), mid, post. auto.
    + intros (pre & mid & post & Hts & Hm). destruct pre as [|t' pre'].
      * left. exists mid, post. auto.
      * simpl in Hts. injection Hts as <- ->. right. exists pre', mid, post. auto.
Qed.

(** [re.test(s)] is true exactly when the pattern occurs in [s]. *)
Lemma test_Occurs r s : test r s = true <-> Occurs r s.
Proof. apply search_spec. Qed.

Lemma test_not_Occurs r s : test r s = false <-> ~ Occurs r s.
Proof.
  rewrite <- test_Occurs. destruct (test r s); split; intros H;
    solve [congruence | exfalso; now apply H].
Qed.

End RegexFacts.

(* ===================================================================== *)
(** ** The food categories *)
(* ===================================================================== *)

(** C2: the category of a food company is its trimmed [category] field
    when that is not empty; otherwise the lowercased name and summary are
    searched for a hot-pot keyword, then a noodle keyword, then a barbecue
    keyword, the first that occurs decides, and the category is 中餐 when
    none occurs.  The company Abc Noodles with summary 牛肉面 is a 面馆. *)
Theorem classifyFoodCategory_assignment (company : Company) :
  let existing := trim (fieldOr (category company) EmptyString) in
  let text :=
    toLowerCase (fieldOr (name company) EmptyString +:+ " "
                 +:+ fieldOr (summary company) EmptyString) in
  (existing <> EmptyString -> classifyFoodCategory company = existing) /\
  (existing = EmptyString -> Occurs hotpotRe text ->
   classifyFoodCategory company = "火锅") /\
  (existing = EmptyString -> ~ Occurs hotpotRe text -> Occurs noodleRe text ->
   classifyFoodCategory company = "面馆") /\
  (existing = EmptyString -> ~ Occurs hotpotRe text -> ~ Occurs noodleRe text ->
   Occurs bbqRe text -> classifyFoodCategory company = "烧烤") /\
  (existing = EmptyString -> ~ Occurs hotpotRe text -> ~ Occurs noodleRe text ->
   ~ Occurs bbqRe text -> classifyFoodCategory company = "中餐") /\
  classifyFoodCategory abcNoodles = "面馆".
Proof.
  intros existing text. unfold classifyFoodCategory, existingCategory, foodText.
  fold existing. fold text.
  refine (conj _ (conj _ (conj _ (conj _ (conj _ _))))).
  - intros Hne. apply isEmpty_false in Hne. now rewrite Hne.
  - intros He Hh. apply isEmpty_true in He. apply test_Occurs in Hh.
    now rewrite He, Hh.
  - intros He Hh Hn. apply isEmpty_true in He. apply test_not_Occurs in Hh.
    apply test_Occurs in Hn. now rewrite He, Hh, Hn.
  - intros He Hh Hn Hb. apply isEmpty_true in He. apply test_not_Occurs in Hh.
    apply test_not_Occurs in Hn. apply test_Occurs in Hb. now rewrite He, Hh, Hn, Hb.
  - intros He Hh Hn Hb. apply isEmpty_true in He. apply test_not_Occurs in Hh.
    apply test_not_Occurs in Hn. apply test_not_Occurs in Hb. now rewrite He, Hh, Hn, Hb.
  - vm_compute. reflexivity.
Qed.

(** The two classifiers agree exactly when the category is given, or one
    of the three shared patterns occurs, or neither the drink nor the
    market pattern does. *)
Lemma classifiers_agree_iff (company : Company) :
  classifyFoodCategory company = classifyFoodCategoryForDirectory company <->
  (existingCategory company <> EmptyString
   \/ Occurs hotpotRe (foodText company)
   \/ Occurs noodleRe (foodText company)
   \/ Occurs bbqRe (foodText company)
   \/ (~ Occurs drinkRe (foodText company) /\ ~ Occurs marketRe (foodText company))).
Proof.
  unfold classifyFoodCategory, classifyFoodCategoryForDirectory.
  rewrite <- isEmpty_false, <- !test_not_Occurs, <- !test_Occurs.
  destruct (isEmpty (existingCategory company)); simpl; [| now intuition].
  destruct (test hotpotRe (foodText company)); [now intuition |].
  destruct (test noodleRe (foodText company)); [now intuition |].
  destruct (test bbqRe (foodText company)); [now intuition |].
  destruct (test drinkRe (foodText company)).
  { split; [intros H; vm_compute in H; discriminate | intuition congruence]. }
  destruct (test marketRe (foodText company)).
  { split; [intros H; vm_compute in H; discriminate | intuition congruence]. }
  intuition.
Qed.

(** C9, at the company 奶茶店: the classifier of [buildCompaniesHtml] has
    no drink pattern and answers 中餐, the classifier of the directory
    data answers 饮品. *)
Theorem classifiers_disagree_on_milk_tea :
  classifyFoodCategory milkTeaShop = "中餐" /\
  classifyFoodCategoryForDirectory milkTeaShop = "饮品" /\
  classifyFoodCategory milkTeaShop <> classifyFoodCategoryForDirectory milkTeaShop.
Proof. vm_compute. repeat split. discriminate. Qed.

(* ===================================================================== *)
(** ** [escapeHtml] *)
(* ===================================================================== *)

Section EscapeHtml.

Lemma replaceAll_cons c r d s :
  replaceAll c r (String d s) =
  if Ascii.eqb d c then r +:+ replaceAll c r s else String d (replaceAll c r s).
Proof. reflexivity. Qed.

Lemma replaceAll_app c r a b :
  replaceAll c r (a +:+ b) = replaceAll c r a +:+ replaceAll c r b.
Proof.
  induction a as [|d a IH]; [reflexivity |].
  rewrite append_cons, !replaceAll_cons, IH.
  destruct (Ascii.eqb d c); [now rewrite append_assoc | reflexivity].
Qed.

(** The five passes of the source amount to one pass that rewrites each
    character by itself: a later pass never touches what an earlier one
    wrote. *)
Lemma escapeHtml_single_pass s : escapeHtml (Some s) = escapeAll s.
Proof.
  unfold escapeHtml, stringOf. simpl default.
  induction s as [|c s IH]; [reflexivity |].
  change (escapeAll (String c s)) with (escapeChar c +:+ escapeAll s).
  rewrite <- IH. unfold escapeChar.
  rewrite (replaceAll_cons chAmp).
  destruct (Ascii.eqb c chAmp) eqn:E1.
  { rewrite !replaceAll_app. reflexivity. }
  rewrite (replaceAll_cons chLt).
  destruct (Ascii.eqb c chLt) eqn:E2.
  { rewrite !replaceAll_app. reflexivity. }
  rewrite (replaceAll_cons chGt).
  destruct (Ascii.eqb c chGt) eqn:E3.
  { rewrite !replaceAll_app. reflexivity. }
  rewrite (replaceAll_cons chDq).
  destruct (Ascii.eqb c chDq) eqn:E4.
  { rewrite !replaceAll_app. reflexivity. }
  rewrite (replaceAll_cons chSq).
  destruct (Ascii.eqb c chSq) eqn:E5; reflexivity.
Qed.

Lemma charIn_app c a b : charIn c (a +:+ b) = charIn c a || charIn c b.
Proof.
  induction a as [|d a IH]; [reflexivity |].
  rewrite append_cons. simpl. now rewrite IH, orb_assoc.
Qed.

Lemma charIn_escapeChar x c :
  In x [chLt; chGt; chDq; chSq] -> charIn x (escapeChar c) = false.
Proof.
  intros Hx. unfold escapeChar.
  destruct (Ascii.eqb c chAmp) eqn:E1;
    [ simpl in Hx; decompose [or] Hx; subst; try contradiction; reflexivity |].
  destruct (Ascii.eqb c chLt) eqn:E2;
    [ simpl in Hx; decompose [or] Hx; subst; try contradiction; reflexivity |].
  destruct (Ascii.eqb c chGt) eqn:E3;
    [ simpl in Hx; decompose [or] Hx; subst; try contradiction; reflexivity |].
  destruct (Ascii.eqb c chDq) eqn:E4;
    [ simpl in Hx; decompose [or] Hx; subst; try contradiction; reflexivity |].
  destruct (Ascii.eqb c chSq) eqn:E5;
    [ simpl in Hx; decompose [or] Hx; subst; try contradiction; reflexivity |].
  simpl in Hx. decompose [or] Hx; subst; try contradiction; simpl;
    rewrite ?E2, ?E3, ?E4, ?E5; reflexivity.
Qed.

Lemma charIn_escapeAll x s :
  In x [chLt; chGt; chDq; chSq] -> charIn x (escapeAll s) = false.
Proof.
  intros Hx. induction s as [|c s IH]; [reflexivity |].
  simpl. now rewrite charIn_app, charIn_escapeChar, IH.
Qed.

Lemma ampsOk_entity_app e rest :
  In e htmlEntities -> ampsOk rest = true -> ampsOk (e +:+ rest) = true.
Proof.
  intros He Hr. simpl in He. decompose [or] He; subst; try contradiction;
    vm_compute; exact Hr.
Qed.

Lemma escapeChar_cases c :
  In (escapeChar c) htmlEntities \/
  (escapeChar c = String c EmptyString /\ Ascii.eqb c chAmp = false).
Proof.
  unfold escapeChar, htmlEntities.
  destruct (Ascii.eqb c chAmp); [simpl; auto |].
  destruct (Ascii.eqb c chLt); [simpl; auto |].
  destruct (Ascii.eqb c chGt); [simpl; auto |].
  destruct (Ascii.eqb c chDq); [simpl; auto 6 |].
  destruct (Ascii.eqb c chSq); [simpl; auto 7 |].
  auto.
Qed.

Lemma ampsOk_escapeAll s : ampsOk (escapeAll s) = true.
Proof.
  induction s as [|c s IH]; [reflexivity |].
  simpl escapeAll. destruct (escapeChar_cases c) as [He | [-> Hc]].
  - now apply ampsOk_entity_app.
  - rewrite append_cons, append_nil_l. simpl. now rewrite Hc, IH.
Qed.

Lemma stripPrefix_split e : forall s rest, stripPrefix e s = Some rest -> s = e +:+ rest.
Proof.
  induction e as [|c e IH]; intros s rest H.
  - simpl in H. now injection H as ->.
  - destruct s as [|d s]; simpl in H; [discriminate |].
    destruct (Ascii.eqb c d) eqn:E; [| discriminate].
    apply Ascii.eqb_eq in E as ->. now rewrite (IH s rest H).
Qed.

Lemma startsWith_split e s : startsWith e s = true -> exists rest, s = e +:+ rest.
Proof.
  unfold startsWith. destruct (stripPrefix e s) as [rest|] eqn:E; [| discriminate].
  intros _. exists rest. now apply stripPrefix_split.
Qed.

Lemma ampsOk_cons c s :
  ampsOk (String c s) =
  (negb (Ascii.eqb c chAmp) || existsb (fun e => startsWith e (String c s)) htmlEntities)
  && ampsOk s.
Proof. reflexivity. Qed.

Lemma ampsOk_spec : forall pre s post,
  ampsOk s = true -> s = pre +:+ "&" +:+ post ->
  exists entity rest, In entity htmlEntities /\ "&" +:+ post = entity +:+ rest.
Proof.
  induction pre as [|c pre IH]; intros s post Hok Hs.
  - rewrite append_nil_l in Hs. subst s.
    change ("&" +:+ post) with (String "&" post) in *.
    rewrite ampsOk_cons in Hok. apply andb_true_iff in Hok as [Hok _].
    change (negb (Ascii.eqb "&" chAmp)) with false in Hok. rewrite orb_false_l in Hok.
    apply existsb_exists in Hok as (e & He & Hp).
    apply startsWith_split in Hp as [rest Hrest]. eauto.
  - rewrite append_cons in Hs. subst s. rewrite ampsOk_cons in Hok.
    apply andb_true_iff in Hok as [_ Hok]. now apply (IH _ post Hok).
Qed.

End EscapeHtml.

(** C10: the output of [escapeHtml] contains none of the characters that
    open or close a tag or an attribute value, every ampersand in it
    starts one of the five entities, and the name, the summary and the
    contact of a company card are written through [escapeHtml]. *)
Theorem escapeHtml_output_safe (value : option string) :
  let out := escapeHtml value in
  charIn chLt out = false /\ charIn chGt out = false /\
  charIn chDq out = false /\ charIn chSq out = false /\
  (forall pre post, out = pre +:+ "&" +:+ post ->
     exists entity rest, In entity htmlEntities /\ "&" +:+ post = entity +:+ rest) /\
  (forall env company,
     renderCompanyCard env company =
       cardOpening env company
       +:+ "<h4>" +:+ escapeHtml (name company) +:+ "</h4>"
       +:+ "<p" +:+ attr "class" "company-desc" +:+ ">"
       +:+ escapeHtml (summary company) +:+ "</p>"
       +:+ "<div" +:+ attr "class" "company-distance" +:+ " data-distance hidden></div>"
       +:+ (if hasContact company then
              "<div" +:+ attr "class" "company-contact" +:+ "><span>微信/WhatsApp："
              +:+ escapeHtml (Some (contactValue company)) +:+ "</span></div>"
            else EmptyString)
       +:+ "</a>").
Proof.
  intros out.
  assert (Hout : out = escapeAll (stringOf value)).
  { unfold out. rewrite <- escapeHtml_single_pass. now destruct value. }
  rewrite Hout.
  refine (conj _ (conj _ (conj _ (conj _ (conj _ _))))).
  - apply charIn_escapeAll. simpl. auto.
  - apply charIn_escapeAll. simpl. auto.
  - apply charIn_escapeAll. simpl. auto.
  - apply charIn_escapeAll. simpl. auto.
  - intros pre post. apply ampsOk_spec, ampsOk_escapeAll.
  - reflexivity.
Qed.

(* ===================================================================== *)
(** ** The memory tier *)
(* ===================================================================== *)

Section MemoryTier.

Context {V : Type}.
Implicit Types (cache : gmap string (CacheEntry V)) (key : string) (now : Z).

Lemma getCachedValue_missing cache key now :
  cache !! key = None -> getCachedValue cache key now = (None, cache).
Proof. intros H. unfold getCachedValue. now rewrite H. Qed.

Lemma getCachedValue_fresh cache key now entry :
  cache !! key = Some entry -> (now < expiresAt entry)%Z ->
  getCachedValue cache key now = (Some (value entry), cache).
Proof.
  intros H Hlt. unfold getCachedValue. rewrite H.
  apply Z.ltb_lt in Hlt. now rewrite Hlt.
Qed.

Lemma getCachedValue_expired cache key now entry :
  cache !! key = Some entry -> (expiresAt entry <= now)%Z ->
  getCachedValue cache key now = (None, delete key cache).
Proof.
  intros H Hle. unfold getCachedValue. rewrite H.
  apply Z.ltb_ge in Hle. now rewrite Hle.
Qed.

Lemma getCachedValue_Some cache key now v :
  fst (getCachedValue cache key now) = Some v <->
  exists entry, cache !! key = Some entry /\ value entry = v /\ (now < expiresAt entry)%Z.
Proof.
  unfold getCachedValue. destruct (cache !! key) as [entry|] eqn:E.
  - destruct (now <? expiresAt entry)%Z eqn:Hlt; simpl.
    + apply Z.ltb_lt in Hlt. split.
      * intros [= <-]. eauto.
      * intros (e & [= <-] & <- & _). reflexivity.
    + apply Z.ltb_ge in Hlt. split; [discriminate |].
      intros (e & [= <-] & _ & Hlt'). lia.
  - simpl. split; [discriminate |]. intros (e & He & _). discriminate.
Qed.

End MemoryTier.

(** C5: [setCachedValue] stores the value with an expiry seven days after
    the time of the store; [getCachedValue] returns the stored value
    exactly when the expiry is after the current time; an expired entry is
    answered by [null] and deleted from the map, so that the next read
    finds nothing. *)
Theorem memory_cache_ttl {V : Type} (cache : gmap string (CacheEntry V))
    (key : string) (v : V) (stored now : Z) :
  setCachedValue cache key v stored !! key
    = Some {| value := v; expiresAt := (stored + 7 * 24 * 60 * 60 * 1000)%Z |} /\
  (fst (getCachedValue (setCachedValue cache key v stored) key now) = Some v
     <-> (now < stored + 7 * 24 * 60 * 60 * 1000)%Z) /\
  (forall entry, cache !! key = Some entry ->
     ((now < expiresAt entry)%Z ->
        getCachedValue cache key now = (Some (value entry), cache)) /\
     ((expiresAt entry <= now)%Z ->
        getCachedValue cache key now = (None, delete key cache) /\
        delete key cache !! key = None /\
        forall next, getCachedValue (delete key cache) key next = (None, delete key cache))).
Proof.
  refine (conj _ (conj _ _)).
  - unfold setCachedValue. now rewrite lookup_insert_eq.
  - rewrite getCachedValue_Some. unfold setCachedValue. split.
    + intros (entry & He & _ & Hlt). rewrite lookup_insert_eq in He.
      injection He as <-. exact Hlt.
    + intros Hlt. eexists. rewrite lookup_insert_eq. split; [reflexivity |]. now split.
  - intros entry He. split.
    + now apply getCachedValue_fresh.
    + intros Hle. split; [now apply (getCachedValue_expired _ _ _ entry) |].
      split; [apply lookup_delete_eq |].
      intros next. apply getCachedValue_missing, lookup_delete_eq.
Qed.

(* ===================================================================== *)
(** ** The submission API *)
(* ===================================================================== *)

Section SubmissionFacts.

Import Submissions.


Lemma orElse_nonempty (a b : string) : a <> EmptyString -> orElse a b = a.
Proof. intros H. unfold orElse. apply isEmpty_false in H. now rewrite H. Qed.



Lemma Forall_insertBy {A} (P : A -> Prop) cmp x l :
  P x -> Forall P l -> Forall P (insertBy cmp x l).
Proof.
  intros Hx Hl. induction Hl as [|y r Hy Hr IH]; simpl; [now repeat constructor |].
  destruct (isPositive (cmp x y)); repeat constructor; auto.
Qed.

Lemma insertBy_newestFirst x l : NewestFirst l -> NewestFirst (insertBy newestFirst x l).
Proof.
  unfold NewestFirst. induction 1 as [|y r Hs IH Hy]; simpl; [repeat constructor |].
  destruct (0 <? created_at y - created_at x)%Z eqn:E.
  - apply Z.ltb_lt in E. constructor; [exact IH |].
    apply Forall_insertBy; [lia | exact Hy].
  - apply Z.ltb_ge in E. constructor; [now constructor |].
    constructor; [lia |]. eapply Forall_impl; [exact Hy |]. simpl. intros; lia.
Qed.

Lemma sortBy_newestFirst l : NewestFirst (sortBy newestFirst l).
Proof.
  induction l as [|x l IH]; simpl; [constructor | now apply insertBy_newestFirst].
Qed.

Lemma NewestFirst_take n l : NewestFirst l -> NewestFirst (take n l).
Proof.
  unfold NewestFirst. intros H. revert n.
  induction H as [|y r Hs IH Hy]; intros [|n]; simpl; try constructor; auto.
  apply Forall_take. exact Hy.
Qed.

(** Whatever the parameter, the rows come newest first. *)
Lemma selectSubmissions_newestFirst limit db : NewestFirst (selectSubmissions limit db).
Proof.
  unfold selectSubmissions, sqlLimit. destruct (limit <? 0)%Z.
  - apply sortBy_newestFirst.
  - apply NewestFirst_take, sortBy_newestFirst.
Qed.

(** A limit that is not negative is respected, and it is at most 500. *)
Lemma selectSubmissions_capped limit db :
  (0 <= queryLimit limit)%Z ->
  (List.length (selectSubmissions (queryLimit limit) db) <= 500)%nat.
Proof.
  intros H0. unfold selectSubmissions, sqlLimit.
  apply Z.ltb_ge in H0. rewrite H0. rewrite length_take.
  assert (queryLimit limit <= 500)%Z by (unfold queryLimit; lia). lia.
Qed.

End SubmissionFacts.



(** C8, at the request [GET /api/submissions?limit=-1] on a table of 501
    rows: the limit handed to SQLite is -1, which bounds nothing, and all
    501 rows come back, newest first. *)
Theorem submissions_negative_limit_returns_all :
  Submissions.queryLimit (Some "-1") = (-1)%Z /\
  match Submissions.payload (Submissions.listSubmissions (Some "-1") (sampleTable 501)) with
  | Submissions.OkData data => List.length data = 501%nat /\ NewestFirst data
  | _ => False
  end.
Proof.
  split; [vm_compute; reflexivity |].
  simpl Submissions.payload. split.
  - vm_compute. reflexivity.
  - apply selectSubmissions_newestFirst.
Qed.

(* ===================================================================== *)
(** ** The places cache *)
(* ===================================================================== *)

Section PlacesFacts.

Variable mapFields : Json -> string -> Completion Json.
Variable cfg : Config.
















(** With the provider disabled, [fetchPlaceDetails] answers [null]
    without looking at either tier. *)
Lemma fetchPlaceDetails_disabled live now later placeId query st :
  isPlacesApiEnabled cfg = false ->
  fetchPlaceDetails mapFields cfg live now later placeId query st = (Normal None, st).
Proof. intros H. unfold fetchPlaceDetails. now rewrite H. Qed.

(** With the provider disabled, [getCompanyPlaceData] answers from the
    disk tier. *)
Lemma getCompanyPlaceData_disabled liveId live t1 t2 t3 t4 company st entry :
  isPlacesApiEnabled cfg = false ->
  companyPlaceId company <> EmptyString ->
  diskEntry (diskTier st) (companyPlaceId company) = Some entry ->
  getCompanyPlaceData mapFields cfg liveId live t1 t2 t3 t4 company st
    = (Normal (Some entry), snd (loadPlaceDetailsDiskCache st)).
Proof.
  intros Hen Hid Hdisk. unfold getCompanyPlaceData, diskTier in *.
  destruct (loadPlaceDetailsDiskCache st) as [diskCache st1]. simpl in *.
  apply isEmpty_false in Hid. rewrite Hid, Hen, Hdisk. reflexivity.
Qed.

End PlacesFacts.

(** C3, as stated, fails: with the provider disabled, [fetchPlaceDetails]
    returns [null] for a place id that the disk tier holds. *)
Lemma fetchPlaceDetails_disabled_ignores_disk :
  isPlacesApiEnabled disabledConfig = false /\
  diskEntry (diskTier casaState) "p1" = Some casaPlace /\
  fst (fetchPlaceDetails sameFields disabledConfig NetworkError 0 0 "p1" EmptyString casaState)
    = Normal None.
Proof. vm_compute. repeat split. Qed.

(** C3, amended: with the provider disabled, [getCompanyPlaceData] returns
    the entry that the disk tier holds for the place id of the company,
    unchanged, and leaves both tiers as they are; [fetchPlaceDetails]
    itself returns [null]. *)
Theorem disabled_provider_serves_disk_entry
    (mapFields : Json -> string -> Completion Json) (cfg : Config)
    (liveId live : FetchOutcome) (t1 t2 t3 t4 : Z) (company : Company)
    (st : PlacesState) (entry : Json) :
  isPlacesApiEnabled cfg = false ->
  companyPlaceId company <> EmptyString ->
  diskEntry (diskTier st) (companyPlaceId company) = Some entry ->
  let result := getCompanyPlaceData mapFields cfg liveId live t1 t2 t3 t4 company st in
  fst result = Normal (Some entry) /\
  diskTier (snd result) = diskTier st /\
  placesCache (snd result) = placesCache st /\
  diskFile (snd result) = diskFile st /\
  forall query,
    fetchPlaceDetails mapFields cfg live t3 t4 (companyPlaceId company) query st
      = (Normal None, st).
Proof.
  intros Hen Hid Hdisk result. unfold result.
  rewrite (getCompanyPlaceData_disabled mapFields cfg liveId live t1 t2 t3 t4 company st entry)
    by assumption.
  simpl. refine (conj eq_refl (conj _ (conj _ (conj _ _)))).
  - unfold diskTier, loadPlaceDetailsDiskCache.
    destruct (placeDetailsDiskCache st) eqn:E; simpl; now rewrite ?E.
  - unfold loadPlaceDetailsDiskCache. now destruct (placeDetailsDiskCache st).
  - unfold loadPlaceDetailsDiskCache. now destruct (placeDetailsDiskCache st).
  - intros query. now apply fetchPlaceDetails_disabled.
Qed.

(** The amended C3 at the company Casa Lanzhou, whose place [p1] is in the
    disk tier, with the provider switched off. *)
Lemma disabled_provider_serves_disk_entry_witness :
  fst (getCompanyPlaceData sameFields disabledConfig NetworkError NetworkError 0 0 0 0
         casaCompany casaState)
    = Normal (Some casaPlace).
Proof.
  apply (disabled_provider_serves_disk_entry sameFields disabledConfig NetworkError
           NetworkError 0 0 0 0 casaCompany casaState casaPlace).
  - reflexivity.
  - vm_compute. discriminate.
  - reflexivity.
Defined.


(* ===================================================================== *)
(** ** JavaScript maps *)
(* ===================================================================== *)

Section JsMapFacts.

Context {V : Type}.
Implicit Types (m : jsmap V) (k : string).

Lemma mapHas_In k m : mapHas k m = true <-> In k (mapKeys m).
Proof.
  unfold mapHas. induction m as [|[k' v] m IH]; simpl.
  - split; [discriminate | contradiction].
  - destruct (String.eqb k k') eqn:E.
    + apply String.eqb_eq in E. split; auto.
    + apply String.eqb_neq in E. rewrite IH. split; [auto |].
      intros [H | H]; [congruence | exact H].
Qed.

Lemma mapHas_false k m : mapHas k m = false <-> ~ In k (mapKeys m).
Proof.
  rewrite <- mapHas_In. destruct (mapHas k m); split; intros H;
    solve [congruence | exfalso; now apply H].
Qed.

Lemma mapGet_None k m : mapHas k m = false -> mapGet k m = None.
Proof. unfold mapHas. now destruct (mapGet k m). Qed.

Lemma mapSet_new k v m : mapHas k m = false -> mapSet k v m = m ++ [(k, v)].
Proof.
  unfold mapHas. induction m as [|[k' v'] m IH]; simpl; [reflexivity |].
  destruct (String.eqb k k'); [discriminate |]. intros H. now rewrite IH.
Qed.

Lemma mapGet_app_new k k' v m :
  mapGet k (m ++ [(k', v)]) =
  match mapGet k m with
  | Some x => Some x
  | None => if String.eqb k k' then Some v else None
  end.
Proof.
  induction m as [|[k0 v0] m IH]; simpl; [reflexivity |].
  destruct (String.eqb k k0); [reflexivity | exact IH].
Qed.

Lemma mapKeys_mapAdjust f k m : mapKeys (mapAdjust f k m) = mapKeys m.
Proof.
  unfold mapKeys. induction m as [|[k' v'] m IH]; simpl; [reflexivity |].
  destruct (String.eqb k k'); simpl; [reflexivity | now rewrite IH].
Qed.

Lemma mapGet_mapAdjust f k k0 m :
  mapGet k0 (mapAdjust f k m) =
  if String.eqb k0 k then option_map f (mapGet k0 m) else mapGet k0 m.
Proof.
  induction m as [|[k' v'] m IH]; simpl; [now destruct (String.eqb k0 k) |].
  destruct (String.eqb k k') eqn:E; simpl.
  - apply String.eqb_eq in E as ->. now destruct (String.eqb k0 k').
  - rewrite IH. destruct (String.eqb k0 k') eqn:E'; [| reflexivity].
    apply String.eqb_eq in E' as ->. rewrite String.eqb_sym, E. reflexivity.
Qed.

End JsMapFacts.

(* ===================================================================== *)
(** ** Cities in first-seen order *)
(* ===================================================================== *)

Section FirstSeen.

Lemma memb_In x l : memb x l = true <-> In x l.
Proof.
  unfold memb. rewrite existsb_exists. split.
  - intros (y & Hy & E). apply String.eqb_eq in E. now subst.
  - intros H. exists x. split; [exact H | apply String.eqb_refl].
Qed.

Lemma memb_false x l : memb x l = false <-> ~ In x l.
Proof.
  rewrite <- memb_In. destruct (memb x l); split; intros H;
    solve [congruence | exfalso; now apply H].
Qed.

Lemma In_firstSeen x l : In x (firstSeen l) <-> In x l.
Proof.
  induction l as [|y l IH]; simpl; [tauto |].
  rewrite filter_In, IH. destruct (String.eqb x y) eqn:E.
  - apply String.eqb_eq in E. subst. tauto.
  - apply String.eqb_neq in E. simpl. split; [tauto |].
    intros [H | H]; [congruence | auto].
Qed.

Lemma NoDup_firstSeen l : NoDup (firstSeen l).
Proof.
  induction l as [|y l IH]; simpl; constructor.
  - rewrite list_elem_of_In, filter_In, String.eqb_refl. simpl. intros [_ H]. discriminate.
  - apply NoDup_ListNoDup, List.NoDup_filter, NoDup_ListNoDup, IH.
Qed.

Lemma firstSeen_snoc l x :
  firstSeen (l ++ [x]) =
  if memb x (firstSeen l) then firstSeen l else firstSeen l ++ [x].
Proof.
  induction l as [|y l IH]; simpl; [reflexivity |].
  rewrite IH. destruct (String.eqb x y) eqn:E; simpl.
  - apply String.eqb_eq in E. subst y.
    destruct (memb x (firstSeen l)); [reflexivity |].
    rewrite List.filter_app. simpl. rewrite String.eqb_refl. simpl.
    now rewrite app_nil_r.
  - assert (Hm : memb x (List.filter (fun z => negb (String.eqb z y)) (firstSeen l))
                 = memb x (firstSeen l)).
    { destruct (memb x (firstSeen l)) eqn:M.
      - apply memb_In. apply filter_In. split; [now apply memb_In |]. now rewrite E.
      - apply memb_false. rewrite filter_In. intros [H _]. apply memb_false in M. auto. }
    rewrite Hm. destruct (memb x (firstSeen l)); [reflexivity |].
    rewrite List.filter_app. simpl. now rewrite E.
Qed.

Lemma position_In c l : In c l -> exists i, position c l = Some i.
Proof.
  induction l as [|y l IH]; simpl; [contradiction |].
  destruct (String.eqb c y) eqn:E; [eauto |].
  apply String.eqb_neq in E. intros [H | H]; [congruence |].
  destruct (IH H) as [i ->]. simpl. eauto.
Qed.

Lemma position_app_notin c pre l :
  ~ In c pre -> position c (pre ++ l) = option_map (fun i => List.length pre + i) (position c l).
Proof.
  induction pre as [|y pre IH]; simpl; intros H.
  - now destruct (position c l).
  - destruct (String.eqb c y) eqn:E.
    + apply String.eqb_eq in E. subst. exfalso. auto.
    + rewrite IH by auto. now destruct (position c l).
Qed.

(** The index map of the loop sends each city to its position. *)
Lemma mapGet_index c l k :
  mapGet c (imap (fun i c' => (c', k + i)) l) = option_map (fun i => k + i) (position c l).
Proof.
  revert k. induction l as [|y l IH]; intros k; simpl; [reflexivity |].
  destruct (String.eqb c y); [simpl; f_equal; lia |].
  rewrite (imap_ext _ (fun i c' => (c', S k + i))).
  - rewrite IH. destruct (position c l); simpl; [f_equal; lia | reflexivity].
  - intros i z _. simpl. f_equal. lia.
Qed.

End FirstSeen.

(* ===================================================================== *)
(** ** The grouping loop *)
(* ===================================================================== *)

Section GroupingLoop.

Lemma mapKeys_indexMap_from l k : mapKeys (imap (fun i c => (c, k + i)) l) = l.
Proof.
  revert k. induction l as [|y l IH]; intros k; simpl; [reflexivity |].
  f_equal. rewrite <- (IH (S k)) at 2. unfold mapKeys. f_equal.
  apply imap_ext. intros i z _. simpl. f_equal. lia.
Qed.

Lemma mapKeys_indexMap l : mapKeys (indexMap l) = l.
Proof. apply (mapKeys_indexMap_from l 0). Qed.

Lemma indexMap_snoc l c : indexMap (l ++ [c]) = indexMap l ++ [(c, List.length l)].
Proof.
  unfold indexMap. rewrite imap_app. simpl. do 3 f_equal. lia.
Qed.

Lemma countOf_snoc c cs x :
  countOf c (cs ++ [x]) = (countOf c cs + if String.eqb (cityOf x) c then 1 else 0)%nat.
Proof.
  unfold countOf. rewrite List.filter_app, length_app. simpl.
  now destruct (String.eqb (cityOf x) c).
Qed.

Lemma GroupInv_empty : GroupInv [] emptyGrouping.
Proof. constructor; reflexivity. Qed.

Lemma GroupInv_step cs g x : GroupInv cs g -> GroupInv (cs ++ [x]) (addCompany g x).
Proof.
  intros [Hk Hi Ho Hc]. unfold addCompany.
  remember (cityOf x) as c eqn:Ec.
  destruct (mapHas c (cityMap g)) eqn:Hhas; simpl.
  - (* the city has been seen *)
    assert (Hin : In c (cityOrder g)) by (rewrite <- Hk; now apply mapHas_In).
    constructor; simpl.
    + now rewrite mapKeys_mapAdjust.
    + exact Hi.
    + rewrite map_app. simpl. rewrite <- Ec, firstSeen_snoc, <- Ho.
      apply memb_In in Hin. now rewrite Hin.
    + intros c0. rewrite countOf_snoc, <- Hc, <- Ec.
      unfold cityEntryOf. simpl cityMap. rewrite mapGet_mapAdjust, (String.eqb_sym c c0).
      destruct (String.eqb c0 c) eqn:E; [| now rewrite Nat.add_0_r].
      apply String.eqb_eq in E as ->. unfold mapHas in Hhas.
      destruct (mapGet c (cityMap g)); [reflexivity | discriminate].
  - (* a new city *)
    assert (Hnin : ~ In c (cityOrder g)) by (rewrite <- Hk; now apply mapHas_false).
    assert (Hnone : mapGet c (cityMap g) = None) by now apply mapGet_None.
    constructor; simpl.
    + rewrite mapKeys_mapAdjust, mapSet_new by exact Hhas.
      unfold mapKeys in *. now rewrite map_app, Hk.
    + rewrite Hi, mapSet_new.
      * now rewrite indexMap_snoc.
      * apply mapHas_false. now rewrite mapKeys_indexMap.
    + rewrite map_app. simpl. rewrite <- Ec, firstSeen_snoc, <- Ho.
      apply memb_false in Hnin. now rewrite Hnin.
    + intros c0. rewrite countOf_snoc, <- Hc, <- Ec.
      unfold cityEntryOf. simpl cityMap. rewrite mapGet_mapAdjust, (String.eqb_sym c c0).
      rewrite mapSet_new by exact Hhas. rewrite mapGet_app_new.
      destruct (String.eqb c0 c) eqn:E.
      * apply String.eqb_eq in E as ->. now rewrite Hnone.
      * rewrite Nat.add_0_r. now destruct (mapGet c0 (cityMap g)).
Qed.

Lemma groupCompanies_inv cs : GroupInv cs (groupCompanies cs).
Proof.
  unfold groupCompanies. induction cs as [|x cs IH] using rev_ind.
  - apply GroupInv_empty.
  - rewrite fold_left_app. simpl. now apply GroupInv_step.
Qed.

(** Every city that is rendered has its entry in [cityMap]. *)
Lemma cityEntry_found cs c :
  In c (cityOrder (groupCompanies cs)) ->
  exists entry, mapGet c (cityMap (groupCompanies cs)) = Some entry.
Proof.
  destruct (groupCompanies_inv cs) as [Hk _ _ _]. rewrite <- Hk. intros H.
  apply mapHas_In in H. unfold mapHas in H.
  destruct (mapGet c (cityMap (groupCompanies cs))); [eauto | discriminate].
Qed.

End GroupingLoop.

(* ===================================================================== *)
(** ** The order of the cities *)
(* ===================================================================== *)

Section CityOrder.

Lemma insertBy_front {A} (cmp : A -> A -> jsnum) x l :
  Forall (fun y => isPositive (cmp x y) = false) l -> insertBy cmp x l = x :: l.
Proof. intros H. destruct H as [|y r Hy _]; simpl; [reflexivity | now rewrite Hy]. Qed.

Lemma insertBy_skip {A} (cmp : A -> A -> jsnum) x l1 l2 :
  Forall (fun y => isPositive (cmp x y) = true) l1 ->
  insertBy cmp x (l1 ++ l2) = l1 ++ insertBy cmp x l2.
Proof.
  induction 1 as [|y r Hy _ IH]; simpl; [reflexivity | now rewrite Hy, IH].
Qed.

Lemma filter_none {A} (p : A -> bool) l :
  (forall y, In y l -> p y = false) -> List.filter p l = [].
Proof.
  induction l as [|y l IH]; simpl; intros H; [reflexivity |].
  rewrite (H y) by auto. apply IH. auto.
Qed.

Lemma Forall_filter {A} (p : A -> bool) (P : A -> Prop) l :
  (forall y, In y l -> p y = true -> P y) -> Forall P (List.filter p l).
Proof.
  intros H. apply Forall_forall. intros y Hy. apply list_elem_of_In in Hy.
  apply filter_In in Hy as [Hin Hp]. auto.
Qed.

Lemma priorityOf_cases c :
  priorityOf priorityCities c =
  if isMexicoCity c then Num 0 else if isMonterrey c then Num 1 else PosInf.
Proof.
  unfold priorityOf, priorityCities, isMexicoCity, isMonterrey. simpl.
  destruct (String.eqb c "墨西哥城"); [reflexivity |].
  destruct (String.eqb c "蒙特雷"); reflexivity.
Qed.

Lemma not_both c : isMexicoCity c = true -> isMonterrey c = false.
Proof.
  unfold isMexicoCity, isMonterrey. intros H. apply String.eqb_eq in H. now subst.
Qed.

Variable idx : jsmap nat.

Local Abbreviation cmp := (byPriority priorityCities idx).

(** How the comparator decides, by the classes of its arguments. *)
Lemma cmp_cases a b :
  cmp a b =
  match isMexicoCity a, isMonterrey a, isMexicoCity b, isMonterrey b with
  | true, _, true, _ => jsSub (indexOf idx a) (indexOf idx b)
  | true, _, false, true => Num (-1)
  | true, _, false, false => NegInf
  | false, true, true, _ => Num 1
  | false, true, false, true => jsSub (indexOf idx a) (indexOf idx b)
  | false, true, false, false => NegInf
  | false, false, true, _ => PosInf
  | false, false, false, true => PosInf
  | false, false, false, false => jsSub (indexOf idx a) (indexOf idx b)
  end.
Proof.
  unfold byPriority. rewrite !priorityOf_cases.
  destruct (isMexicoCity a), (isMonterrey a), (isMexicoCity b), (isMonterrey b);
    reflexivity.
Qed.

Lemma sortBy_pinnedFirst l : NoDup l -> Rising idx l -> sortBy cmp l = pinnedFirst l.
Proof.
  intros Hnd Hr. induction l as [|x r IH]; [reflexivity |].
  apply NoDup_cons in Hnd as [Hx Hnd]. rewrite list_elem_of_In in Hx.
  apply StronglySorted_inv in Hr as [Hr Hlt].
  simpl sortBy. fold (sortBy cmp r). rewrite (IH Hnd Hr).
  assert (Hxy : forall y, In y r -> y <> x) by (intros y Hy ->; auto).
  assert (Hlow : forall y, In y r ->
            isPositive (jsSub (indexOf idx x) (indexOf idx y)) = false).
  { intros y Hy. rewrite Forall_forall in Hlt.
    destruct (Hlt y) as (i & j & Hi & Hj & Hij); [now apply list_elem_of_In |].
    unfold indexOf. rewrite Hi, Hj. simpl. apply Z.ltb_ge. lia. }
  unfold pinnedFirst. simpl List.filter.
  destruct (isMexicoCity x) eqn:Emx.
  - (* x is 墨西哥城 *)
    rewrite (not_both x Emx). simpl.
    rewrite (filter_none isMexicoCity r).
    2:{ intros y Hy. destruct (isMexicoCity y) eqn:Ey; [| reflexivity].
        exfalso. apply (Hxy y Hy). unfold isMexicoCity in *.
        apply String.eqb_eq in Emx, Ey. congruence. }
    simpl. apply insertBy_front. apply Forall_app. split.
    + apply Forall_filter. intros y Hy Ey. rewrite cmp_cases, Emx, Ey.
      destruct (isMexicoCity y) eqn:Ey'; [| reflexivity].
      apply not_both in Ey'. congruence.
    + apply Forall_filter. intros y Hy Ey. rewrite cmp_cases, Emx.
      apply andb_true_iff in Ey as [E1 E2].
      apply negb_true_iff in E1, E2. now rewrite E1, E2.
  - destruct (isMonterrey x) eqn:Emt; simpl.
    + (* x is 蒙特雷 *)
      rewrite (filter_none isMonterrey r).
      2:{ intros y Hy. destruct (isMonterrey y) eqn:Ey; [| reflexivity].
          exfalso. apply (Hxy y Hy). unfold isMonterrey in *.
          apply String.eqb_eq in Emt, Ey. congruence. }
      simpl. rewrite insertBy_skip.
      * f_equal. apply insertBy_front. apply Forall_filter. intros y Hy Ey.
        rewrite cmp_cases, Emx, Emt.
        apply andb_true_iff in Ey as [E1 E2].
        apply negb_true_iff in E1, E2. now rewrite E1, E2.
      * apply Forall_filter. intros y Hy Ey. now rewrite cmp_cases, Emx, Emt, Ey.
    + (* x is another city *)
      rewrite insertBy_skip.
      2:{ apply Forall_filter. intros y Hy Ey. now rewrite cmp_cases, Emx, Emt, Ey. }
      f_equal. rewrite insertBy_skip.
      2:{ apply Forall_filter. intros y Hy Ey. rewrite cmp_cases, Emx, Emt, Ey.
          now destruct (isMexicoCity y). }
      f_equal. apply insertBy_front. apply Forall_filter. intros y Hy Ey.
      rewrite cmp_cases, Emx, Emt.
      apply andb_true_iff in Ey as [E1 E2].
      apply negb_true_iff in E1, E2. rewrite E1, E2. now apply Hlow.
Qed.

End CityOrder.

Section IndexRises.

Lemma mapGet_indexMap c l : mapGet c (indexMap l) = position c l.
Proof.
  unfold indexMap.
  change (imap (fun i c' => (c', i)) l) with (imap (fun i c' => (c', (0 + i)%nat)) l).
  rewrite (mapGet_index c l 0). now destruct (position c l).
Qed.

Lemma Rising_indexMap_suffix l : forall pre,
  NoDup (pre ++ l) -> Rising (indexMap (pre ++ l)) l.
Proof.
  unfold Rising. induction l as [|x r IH]; intros pre Hnd; [constructor |].
  assert (Hnd' := Hnd).
  apply NoDup_app in Hnd' as (Hpre & Hdisj & Hxr).
  apply NoDup_cons in Hxr as [Hx Hr].
  assert (Hxpre : ~ In x pre).
  { intros H. apply list_elem_of_In in H. apply (Hdisj x H). left. }
  constructor.
  - replace (pre ++ x :: r) with ((pre ++ [x]) ++ r) by now rewrite <- app_assoc.
    apply IH. now rewrite <- app_assoc.
  - apply Forall_forall. intros y Hy.
    assert (Hypre : ~ In y pre).
    { intros H. apply list_elem_of_In in H. apply (Hdisj y H). now right. }
    assert (Hyx : y <> x) by (intros ->; auto).
    destruct (position_In y r) as [j Hj]; [now apply list_elem_of_In |].
    exists (List.length pre + 0)%nat, (List.length pre + S j)%nat.
    rewrite !mapGet_indexMap, !position_app_notin by assumption. simpl.
    rewrite String.eqb_refl. apply String.eqb_neq in Hyx. rewrite Hyx, Hj. simpl.
    repeat split. lia.
Qed.

Lemma Rising_indexMap l : NoDup l -> Rising (indexMap l) l.
Proof. apply (Rising_indexMap_suffix l []). Qed.

End IndexRises.

(* ===================================================================== *)
(** ** Any sort gives the same order *)
(* ===================================================================== *)

Section AnySort.





Lemma Permutation_insertBy {A} (cmp : A -> A -> jsnum) x l :
  Permutation (insertBy cmp x l) (x :: l).
Proof.
  induction l as [|y r IH]; simpl; [reflexivity |].
  destruct (isPositive (cmp x y)); [| reflexivity].
  etransitivity; [apply Permutation_cons; [reflexivity | exact IH] |]. apply perm_swap.
Qed.

Lemma Permutation_sortBy {A} (cmp : A -> A -> jsnum) l : Permutation (sortBy cmp l) l.
Proof.
  induction l as [|x l IH]; simpl; [reflexivity |].
  etransitivity; [apply Permutation_insertBy |]. now apply Permutation_cons.
Qed.

Variable idx : jsmap nat.






End AnySort.

(* ===================================================================== *)
(** ** The rendered order and counts *)
(* ===================================================================== *)

Section Counts.

Lemma orderedCities_groupCompanies cs :
  orderedCities (groupCompanies cs) = pinnedFirst (firstSeen (map cityOf cs)).
Proof.
  destruct (groupCompanies_inv cs) as [_ Hi Ho _].
  unfold orderedCities. rewrite Hi, Ho.
  apply sortBy_pinnedFirst; [apply NoDup_firstSeen |].
  apply Rising_indexMap, NoDup_firstSeen.
Qed.

Lemma In_pinnedFirst c l : In c (pinnedFirst l) <-> In c l.
Proof.
  unfold pinnedFirst. rewrite !in_app_iff, !filter_In.
  destruct (isMexicoCity c), (isMonterrey c); simpl; intuition congruence.
Qed.

Lemma list_sum_pinnedFirst (f : string -> nat) l :
  list_sum (map f (pinnedFirst l)) = list_sum (map f l).
Proof.
  unfold pinnedFirst. rewrite !map_app, !list_sum_app.
  induction l as [|x l IH]; [reflexivity |].
  simpl List.filter. simpl map at 4. simpl list_sum at 4. rewrite <- IH.
  destruct (isMexicoCity x) eqn:E1.
  - rewrite (not_both x E1). simpl. lia.
  - destruct (isMonterrey x); simpl; lia.
Qed.

Lemma NoDup_pinnedFirst l : NoDup l -> NoDup (pinnedFirst l).
Proof.
  intros H. unfold pinnedFirst.
  assert (Hf : forall p, NoDup (List.filter p l)).
  { intros p. apply NoDup_ListNoDup, List.NoDup_filter, NoDup_ListNoDup, H. }
  apply NoDup_app. split; [apply Hf |]. split.
  - intros c Hc Hc'. apply list_elem_of_In in Hc, Hc'.
    apply filter_In in Hc as [_ Hc]. apply in_app_iff in Hc' as [Hc' | Hc'];
      apply filter_In in Hc' as [_ Hc'].
    + apply not_both in Hc. congruence.
    + rewrite Hc in Hc'. discriminate.
  - apply NoDup_app. split; [apply Hf |]. split; [| apply Hf].
    intros c Hc Hc'. apply list_elem_of_In in Hc, Hc'.
    apply filter_In in Hc as [_ Hc]. apply filter_In in Hc' as [_ Hc'].
    rewrite Hc, andb_false_r in Hc'. discriminate.
Qed.




End Counts.


(* ===================================================================== *)
(** ** What a rendering depends on *)
(* ===================================================================== *)

Section SameOutput.

Variables env1 env2 : Env.
Hypothesis same_photos : forall fileName, photoExists env1 fileName = photoExists env2 fileName.
Hypothesis same_switch :
  isPlacesApiEnabled (config env1) = isPlacesApiEnabled (config env2).

Lemma getLocalPlacePhoto_same placeId index :
  getLocalPlacePhoto env1 placeId index = getLocalPlacePhoto env2 placeId index.
Proof. unfold getLocalPlacePhoto. now rewrite same_photos. Qed.

Lemma buildPlacePhotoUrl_same placeId index :
  buildPlacePhotoUrl env1 placeId index = buildPlacePhotoUrl env2 placeId index.
Proof. unfold buildPlacePhotoUrl. now rewrite getLocalPlacePhoto_same, same_switch. Qed.

Lemma resolveCompanyCoverUrl_same company placeId :
  resolveCompanyCoverUrl env1 company placeId = resolveCompanyCoverUrl env2 company placeId.
Proof.
  unfold resolveCompanyCoverUrl.
  now rewrite getLocalPlacePhoto_same, buildPlacePhotoUrl_same.
Qed.

Lemma renderCompanyCard_same company :
  renderCompanyCard env1 company = renderCompanyCard env2 company.
Proof.
  unfold renderCompanyCard, cardOpening. now rewrite resolveCompanyCoverUrl_same.
Qed.

Lemma renderCompanyCards_same items :
  renderCompanyCards env1 items = renderCompanyCards env2 items.
Proof.
  unfold renderCompanyCards. now rewrite (map_ext _ _ renderCompanyCard_same).
Qed.

Lemma renderCategory_same g cat : renderCategory env1 g cat = renderCategory env2 g cat.
Proof. unfold renderCategory. now rewrite renderCompanyCards_same. Qed.

Lemma renderIndustry_same entry : renderIndustry env1 entry = renderIndustry env2 entry.
Proof.
  unfold renderIndustry. rewrite renderCompanyCards_same.
  now rewrite (map_ext _ _ (renderCategory_same (groupCategories (snd entry)))).
Qed.

Lemma renderCitySection_same g index c :
  renderCitySection env1 g index c = renderCitySection env2 g index c.
Proof.
  unfold renderCitySection. now rewrite (map_ext _ _ renderIndustry_same).
Qed.

Lemma sectionsHtml_same g : sectionsHtml env1 g = sectionsHtml env2 g.
Proof.
  unfold sectionsHtml.
  rewrite (imap_ext (renderCitySection env1 g) (renderCitySection env2 g)); [reflexivity |].
  intros i c _. apply renderCitySection_same.
Qed.

Lemma buildCompaniesHtml_same options :
  companiesTemplate env1 = companiesTemplate env2 ->
  companiesData env1 = companiesData env2 ->
  buildCompaniesHtml options env1 = buildCompaniesHtml options env2.
Proof.
  intros Ht Hd. unfold buildCompaniesHtml, selectedCompanies.
  now rewrite Ht, Hd, sectionsHtml_same.
Qed.

End SameOutput.

(** C7, as stated, fails: with the same companies and the same template,
    the page changes once the photo of a place is in [image/place-photos],
    because the cover of the card then points to the local file. *)
Lemma same_list_and_template_different_html :
  companiesData envWithoutPhoto = companiesData envWithPhoto /\
  companiesTemplate envWithoutPhoto = companiesTemplate envWithPhoto /\
  buildCompaniesHtml defaultOptions envWithoutPhoto
    <> buildCompaniesHtml defaultOptions envWithPhoto.
Proof.
  refine (conj eq_refl (conj eq_refl _)). intros H.
  apply (f_equal String.length) in H. vm_compute in H. discriminate.
Qed.

(** C7, amended: two invocations with the same options, the same company
    list, the same template, the same files in [image/place-photos] and
    the same answer of [isPlacesApiEnabled] produce the same HTML. *)
Theorem buildCompaniesHtml_deterministic (options : Options) (env1 env2 : Env) :
  companiesData env1 = companiesData env2 ->
  companiesTemplate env1 = companiesTemplate env2 ->
  (forall fileName, photoExists env1 fileName = photoExists env2 fileName) ->
  isPlacesApiEnabled (config env1) = isPlacesApiEnabled (config env2) ->
  buildCompaniesHtml options env1 = buildCompaniesHtml options env2.
Proof. intros Hd Ht Hp Hs. now apply buildCompaniesHtml_same. Qed.

(** The amended C7 at two environments that differ only in the API key:
    both have the provider enabled and no local photo. *)
Lemma buildCompaniesHtml_deterministic_witness :
  buildCompaniesHtml defaultOptions envWithoutPhoto
    = buildCompaniesHtml defaultOptions envOtherKey.
Proof.
  apply (buildCompaniesHtml_deterministic defaultOptions envWithoutPhoto envOtherKey).
  - reflexivity.
  - reflexivity.
  - intros fileName. reflexivity.
  - reflexivity.
Defined.

(* ===================================================================== *)
(** ** The forum *)
(* ===================================================================== *)

Section ForumFacts.

Import Forum.

Lemma checkForumRateLimit_other k ip t limits :
  rateKey ip <> k ->
  snd (checkForumRateLimit ip t limits) !! k = limits !! k.
Proof.
  intros Hk. unfold checkForumRateLimit. cbv zeta. fold (rateKey ip).
  destruct (limits !! rateKey ip) as [e|] eqn:El; simpl;
    repeat match goal with
           | |- context [if ?b then _ else _] => destruct b; simpl
           end;
    rewrite ?lookup_insert_ne by exact Hk; reflexivity.
Qed.

(** The call when the address has an entry whose window is not over. *)
Lemma checkForumRateLimit_stored ip t limits e :
  limits !! rateKey ip = Some e -> (resetAt e <? t)%Z = false ->
  checkForumRateLimit ip t limits =
    if (t - lastAt e <? FORUM_MIN_INTERVAL_MS)%Z then
      (TooFast (FORUM_MIN_INTERVAL_MS - (t - lastAt e)), <[rateKey ip := e]> limits)
    else if (FORUM_RATE_LIMIT_MAX <=? count e)%nat then
      (RateLimited (resetAt e - t), <[rateKey ip := e]> limits)
    else
      (Allowed,
       <[rateKey ip := {| count := count e + 1; resetAt := resetAt e; lastAt := t |}]> limits).
Proof.
  intros El Hr. unfold checkForumRateLimit. cbv zeta. fold (rateKey ip).
  rewrite El. cbn [default from_option id]. rewrite Hr. reflexivity.
Qed.

(** The call when the address has no entry. *)
Lemma checkForumRateLimit_fresh ip t limits :
  limits !! rateKey ip = None ->
  checkForumRateLimit ip t limits =
    if (t <? FORUM_MIN_INTERVAL_MS)%Z then
      (TooFast (FORUM_MIN_INTERVAL_MS - t), limits)
    else
      (Allowed,
       <[rateKey ip := {| count := 1; resetAt := (t + FORUM_RATE_LIMIT_WINDOW_MS)%Z;
                          lastAt := t |}]> limits).
Proof.
  intros El. unfold checkForumRateLimit. cbv zeta. fold (rateKey ip).
  rewrite El. cbn [default from_option id resetAt lastAt count].
  assert (Hr : (t + FORUM_RATE_LIMIT_WINDOW_MS <? t)%Z = false).
  { apply Z.ltb_ge. unfold FORUM_RATE_LIMIT_WINDOW_MS. lia. }
  rewrite Hr. cbn [resetAt lastAt count]. rewrite Z.sub_0_r.
  destruct (t <? FORUM_MIN_INTERVAL_MS)%Z; reflexivity.
Qed.

(** One call for the key [k] during the span: the window stays open and
    an allowed call takes one post from the budget. *)
Lemma checkForumRateLimit_step ip t lo limits :
  (lo <= t <= lo + FORUM_RATE_LIMIT_WINDOW_MS)%Z ->
  windowOpen (rateKey ip) lo limits ->
  let result := checkForumRateLimit ip t limits in
  windowOpen (rateKey ip) lo (snd result) /\
  (budget (rateKey ip) (snd result) + (if isAllowed (fst result) then 1 else 0)
     <= budget (rateKey ip) limits)%nat.
Proof.
  intros Ht Hopen result. subst result. unfold windowOpen, budget in *.
  destruct (limits !! rateKey ip) as [e|] eqn:El.
  - rewrite (checkForumRateLimit_stored ip t limits e El) by (apply Z.ltb_ge; lia).
    destruct (t - lastAt e <? FORUM_MIN_INTERVAL_MS)%Z; cbn [fst snd isAllowed].
    + rewrite lookup_insert_eq. split; [exact Hopen | lia].
    + destruct (FORUM_RATE_LIMIT_MAX <=? count e)%nat eqn:Ec; cbn [fst snd isAllowed].
      * rewrite lookup_insert_eq. split; [exact Hopen | lia].
      * rewrite lookup_insert_eq. cbn [count resetAt]. apply Nat.leb_gt in Ec.
        split; [exact Hopen | lia].
  - rewrite (checkForumRateLimit_fresh ip t limits El).
    destruct (t <? FORUM_MIN_INTERVAL_MS)%Z; cbn [fst snd isAllowed].
    + rewrite El. split; [exact I | lia].
    + rewrite lookup_insert_eq. cbn [count resetAt]. unfold FORUM_RATE_LIMIT_MAX.
      split; lia.
Qed.

Lemma windowOpen_other k ip t lo limits :
  rateKey ip <> k -> windowOpen k lo limits ->
  windowOpen k lo (snd (checkForumRateLimit ip t limits)).
Proof.
  intros Hk. unfold windowOpen. now rewrite checkForumRateLimit_other.
Qed.

Lemma budget_other k ip t limits :
  rateKey ip <> k -> budget k (snd (checkForumRateLimit ip t limits)) = budget k limits.
Proof.
  intros Hk. unfold budget. now rewrite checkForumRateLimit_other.
Qed.

Lemma runChecks_budget k lo calls : forall limits,
  (forall ip t, In (ip, t) calls -> (lo <= t <= lo + FORUM_RATE_LIMIT_WINDOW_MS)%Z) ->
  windowOpen k lo limits ->
  (allowedFor k (fst (runChecks calls limits)) <= budget k limits)%nat.
Proof.
  induction calls as [|[ip t] calls IH]; intros limits Hspan Hopen; simpl.
  - unfold allowedFor. simpl. lia.
  - destruct (checkForumRateLimit ip t limits) as [r limits1] eqn:Ec.
    specialize (IH limits1).
    destruct (runChecks calls limits1) as [rs limits2] eqn:Er. simpl in *.
    assert (Hspan' : forall ip' t', In (ip', t') calls ->
              (lo <= t' <= lo + FORUM_RATE_LIMIT_WINDOW_MS)%Z) by (intros; eauto).
    unfold allowedFor in *. simpl.
    destruct (String.eqb (rateKey ip) k) eqn:Ek; simpl.
    + apply String.eqb_eq in Ek. subst k.
      destruct (checkForumRateLimit_step ip t lo limits) as [Ho Hb];
        [eauto | exact Hopen |].
      rewrite Ec in Ho, Hb. simpl in Ho, Hb.
      specialize (IH Hspan' Ho).
      destruct (isAllowed r); simpl; lia.
    + apply String.eqb_neq in Ek.
      pose proof (windowOpen_other k ip t lo limits Ek Hopen) as Ho.
      pose proof (budget_other k ip t limits Ek) as Hb.
      rewrite Ec in Ho, Hb. simpl in Ho, Hb.
      specialize (IH Hspan' Ho). lia.
Qed.

Lemma jsLength_bounds (s : string) (lo hi : nat) :
  (jsLength s <? lo)%nat || (hi <? jsLength s)%nat = false ->
  (lo <= jsLength s <= hi)%nat.
Proof.
  intros H. apply orb_false_iff in H as [H1 H2].
  apply Nat.ltb_ge in H1, H2. lia.
Qed.

(** What [createPost] does to the state, by its reply. *)
Lemma createPost_cases body ip ipHash userAgent now st :
  let result := createPost body ip ipHash userAgent now st in
  (status (fst result) = 200%nat /\
   fst (checkForumRateLimit ip now (limits st)) = Allowed /\
   limits (snd result) = snd (checkForumRateLimit ip now (limits st)) /\
   exists p,
     table (snd result) =
       {| posts := posts (table st) ++ [p]; lastID := S (lastID (table st)) |} /\
     payload (fst result) = OkId (S (lastID (table st))) /\
     post_id p = S (lastID (table st)) /\
     post_title p = trim (fieldOr (title body) EmptyString) /\
     post_content p = trim (fieldOr (content body) EmptyString) /\
     post_created_at p = now /\
     validPost p) \/
  (status (fst result) <> 200%nat /\ table (snd result) = table st /\
   (limits (snd result) = limits st \/
    limits (snd result) = snd (checkForumRateLimit ip now (limits st)))).
Proof.
  unfold createPost.
  destruct (negb (isEmpty (trim (fieldOr (website body) EmptyString)))).
  { right. simpl. repeat split; [discriminate | now left]. }
  destruct (checkForumRateLimit ip now (limits st)) as [rate limits'] eqn:Ec.
  destruct rate; simpl.
  2,3: right; simpl; repeat split; [discriminate | now right].
  destruct ((jsLength (trim (fieldOr (title body) EmptyString)) <? 2)%nat
            || (80 <? jsLength (trim (fieldOr (title body) EmptyString)))%nat) eqn:Et.
  { right. simpl. repeat split; [discriminate | now right]. }
  destruct ((jsLength (trim (fieldOr (content body) EmptyString)) <? 10)%nat
            || (2000 <? jsLength (trim (fieldOr (content body) EmptyString)))%nat) eqn:Ect.
  { right. simpl. repeat split; [discriminate | now right]. }
  left. simpl. repeat split; try reflexivity.
  eexists. repeat split; try reflexivity; simpl.
  all: try (apply jsLength_bounds in Et; lia).
  all: try (apply jsLength_bounds in Ect; lia).
Qed.




End ForumFacts.

(** X1: two posts within 25 seconds.  When [checkForumRateLimit] has allowed a
    post of an address at time [t], it has stored an entry whose [lastAt] is
    [t] and whose window ends at [t] or later; a call for the same address at
    a time [now] with [t <= now < t + 25 s], before the window ends, is
    refused as too fast, tells to retry in [25 s - (now - t)] (a positive
    time) and leaves the limits as they are. *)
Theorem forum_second_post_too_fast (ip : string) (t : Z)
    (limits limits1 : gmap string Forum.Entry) :
  Forum.checkForumRateLimit ip t limits = (Forum.Allowed, limits1) ->
  exists e,
    limits1 !! rateKey ip = Some e /\ Forum.lastAt e = t /\ (t <= Forum.resetAt e)%Z /\
    (1 <= Forum.count e <= Forum.FORUM_RATE_LIMIT_MAX)%nat /\
    forall now,
      (t <= now < t + Forum.FORUM_MIN_INTERVAL_MS)%Z -> (now <= Forum.resetAt e)%Z ->
      Forum.checkForumRateLimit ip now limits1
        = (Forum.TooFast (Forum.FORUM_MIN_INTERVAL_MS - (now - t)), limits1) /\
      (0 < Forum.FORUM_MIN_INTERVAL_MS - (now - t) <= Forum.FORUM_MIN_INTERVAL_MS)%Z.
Proof.
  unfold Forum.checkForumRateLimit at 1. fold (rateKey ip).
  set (fresh := {| Forum.count := 0;
                   Forum.resetAt := (t + Forum.FORUM_RATE_LIMIT_WINDOW_MS)%Z;
                   Forum.lastAt := 0 |}).
  set (entry0 := default fresh (limits !! rateKey ip)).
  set (entry1 := if (Forum.resetAt entry0 <? t)%Z then fresh else entry0).
  assert (Hreset : (t <= Forum.resetAt entry1)%Z).
  { unfold entry1. destruct (Forum.resetAt entry0 <? t)%Z eqn:E.
    - simpl. unfold Forum.FORUM_RATE_LIMIT_WINDOW_MS. lia.
    - apply Z.ltb_ge in E. exact E. }
  destruct (t - Forum.lastAt entry1 <? Forum.FORUM_MIN_INTERVAL_MS)%Z; [discriminate |].
  destruct (Forum.FORUM_RATE_LIMIT_MAX <=? Forum.count entry1)%nat eqn:Ec; [discriminate |].
  apply Nat.leb_gt in Ec.
  intros H. injection H as <-.
  eexists. split; [apply lookup_insert_eq |]. simpl.
  split; [reflexivity |]. split; [exact Hreset |]. split; [lia |].
  intros now Hnow Hwin. split; [| lia].
  unfold Forum.checkForumRateLimit. fold (rateKey ip).
  rewrite lookup_insert_eq. simpl.
  assert (Hr : (Forum.resetAt entry1 <? now)%Z = false) by (apply Z.ltb_ge; lia).
  rewrite Hr. simpl.
  assert (Hf : (now - t <? Forum.FORUM_MIN_INTERVAL_MS)%Z = true) by (apply Z.ltb_lt; lia).
  rewrite Hf. f_equal.
  rewrite insert_insert_eq. reflexivity.
Qed.

Lemma forum_second_post_too_fast_witness :
  let limits1 :=
    <["10.0.0.1" := {| Forum.count := 1; Forum.resetAt := 1600000; Forum.lastAt := 1000000 |}]>
      (∅ : gmap string Forum.Entry) in
  Forum.checkForumRateLimit "10.0.0.1" 1000000 ∅ = (Forum.Allowed, limits1) /\
  Forum.checkForumRateLimit "10.0.0.1" 1010000 limits1 = (Forum.TooFast 15000, limits1).
Proof.
  intros limits1.
  assert (H : Forum.checkForumRateLimit "10.0.0.1" 1000000 ∅ = (Forum.Allowed, limits1))
    by reflexivity.
  split; [exact H |].
  destruct (forum_second_post_too_fast "10.0.0.1" 1000000 ∅ limits1 H)
    as (e & He & _ & _ & _ & Hnow).
  change (rateKey "10.0.0.1") with "10.0.0.1" in He. unfold limits1 in He.
  rewrite lookup_insert_eq in He. injection He as <-.
  apply (Hnow 1010000%Z); unfold Forum.FORUM_MIN_INTERVAL_MS; simpl; lia.
Defined.

(** X2: four posts in ten minutes.  Take an address that has no entry in the
    rate limits, or whose window ends after the span, and any calls of
    [checkForumRateLimit], for any addresses, whose times lie in a span of
    ten minutes: the calls allowed for that address are at most what is left
    of its four posts, four for an address without an entry. *)
Theorem forum_rate_limit_per_window (k : string) (lo : Z) (calls : list (string * Z))
    (limits : gmap string Forum.Entry) :
  (forall ip t, In (ip, t) calls ->
     (lo <= t <= lo + Forum.FORUM_RATE_LIMIT_WINDOW_MS)%Z) ->
  windowOpen k lo limits ->
  (allowedFor k (fst (runChecks calls limits)) <= budget k limits)%nat /\
  (budget k limits <= 4)%nat /\
  (limits !! k = None -> budget k limits = 4%nat).
Proof.
  intros Hspan Hopen. split; [now apply (runChecks_budget k lo) |].
  unfold budget. destruct (limits !! k); unfold Forum.FORUM_RATE_LIMIT_MAX.
  - split; [lia | discriminate].
  - split; [lia | reflexivity].
Qed.

Lemma forum_rate_limit_per_window_witness :
  (allowedFor "unknown"
     (fst (runChecks [("", 1000000%Z); ("", 1030000%Z); ("", 1060000%Z); ("", 1090000%Z);
                      ("", 1120000%Z); ("", 1150000%Z)] ∅)) <= budget "unknown" ∅)%nat.
Proof.
  refine (proj1 (forum_rate_limit_per_window "unknown" 1000000 _ ∅ _ _)).
  - intros ip t H. simpl in H. unfold Forum.FORUM_RATE_LIMIT_WINDOW_MS.
    repeat (destruct H as [H | H]; [injection H as <- <-; lia |]). contradiction.
  - exact I.
Defined.

(** X3: what [POST /api/forum-posts] stores.  A request is answered 200 only
    when the limiter allowed it, and then exactly one post is added at the end
    of the table: it has the next id, the trimmed title and content of the
    request, a title of 2 to 80 and a content of 10 to 2000 UTF-16 units.
    Every other reply leaves the table as it was.  So the posts of the table
    stay within these bounds. *)
Theorem forum_post_stored_valid (body : Forum.PostBody) (ip ipHash userAgent : string)
    (now : Z) (st : Forum.State) :
  let result := Forum.createPost body ip ipHash userAgent now st in
  ((Forum.status (fst result) = 200%nat /\
    fst (Forum.checkForumRateLimit ip now (Forum.limits st)) = Forum.Allowed /\
    exists p,
      Forum.posts (Forum.table (snd result)) = Forum.posts (Forum.table st) ++ [p] /\
      Forum.payload (fst result) = Forum.OkId (Forum.post_id p) /\
      Forum.post_id p = S (Forum.lastID (Forum.table st)) /\
      Forum.post_title p = trim (fieldOr (Forum.title body) EmptyString) /\
      Forum.post_content p = trim (fieldOr (Forum.content body) EmptyString) /\
      Forum.post_created_at p = now /\
      validPost p) \/
   (Forum.status (fst result) <> 200%nat /\ Forum.table (snd result) = Forum.table st)) /\
  (Forall validPost (Forum.posts (Forum.table st)) ->
   Forall validPost (Forum.posts (Forum.table (snd result)))).
Proof.
  intros result.
  pose proof (createPost_cases body ip ipHash userAgent now st) as Hc.
  fold result in Hc.
  destruct Hc as [(Hs & Hal & _ & p & Ht & Hp & Hid & Hti & Hco & Hcr & Hv)
                 | (Hs & Ht & _)].
  - split.
    + left. split; [exact Hs |]. split; [exact Hal |].
      exists p. rewrite Ht, Hid. simpl. repeat split; auto; apply Hv.
    + intros Hall. rewrite Ht. simpl. apply Forall_app. split; [exact Hall |].
      constructor; [exact Hv | constructor].
  - split; [right; split; assumption |].
    intros Hall. now rewrite Ht.
Qed.




(* ===================================================================== *)
(** ** The places cache: what stays in it *)
(* ===================================================================== *)

Section PlacesTiers.

Variable mapFields : Json -> string -> Completion Json.
Variable cfg : Config.




















End PlacesTiers.

Section PlaceIds.

Variable cfg : Config.



End PlaceIds.









(* ===================================================================== *)
(** ** The groups of the directory *)
(* ===================================================================== *)

Section Groups.

Context {A : Type}.
Variable key : A -> string.

Lemma mapAdjust_absent {V} (f : V -> V) k (m : jsmap V) :
  mapHas k m = false -> mapAdjust f k m = m.
Proof.
  unfold mapHas. induction m as [|[k' v] m IH]; simpl; [reflexivity |].
  destruct (String.eqb k k'); [discriminate |]. intros H. now rewrite IH.
Qed.

Lemma mapAdjust_app_new {V} (f : V -> V) k v (m : jsmap V) :
  mapHas k m = false -> mapAdjust f k (m ++ [(k, v)]) = m ++ [(k, f v)].
Proof.
  unfold mapHas. induction m as [|[k' v'] m IH]; simpl.
  - now rewrite String.eqb_refl.
  - destruct (String.eqb k k'); [discriminate |]. intros H. now rewrite IH.
Qed.

(** Adjusting the entry of [k] in a map built from distinct keys. *)
Lemma mapAdjust_map {V} (f : V -> V) (h : string -> V) k keys :
  NoDup keys ->
  mapAdjust f k (map (fun i => (i, h i)) keys)
    = map (fun i => (i, if String.eqb i k then f (h i) else h i)) keys.
Proof.
  induction 1 as [|i keys Hi Hnd IH]; simpl; [reflexivity |].
  destruct (String.eqb k i) eqn:E.
  - apply String.eqb_eq in E. subst i. rewrite String.eqb_refl. f_equal.
    apply map_ext_in. intros j Hj.
    destruct (String.eqb j k) eqn:Ej; [| reflexivity].
    apply String.eqb_eq in Ej. subst j. exfalso. apply Hi. now apply list_elem_of_In.
  - rewrite String.eqb_sym, E. now rewrite IH.
Qed.

Lemma mapKeys_groupBy (l : list A) : mapKeys (groupBy key l) = firstSeen (map key l).
Proof. unfold mapKeys, groupBy. rewrite map_map. simpl. apply map_id. Qed.

Lemma groupBy_snoc (l : list A) (x : A) :
  groupBy key (l ++ [x]) = groupStep key (groupBy key l) x.
Proof.
  unfold groupStep.
  assert (Hitems : forall k, List.filter (fun y => String.eqb (key y) k) (l ++ [x])
            = List.filter (fun y => String.eqb (key y) k) l
              ++ (if String.eqb (key x) k then [x] else [])).
  { intros k. rewrite List.filter_app. simpl. now destruct (String.eqb (key x) k). }
  destruct (mapHas (key x) (groupBy key l)) eqn:Hhas; cbn [negb].
  - (* the key has been seen *)
    assert (Hin : In (key x) (firstSeen (map key l))).
    { rewrite <- mapKeys_groupBy. now apply mapHas_In. }
    unfold groupBy at 2. rewrite mapAdjust_map by apply NoDup_firstSeen.
    unfold groupBy. rewrite map_app. simpl. rewrite firstSeen_snoc.
    apply memb_In in Hin. rewrite Hin.
    apply map_ext. intros k. rewrite Hitems, (String.eqb_sym k).
    destruct (String.eqb (key x) k); [reflexivity | now rewrite app_nil_r].
  - (* a new key *)
    assert (Hnin : ~ In (key x) (firstSeen (map key l))).
    { rewrite <- mapKeys_groupBy. now apply mapHas_false. }
    rewrite mapSet_new by exact Hhas. rewrite mapAdjust_app_new by exact Hhas.
    unfold groupBy. rewrite map_app. simpl. rewrite firstSeen_snoc.
    apply memb_false in Hnin. rewrite Hnin. rewrite map_app. simpl.
    rewrite Hitems, String.eqb_refl.
    assert (Hnone : List.filter (fun y => String.eqb (key y) (key x)) l = []).
    { apply filter_none. intros y Hy. destruct (String.eqb (key y) (key x)) eqn:E; [| reflexivity].
      apply String.eqb_eq in E. exfalso. apply memb_false in Hnin. apply Hnin.
      apply In_firstSeen. rewrite <- E. now apply in_map. }
    rewrite Hnone. simpl. f_equal.
    apply map_ext_in. intros k Hk. rewrite Hitems.
    destruct (String.eqb (key x) k) eqn:E; [| now rewrite app_nil_r].
    apply String.eqb_eq in E. subst k. exfalso. apply memb_false in Hnin. auto.
Qed.

(** A loop of [groupStep]s computes [groupBy]. *)
Lemma fold_groupStep (l : list A) : fold_left (groupStep key) l [] = groupBy key l.
Proof.
  induction l as [|x l IH] using rev_ind; [reflexivity |].
  rewrite fold_left_app. simpl. rewrite IH. symmetry. apply groupBy_snoc.
Qed.

Lemma mapGet_groupBy (l : list A) k :
  default [] (mapGet k (groupBy key l)) = List.filter (fun x => String.eqb (key x) k) l.
Proof.
  unfold groupBy.
  assert (H : forall keys,
            mapGet k (map (fun k0 => (k0, List.filter (fun x => String.eqb (key x) k0) l)) keys)
            = if memb k keys then Some (List.filter (fun x => String.eqb (key x) k) l) else None).
  { induction keys as [|k0 keys IH]; simpl; [reflexivity |].
    unfold memb in *. simpl. destruct (String.eqb k k0) eqn:E; simpl; [| exact IH].
    apply String.eqb_eq in E. now subst. }
  rewrite H. destruct (memb k (firstSeen (map key l))) eqn:M; [reflexivity |].
  simpl. symmetry. apply filter_none. intros y Hy.
  destruct (String.eqb (key y) k) eqn:E; [| reflexivity].
  apply String.eqb_eq in E. apply memb_false in M. exfalso. apply M.
  apply In_firstSeen. rewrite <- E. now apply in_map.
Qed.

(** The groups of distinct keys that cover [l] hold the elements of [l],
    each once. *)
Lemma Permutation_groups (l : list A) : forall keys,
  NoDup keys -> (forall x, In x l -> In (key x) keys) ->
  Permutation (flat_map (fun k => List.filter (fun x => String.eqb (key x) k) l) keys) l.
Proof.
  induction l as [|x l IH]; intros keys Hnd Hcover.
  - simpl. clear Hnd Hcover. induction keys as [|k keys IHk]; simpl; [constructor | exact IHk].
  - assert (Hone : forall ks, NoDup ks ->
              Permutation
                (flat_map (fun k => List.filter (fun y => String.eqb (key y) k) (x :: l)) ks)
                ((if memb (key x) ks then [x] else [])
                 ++ flat_map (fun k => List.filter (fun y => String.eqb (key y) k) l) ks)).
    { induction 1 as [|k ks Hk Hks IHks]; [reflexivity |].
      cbn [flat_map List.filter]. unfold memb. cbn [existsb]. fold (memb (key x) ks).
      destruct (String.eqb (key x) k) eqn:E.
      - apply String.eqb_eq in E. subst k.
        assert (M : memb (key x) ks = false).
        { apply memb_false. intros H. apply Hk. now apply list_elem_of_In. }
        rewrite M in IHks. cbn [orb app]. constructor.
        apply Permutation_app_head. exact IHks.
      - cbn [orb]. etransitivity; [apply Permutation_app_head, IHks |].
        rewrite !app_assoc. apply Permutation_app_tail. apply Permutation_app_comm. }
    etransitivity; [apply (Hone keys Hnd) |].
    assert (M : memb (key x) keys = true) by (apply memb_In, Hcover; now left).
    rewrite M. simpl. constructor. apply IH; [exact Hnd |].
    intros y Hy. apply Hcover. now right.
Qed.

End Groups.

Section DirectoryGroups.

(** The entry of a city after one more company. *)
Lemma cityEntryOf_addCompany g x c :
  cityEntryOf (addCompany g x) c =
  if String.eqb c (cityOf x) then addToEntry x (cityEntryOf g c) else cityEntryOf g c.
Proof.
  unfold cityEntryOf, addCompany.
  destruct (mapHas (cityOf x) (cityMap g)) eqn:Hhas; cbn [negb cityMap].
  - rewrite mapGet_mapAdjust.
    destruct (String.eqb c (cityOf x)) eqn:E; [| reflexivity].
    apply String.eqb_eq in E. subst c. unfold mapHas in Hhas.
    now destruct (mapGet (cityOf x) (cityMap g)).
  - rewrite mapGet_mapAdjust, mapSet_new by exact Hhas. rewrite mapGet_app_new.
    destruct (String.eqb c (cityOf x)) eqn:E.
    + apply String.eqb_eq in E. subst c. now rewrite (mapGet_None _ _ Hhas).
    + now destruct (mapGet c (cityMap g)).
Qed.

Lemma industries_addToEntry x entry :
  industries (addToEntry x entry) = groupStep industryOf (industries entry) x.
Proof. reflexivity. Qed.

(** The industries of a city are the groups of its companies. *)
Lemma industries_groupCompanies cs c :
  industries (cityEntryOf (groupCompanies cs) c) = groupBy industryOf (companiesOf c cs).
Proof.
  unfold groupCompanies. induction cs as [|x cs IH] using rev_ind; [reflexivity |].
  rewrite fold_left_app. cbn [fold_left]. rewrite cityEntryOf_addCompany.
  unfold companiesOf in *. rewrite List.filter_app. cbn [List.filter].
  rewrite (String.eqb_sym c).
  destruct (String.eqb (cityOf x) c).
  - rewrite industries_addToEntry, IH. symmetry. apply groupBy_snoc.
  - now rewrite app_nil_r.
Qed.

Lemma categoryMap_addToCategory g x :
  categoryMap (addToCategory g x) =
  groupStep (fun company => orElse (classifyFoodCategory company) "其他") (categoryMap g) x.
Proof. unfold addToCategory, groupStep. now destruct (mapHas _ (categoryMap g)). Qed.

(** [classifyFoodCategory] never returns the empty string: the [|| '其他']
    of the loop is never taken. *)
Lemma classifyFoodCategory_nonempty company : isEmpty (classifyFoodCategory company) = false.
Proof.
  unfold classifyFoodCategory.
  destruct (isEmpty (existingCategory company)) eqn:E; cbn [negb]; [| exact E].
  destruct (test hotpotRe (foodText company)); [reflexivity |].
  destruct (test noodleRe (foodText company)); [reflexivity |].
  destruct (test bbqRe (foodText company)); reflexivity.
Qed.

Lemma categoryOf_classify company :
  orElse (classifyFoodCategory company) "其他" = classifyFoodCategory company.
Proof. unfold orElse. now rewrite classifyFoodCategory_nonempty. Qed.

(** What the loop over the food companies has built. *)
Lemma groupCategories_spec items :
  let g := groupCategories items in
  categoryOrder g = firstSeen (map classifyFoodCategory items) /\
  categoryIndex g = indexMap (categoryOrder g) /\
  categoryMap g = groupBy classifyFoodCategory items.
Proof.
  unfold groupCategories. induction items as [|x items IH] using rev_ind.
  - repeat split.
  - rewrite fold_left_app. cbn [fold_left].
    destruct IH as (Ho & Hi & Hm).
    set (g := fold_left addToCategory items
                {| categoryOrder := []; categoryIndex := []; categoryMap := [] |}) in *.
    cbv zeta. rewrite categoryMap_addToCategory, Hm.
    assert (Hstep : groupStep (fun company => orElse (classifyFoodCategory company) "其他")
                      (groupBy classifyFoodCategory items) x
                    = groupBy classifyFoodCategory (items ++ [x])).
    { rewrite groupBy_snoc. unfold groupStep. now rewrite categoryOf_classify. }
    rewrite Hstep. unfold addToCategory. rewrite categoryOf_classify.
    rewrite map_app. cbn [map]. rewrite firstSeen_snoc, <- Ho.
    destruct (mapHas (classifyFoodCategory x) (categoryMap g)) eqn:Hhas; cbn [negb].
    + cbn [categoryOrder categoryIndex].
      assert (Hin : In (classifyFoodCategory x) (categoryOrder g)).
      { rewrite Ho, <- mapKeys_groupBy, <- Hm. now apply mapHas_In. }
      apply memb_In in Hin. rewrite Hin. auto.
    + cbn [categoryOrder categoryIndex].
      assert (Hnin : ~ In (classifyFoodCategory x) (categoryOrder g)).
      { rewrite Ho, <- mapKeys_groupBy, <- Hm. now apply mapHas_false. }
      pose proof Hnin as Hm'. apply memb_false in Hm'. rewrite Hm'.
      refine (conj eq_refl (conj _ eq_refl)).
      rewrite Hi, mapSet_new; [now rewrite indexMap_snoc |].
      apply mapHas_false. now rewrite mapKeys_indexMap.
Qed.

(** [countCategories] counts the companies of each category. *)
Lemma countCategories_spec items :
  countCategories items
    = map (fun k => (k, List.length (List.filter
                                       (fun x => String.eqb (classifyFoodCategory x) k) items)))
        (firstSeen (map classifyFoodCategory items)).
Proof.
  unfold countCategories. induction items as [|x items IH] using rev_ind; [reflexivity |].
  rewrite fold_left_app. cbn [fold_left]. rewrite IH. clear IH.
  set (cat := classifyFoodCategory x).
  set (cnt := fun (l : list Company) k =>
                List.length (List.filter (fun y => String.eqb (classifyFoodCategory y) k) l)).
  change (mapSet cat
            (default 0%nat (mapGet cat (map (fun k => (k, cnt items k))
                                          (firstSeen (map classifyFoodCategory items)))) + 1)%nat
            (map (fun k => (k, cnt items k)) (firstSeen (map classifyFoodCategory items)))
          = map (fun k => (k, cnt (items ++ [x]) k))
              (firstSeen (map classifyFoodCategory (items ++ [x])))).
  assert (Hcnt : forall k, cnt (items ++ [x]) k
                   = (cnt items k + if String.eqb cat k then 1 else 0)%nat).
  { intros k. unfold cnt. rewrite List.filter_app, length_app. cbn [List.filter].
    fold cat. now destruct (String.eqb cat k). }
  rewrite map_app. cbn [map]. fold cat. rewrite firstSeen_snoc.
  generalize (NoDup_firstSeen (map classifyFoodCategory items)).
  assert (Hzero : ~ In cat (firstSeen (map classifyFoodCategory items)) -> cnt items cat = 0%nat).
  { intros Hn. unfold cnt. rewrite filter_none; [reflexivity |].
    intros y Hy. destruct (String.eqb (classifyFoodCategory y) cat) eqn:E; [| reflexivity].
    apply String.eqb_eq in E. exfalso. apply Hn, In_firstSeen. rewrite <- E. now apply in_map. }
  revert Hzero. generalize (firstSeen (map classifyFoodCategory items)) as keys.
  induction keys as [|k keys IHk]; intros Hzero Hnd.
  - cbn. rewrite Hcnt, String.eqb_refl, Hzero by (intros []). reflexivity.
  - apply NoDup_cons in Hnd as [Hk Hnd]. rewrite list_elem_of_In in Hk.
    unfold memb. cbn [existsb map mapSet mapGet]. fold (memb cat keys).
    destruct (String.eqb cat k) eqn:E; cbn [orb default].
    + apply String.eqb_eq in E. subst k. cbn [map]. rewrite Hcnt, String.eqb_refl. f_equal.
      apply map_ext_in. intros j Hj. rewrite Hcnt.
      destruct (String.eqb cat j) eqn:Ej; [| now rewrite Nat.add_0_r].
      apply String.eqb_eq in Ej. subst j. contradiction.
    + assert (Hz' : ~ In cat keys -> cnt items cat = 0%nat).
      { intros Hn. apply Hzero. intros [Heq | Hin]; [| auto].
        apply String.eqb_neq in E. congruence. }
      specialize (IHk Hz' Hnd).
      destruct (memb cat keys) eqn:M; cbn [map app].
      * rewrite Hcnt, E, Nat.add_0_r. f_equal. exact IHk.
      * rewrite Hcnt, E, Nat.add_0_r. f_equal. exact IHk.
Qed.

End DirectoryGroups.

(* ===================================================================== *)
(** ** Sorting by a list of priorities *)
(* ===================================================================== *)

Section RankSort.

Variable names : list string.
Variable idx : jsmap nat.
Hypothesis names_distinct : NoDup names.

Local Abbreviation cmp := (byPriority (indexMap names) idx).

Lemma priorityOf_indexMap c :
  priorityOf (indexMap names) c =
  match position c names with
  | Some i => Num (Z.of_nat i)
  | None => PosInf
  end.
Proof. unfold priorityOf. now rewrite mapGet_indexMap. Qed.

Lemma position_None c l : position c l = None <-> ~ In c l.
Proof.
  split.
  - intros H Hin. destruct (position_In c l Hin) as [i Hi]. congruence.
  - induction l as [|y l IH]; simpl; [reflexivity |]. intros H.
    destruct (String.eqb c y) eqn:E.
    + apply String.eqb_eq in E. subst. exfalso. apply H. now left.
    + rewrite IH; [reflexivity |]. intros Hin. apply H. now right.
Qed.

Lemma cmp_before a b i j :
  position a names = Some i -> position b names = Some j -> (i < j)%nat ->
  isPositive (cmp a b) = false.
Proof.
  intros Ha Hb Hij. unfold byPriority. rewrite !priorityOf_indexMap, Ha, Hb. simpl.
  assert (E : (Z.of_nat i =? Z.of_nat j)%Z = false) by (apply Z.eqb_neq; lia).
  rewrite E. simpl. apply Z.ltb_ge. lia.
Qed.

Lemma cmp_after a b i j :
  position a names = Some i -> position b names = Some j -> (j < i)%nat ->
  isPositive (cmp a b) = true.
Proof.
  intros Ha Hb Hij. unfold byPriority. rewrite !priorityOf_indexMap, Ha, Hb. simpl.
  assert (E : (Z.of_nat i =? Z.of_nat j)%Z = false) by (apply Z.eqb_neq; lia).
  rewrite E. simpl. apply Z.ltb_lt. lia.
Qed.

Lemma cmp_named_other a b i :
  position a names = Some i -> position b names = None -> isPositive (cmp a b) = false.
Proof.
  intros Ha Hb. unfold byPriority. now rewrite !priorityOf_indexMap, Ha, Hb.
Qed.

Lemma cmp_other_named a b j :
  position a names = None -> position b names = Some j -> isPositive (cmp a b) = true.
Proof.
  intros Ha Hb. unfold byPriority. now rewrite !priorityOf_indexMap, Ha, Hb.
Qed.

Lemma cmp_same_rank a b :
  position a names = position b names ->
  cmp a b = jsSub (indexOf idx a) (indexOf idx b).
Proof.
  intros E. unfold byPriority. rewrite !priorityOf_indexMap, E.
  destruct (position b names); simpl; [now rewrite Z.eqb_refl | reflexivity].
Qed.

Lemma In_group n l y : In y (List.filter (String.eqb n) l) -> y = n.
Proof. intros H. apply filter_In in H as [_ E]. apply String.eqb_eq in E. now subst. Qed.

Lemma In_groups l suf y :
  In y (flat_map (fun n => List.filter (String.eqb n) l) suf) -> In y suf.
Proof.
  intros H. apply in_flat_map in H as (n & Hn & Hy). apply In_group in Hy. now subst.
Qed.

Lemma position_suffix pre suf c :
  names = pre ++ suf -> ~ In c pre -> In c suf ->
  exists i, position c names = Some (List.length pre + i)%nat /\ position c suf = Some i.
Proof.
  intros -> Hpre Hsuf. rewrite position_app_notin by exact Hpre.
  destruct (position_In c suf Hsuf) as [i Hi]. rewrite Hi. simpl. eauto.
Qed.

(** Inserting [x], which was seen before every element of [l], into the
    ranked arrangement of [l]. *)
Lemma insertBy_byRank x l :
  (forall y, In y l -> isPositive (jsSub (indexOf idx x) (indexOf idx y)) = false) ->
  insertBy cmp x (byRank names l) = byRank names (x :: l).
Proof.
  intros Hlow. unfold byRank.
  set (rest := fun l' : list string => List.filter (fun c => negb (memb c names)) l').
  set (G := fun (l' : list string) n => List.filter (String.eqb n) l').
  assert (Hgen : forall suf pre, names = pre ++ suf -> ~ In x pre ->
            insertBy cmp x (flat_map (G l) suf ++ rest l)
            = flat_map (G (x :: l)) suf ++ rest (x :: l)).
  { induction suf as [|n suf IH]; intros pre Hnames Hpre.
    - (* [x] is not one of the names *)
      rewrite app_nil_r in Hnames. subst pre.
      assert (Hx : position x names = None) by now apply position_None.
      unfold rest. cbn [flat_map app List.filter].
      assert (M : memb x names = false) by now apply memb_false.
      rewrite M. cbn [negb]. apply insertBy_front. apply Forall_filter.
      intros y Hy Ey. apply negb_true_iff, memb_false, position_None in Ey.
      rewrite cmp_same_rank by congruence. now apply Hlow.
    - assert (Hnd := names_distinct). rewrite Hnames in Hnd.
      apply NoDup_app in Hnd as (_ & Hdisj & Hnd). apply NoDup_cons in Hnd as [Hn Hsuf].
      rewrite list_elem_of_In in Hn.
      assert (Hnpre : ~ In n pre).
      { intros H. apply list_elem_of_In in H. apply (Hdisj n H). left. }
      assert (Hposn : position n names = Some (List.length pre + 0)%nat).
      { destruct (position_suffix pre (n :: suf) n Hnames Hnpre) as (i & Hi & Hi0);
          [now left |].
        simpl in Hi0. rewrite String.eqb_refl in Hi0. injection Hi0 as <-. exact Hi. }
      cbn [flat_map]. unfold G at 1 3. cbn [List.filter].
      destruct (String.eqb n x) eqn:E.
      + (* [x] is the name [n] *)
        apply String.eqb_eq in E. subst n. fold (G l x).
        assert (Hsame : flat_map (G (x :: l)) suf = flat_map (G l) suf).
        { rewrite !flat_map_concat_map. f_equal. apply map_ext_in.
          intros m Hm. unfold G. cbn [List.filter].
          destruct (String.eqb m x) eqn:Em; [| reflexivity].
          apply String.eqb_eq in Em. subst m. contradiction. }
        assert (Hrest : rest (x :: l) = rest l).
        { unfold rest. cbn [List.filter].
          assert (M : memb x names = true).
          { apply memb_In. rewrite Hnames. apply in_or_app. right. now left. }
          now rewrite M. }
        rewrite Hsame, Hrest. rewrite <- !List.app_assoc. cbn [app].
        apply insertBy_front. apply Forall_forall. intros y Hy.
        apply list_elem_of_In in Hy. apply in_app_or in Hy as [Hy | Hy].
        { pose proof Hy as Hy'. apply filter_In in Hy' as [Hyl _].
          apply In_group in Hy. subst y. rewrite cmp_same_rank by reflexivity.
          now apply Hlow. }
        apply in_app_or in Hy as [Hy | Hy].
        * apply In_groups in Hy.
          assert (Hypre : ~ In y pre).
          { intros H. apply list_elem_of_In in H. apply (Hdisj y H). right.
            now apply list_elem_of_In. }
          destruct (position_suffix pre (x :: suf) y Hnames Hypre) as (j & Hj & Hj0);
            [now right |].
          simpl in Hj0. destruct (String.eqb y x) eqn:Eyx.
          { apply String.eqb_eq in Eyx. subst y. contradiction. }
          destruct (position y suf) as [j'|]; [| discriminate]. injection Hj0 as <-.
          apply (cmp_before x y _ _ Hposn Hj). lia.
        * apply filter_In in Hy as [_ Ey].
          apply negb_true_iff, memb_false, position_None in Ey.
          apply (cmp_named_other x y _ Hposn Ey).
      + (* the name [n] comes before [x] *)
        fold (G l n). rewrite <- !List.app_assoc. rewrite insertBy_skip.
        * f_equal. apply (IH (pre ++ [n])).
          -- now rewrite <- app_assoc.
          -- intros H. apply in_app_or in H as [H | [H | []]]; [auto |].
             subst n. now rewrite String.eqb_refl in E.
        * apply Forall_forall. intros y Hy. apply list_elem_of_In in Hy.
          apply In_group in Hy. subst y.
          destruct (position x names) as [i|] eqn:Hx.
          -- apply (cmp_after x n _ _ Hx Hposn).
             assert (Hxin : In x names).
             { destruct (in_dec string_dec x names) as [H | H]; [exact H |].
               apply position_None in H. congruence. }
             rewrite Hnames in Hxin. apply in_app_or in Hxin as [Hxin | [Hxin | Hxin]];
               [contradiction | subst n; now rewrite String.eqb_refl in E |].
             destruct (position_suffix pre (n :: suf) x Hnames Hpre) as (j & Hj & Hj0);
               [now right |].
             simpl in Hj0. rewrite String.eqb_sym, E in Hj0.
             destruct (position x suf) as [j'|]; [| discriminate]. injection Hj0 as <-.
             rewrite Hx in Hj. injection Hj as ->. lia.
          -- apply (cmp_other_named x n _ Hx Hposn). }
  apply (Hgen names []); [reflexivity | intros []].
Qed.

(** The sort of [buildCompaniesHtml] puts the named elements first, in
    the order of the names, and leaves the others in the order in which
    they were first seen. *)
Lemma sortBy_byRank l : Rising idx l -> sortBy cmp l = byRank names l.
Proof.
  intros Hr. induction l as [|x r IH]; [unfold byRank; simpl |].
  - induction names as [|n ns IHn]; [reflexivity |]. simpl. apply IHn.
    now apply NoDup_cons in names_distinct as [_ ?].
  - apply StronglySorted_inv in Hr as [Hr Hlt].
    simpl sortBy. fold (sortBy cmp r). rewrite (IH Hr).
    apply insertBy_byRank. intros y Hy. rewrite Forall_forall in Hlt.
    destruct (Hlt y) as (i & j & Hi & Hj & Hij); [now apply list_elem_of_In |].
    unfold indexOf. rewrite Hi, Hj. simpl. apply Z.ltb_ge. lia.
Qed.

End RankSort.

Section Cards.

Lemma Permutation_flat_map_pointwise {A B} (f h : A -> list B) l :
  (forall a, In a l -> Permutation (f a) (h a)) ->
  Permutation (flat_map f l) (flat_map h l).
Proof.
  induction l as [|a l IH]; intros H; simpl; [constructor |].
  apply Permutation_app; [apply H; now left |]. apply IH. intros b Hb. apply H. now right.
Qed.

Lemma flat_map_groupBy {A} (key : A -> string) (l : list A) :
  flat_map snd (groupBy key l)
    = flat_map (fun k => List.filter (fun x => String.eqb (key x) k) l) (firstSeen (map key l)).
Proof.
  unfold groupBy. generalize (firstSeen (map key l)) as keys.
  induction keys as [|k keys IH]; simpl; [reflexivity | now rewrite IH].
Qed.

Lemma Permutation_groupBy {A} (key : A -> string) (l : list A) :
  Permutation (flat_map snd (groupBy key l)) l.
Proof.
  rewrite flat_map_groupBy. apply Permutation_groups; [apply NoDup_firstSeen |].
  intros x Hx. apply In_firstSeen. now apply in_map.
Qed.

Lemma categoryPriority_indexMap : categoryPriority = indexMap foodCategoryPriority.
Proof. reflexivity. Qed.

Lemma NoDup_foodCategoryPriority : NoDup foodCategoryPriority.
Proof.
  apply NoDup_ListNoDup. unfold foodCategoryPriority.
  repeat (constructor; [simpl; intros H; repeat (destruct H as [H | H]; [discriminate H |]);
                        exact H |]).
  constructor.
Qed.

Lemma orderedCategoriesOf_byRank items :
  orderedCategoriesOf items
    = byRank foodCategoryPriority (firstSeen (map classifyFoodCategory items)).
Proof.
  unfold orderedCategoriesOf. cbv zeta.
  destruct (groupCategories_spec items) as (Ho & Hi & _).
  rewrite Hi, Ho, categoryPriority_indexMap.
  apply sortBy_byRank; [apply NoDup_foodCategoryPriority |].
  apply Rising_indexMap, NoDup_firstSeen.
Qed.

Lemma Permutation_industryCards entry : Permutation (industryCards entry) (snd entry).
Proof.
  unfold industryCards. destruct (String.eqb (fst entry) foodIndustry); [| reflexivity].
  destruct (groupCategories_spec (snd entry)) as (_ & _ & Hm).
  cbv zeta in Hm. rewrite Hm.
  rewrite (flat_map_ext _ (fun cat => List.filter
                             (fun x => String.eqb (classifyFoodCategory x) cat) (snd entry)))
    by (intros cat; apply mapGet_groupBy).
  assert (Hp : Permutation (orderedCategoriesOf (snd entry))
                 (firstSeen (map classifyFoodCategory (snd entry)))).
  { unfold orderedCategoriesOf. cbv zeta.
    destruct (groupCategories_spec (snd entry)) as (Ho & _ & _). cbv zeta in Ho.
    rewrite <- Ho. apply Permutation_sortBy. }
  apply Permutation_groups.
  - apply NoDup_ListNoDup. apply (Permutation_NoDup (Permutation_sym Hp)).
    apply NoDup_ListNoDup, NoDup_firstSeen.
  - intros x Hx. apply (Permutation_in _ (Permutation_sym Hp)).
    apply In_firstSeen. now apply in_map.
Qed.

End Cards.

(** X10: the sections hold every company once.  For every city, the
    industries of its entry are the industries of its companies in the order
    in which they are first seen, each with the companies of that city and
    industry in the order of the list.  The cards of all the sections, taken
    together, are the companies of the list, each once. *)
Theorem directory_groups_partition (cs : list Company) :
  let g := groupCompanies cs in
  (forall c, industries (cityEntryOf g c) = groupBy industryOf (companiesOf c cs)) /\
  (forall c i,
     default [] (mapGet i (industries (cityEntryOf g c)))
       = List.filter (fun x => String.eqb (cityOf x) c && String.eqb (industryOf x) i) cs) /\
  (forall c, mapKeys (industries (cityEntryOf g c))
               = firstSeen (map industryOf (companiesOf c cs))) /\
  Permutation (cardsInOrder g) cs.
Proof.
  intros g. subst g.
  refine (conj (industries_groupCompanies cs) (conj _ (conj _ _))).
  - intros c i. rewrite industries_groupCompanies, mapGet_groupBy.
    unfold companiesOf. induction cs as [|x l IH]; [reflexivity |]. cbn [List.filter].
    destruct (String.eqb (cityOf x) c); cbn [andb List.filter]; [| exact IH].
    destruct (String.eqb (industryOf x) i); now rewrite IH.
  - intros c. now rewrite industries_groupCompanies, mapKeys_groupBy.
  - unfold cardsInOrder.
    etransitivity.
    { apply Permutation_flat_map_pointwise. intros c _.
      etransitivity.
      - apply Permutation_flat_map_pointwise. intros entry _.
        apply Permutation_industryCards.
      - rewrite industries_groupCompanies. apply Permutation_groupBy. }
    rewrite orderedCities_groupCompanies.
    apply (Permutation_groups cityOf cs).
    + apply NoDup_pinnedFirst, NoDup_firstSeen.
    + intros x Hx. apply In_pinnedFirst, In_firstSeen. now apply in_map.
Qed.

(** X11: the food categories of a city.  The loop over the food companies
    groups them by [classifyFoodCategory]; the fallback category 其他 of the
    loop is never used, since the classifier never returns the empty string.
    The subgroups are rendered with the six known categories first, in their
    fixed order, and then the other categories in the order in which they are
    first seen; each subgroup holds the companies of its category in the order
    of the list. *)
Theorem food_categories_order (items : list Company) :
  let g := groupCategories items in
  orderedCategoriesOf items
    = byRank foodCategoryPriority (firstSeen (map classifyFoodCategory items)) /\
  categoryMap g = groupBy classifyFoodCategory items /\
  (forall cat,
     default [] (mapGet cat (categoryMap g))
       = List.filter (fun x => String.eqb (classifyFoodCategory x) cat) items) /\
  (forall x, orElse (classifyFoodCategory x) "其他" = classifyFoodCategory x) /\
  Permutation (industryCards (foodIndustry, items)) items.
Proof.
  intros g. subst g.
  destruct (groupCategories_spec items) as (_ & _ & Hm). cbv zeta in Hm.
  refine (conj (orderedCategoriesOf_byRank items) (conj Hm (conj _ (conj categoryOf_classify _)))).
  - intros cat. rewrite Hm. apply mapGet_groupBy.
  - apply (Permutation_industryCards (foodIndustry, items)).
Qed.

(** X12: the category buttons of a city.  [countCategories] maps every
    category that occurs among the food companies to the number of its
    companies, and has no other key.  So the filter bar of
    [buildCityToolsHtml] has a button for exactly those of the six known
    categories that occur, in their fixed order. *)
Theorem category_buttons (foodItems : list Company) :
  (forall cat,
     mapGet cat (countCategories foodItems) =
       if memb cat (map classifyFoodCategory foodItems)
       then Some (List.length
                    (List.filter (fun x => String.eqb (classifyFoodCategory x) cat) foodItems))
       else None) /\
  List.filter (fun cat => mapHas cat (countCategories foodItems)) foodCategoryPriority
    = List.filter (fun cat => memb cat (map classifyFoodCategory foodItems))
        foodCategoryPriority.
Proof.
  assert (Hget : forall cat,
     mapGet cat (countCategories foodItems) =
       if memb cat (map classifyFoodCategory foodItems)
       then Some (List.length
                    (List.filter (fun x => String.eqb (classifyFoodCategory x) cat) foodItems))
       else None).
  { intros cat. rewrite countCategories_spec.
    assert (Hm : memb cat (map classifyFoodCategory foodItems)
                 = memb cat (firstSeen (map classifyFoodCategory foodItems))).
    { destruct (memb cat (firstSeen (map classifyFoodCategory foodItems))) eqn:M.
      - apply memb_In. apply memb_In in M. exact (proj1 (In_firstSeen _ _) M).
      - apply memb_false. apply memb_false in M. intros H. apply M, In_firstSeen, H. }
    rewrite Hm. generalize (firstSeen (map classifyFoodCategory foodItems)) as keys.
    induction keys as [|k keys IH]; [reflexivity |].
    unfold memb in *. cbn [map mapGet existsb].
    destruct (String.eqb cat k) eqn:E; cbn [orb]; [| exact IH].
    apply String.eqb_eq in E. now subst. }
  split; [exact Hget |].
  apply filter_ext. intros cat. unfold mapHas. rewrite Hget.
  now destruct (memb cat (map classifyFoodCategory foodItems)).
Qed.

(* ===================================================================== *)
(** ** Characters, [trim] and bytes *)
(* ===================================================================== *)

Section Characters.

Lemma joinStrings_cons t l : joinStrings (t :: l) = t +:+ joinStrings l.
Proof. reflexivity. Qed.

Lemma joinStrings_app l1 l2 : joinStrings (l1 ++ l2) = joinStrings l1 +:+ joinStrings l2.
Proof.
  induction l1 as [|t l1 IH]; cbn [app].
  - change (joinStrings []) with EmptyString. now rewrite append_nil_l.
  - rewrite !joinStrings_cons, IH. now rewrite append_assoc.
Qed.

Lemma chars_cons2 c d s :
  chars (String c (String d s)) =
  if isContinuation d then
    match chars (String d s) with
    | t :: r => String c t :: r
    | [] => [String c EmptyString]
    end
  else String c EmptyString :: chars (String d s).
Proof. reflexivity. Qed.

(** The shape of [chars s]. *)
Lemma chars_shape s :
  match s with
  | EmptyString => chars s = []
  | String c _ =>
      exists conts r,
        chars s = String c conts :: r /\ allBytes isContinuation conts = true /\
        Forall (fun u => isToken u = true /\ startsFresh u = true) r
  end.
Proof.
  induction s as [|c s IH]; [reflexivity |].
  destruct s as [|d s'].
  - exists EmptyString, []. repeat split. constructor.
  - destruct IH as (conts & r & Hc & Ha & Hr).
    rewrite chars_cons2, Hc.
    destruct (isContinuation d) eqn:Ed.
    + exists (String d conts), r. repeat split; [| exact Hr].
      cbn [allBytes]. now rewrite Ed, Ha.
    + exists EmptyString, (String d conts :: r). repeat split.
      constructor; [| exact Hr]. cbn [isToken startsFresh]. now rewrite Ha, Ed.
Qed.

Lemma Tokens_chars s : Tokens (chars s).
Proof.
  pose proof (chars_shape s) as H. destruct s as [|c s]; [now rewrite H |].
  destruct H as (conts & r & -> & Ha & Hr). split; [exact Ha | exact Hr].
Qed.

Lemma joinStrings_chars s : joinStrings (chars s) = s.
Proof.
  induction s as [|c s IH]; [reflexivity |].
  destruct s as [|d s']; [reflexivity |].
  rewrite chars_cons2.
  destruct (isContinuation d).
  - destruct (chars (String d s')) as [|t r] eqn:E.
    + simpl in IH. discriminate.
    + rewrite joinStrings_cons in *. rewrite append_cons. now rewrite IH.
  - rewrite joinStrings_cons, IH. reflexivity.
Qed.

(** A character followed by a text that starts a new character. *)
Lemma chars_token conts : forall c rest,
  allBytes isContinuation conts = true ->
  match rest with EmptyString => True | String d _ => isContinuation d = false end ->
  chars (String c (conts +:+ rest)) = String c conts :: chars rest.
Proof.
  induction conts as [|e conts IH]; intros c rest Ha Hrest.
  - rewrite append_nil_l. destruct rest as [|d rest']; [reflexivity |].
    rewrite chars_cons2. now rewrite Hrest.
  - cbn [allBytes] in Ha. apply andb_true_iff in Ha as [He Ha].
    rewrite append_cons, chars_cons2.
    rewrite He, (IH e rest Ha Hrest). reflexivity.
Qed.

Lemma joinStrings_fresh r :
  Forall (fun u => isToken u = true /\ startsFresh u = true) r ->
  match joinStrings r with EmptyString => True | String d _ => isContinuation d = false end.
Proof.
  intros H. destruct H as [|u r [Hu Hf] _]; [exact I |].
  destruct u as [|d u']; [discriminate |]. rewrite joinStrings_cons, append_cons.
  cbn [startsFresh] in Hf. now apply negb_true_iff in Hf.
Qed.

(** Characters that are joined and split again are the same characters. *)
Lemma chars_joinStrings l : Tokens l -> chars (joinStrings l) = l.
Proof.
  assert (Hrest : forall r, Forall (fun u => isToken u = true /\ startsFresh u = true) r ->
            chars (joinStrings r) = r).
  { induction 1 as [|u r [Hu Hf] Hr IH]; [reflexivity |].
    destruct u as [|c conts]; [discriminate |]. rewrite joinStrings_cons, append_cons.
    rewrite chars_token; [now rewrite IH | exact Hu | now apply joinStrings_fresh]. }
  destruct l as [|t r]; [reflexivity |]. intros [Ht Hr].
  destruct t as [|c conts]; [discriminate |]. rewrite joinStrings_cons, append_cons.
  rewrite chars_token; [now rewrite Hrest | exact Ht | now apply joinStrings_fresh].
Qed.

Lemma Tokens_suffix l1 l2 : Tokens (l1 ++ l2) -> Tokens l2.
Proof.
  destruct l1 as [|t l1]; [trivial |]. intros [_ H]. apply Forall_app in H as [_ H].
  destruct H as [|u r [Hu _] Hr]; [exact I |]. split; [exact Hu | exact Hr].
Qed.

Lemma Tokens_prefix l1 l2 : Tokens (l1 ++ l2) -> Tokens l1.
Proof.
  destruct l1 as [|t l1]; [intros _; exact I |]. intros [Ht H].
  apply Forall_app in H as [H _]. split; assumption.
Qed.

Lemma dropWhile_suffix {A} (p : A -> bool) l : exists l1, l = l1 ++ dropWhile p l.
Proof.
  induction l as [|x l [l1 IH]]; [now exists [] |]. simpl.
  destruct (p x); [| now exists []]. exists (x :: l1). simpl. now f_equal.
Qed.

Lemma dropWhileEnd_prefix {A} (p : A -> bool) l : exists l2, l = dropWhileEnd p l ++ l2.
Proof.
  unfold dropWhileEnd. destruct (dropWhile_suffix p (rev l)) as [l1 H].
  exists (rev l1). rewrite <- rev_app_distr, <- H. now rewrite rev_involutive.
Qed.

Lemma dropWhile_head {A} (p : A -> bool) l :
  match dropWhile p l with [] => True | x :: _ => p x = false end.
Proof.
  induction l as [|x l IH]; simpl; [exact I |].
  destruct (p x) eqn:E; [exact IH | exact E].
Qed.

Lemma dropWhile_id {A} (p : A -> bool) l :
  match l with [] => True | x :: _ => p x = false end -> dropWhile p l = l.
Proof. destruct l as [|x l]; [reflexivity |]. simpl. now intros ->. Qed.

Lemma dropWhile_app_last {A} (p : A -> bool) l x :
  p x = false -> dropWhile p (l ++ [x]) = dropWhile p l ++ [x].
Proof.
  intros Hx. induction l as [|y l IH]; simpl; [now rewrite Hx |].
  destruct (p y); [exact IH | reflexivity].
Qed.

(** Trimming the end keeps a first element that is not trimmed. *)
Lemma dropWhileEnd_cons {A} (p : A -> bool) x l :
  p x = false -> dropWhileEnd p (x :: l) = x :: dropWhileEnd p l.
Proof.
  intros Hx. unfold dropWhileEnd. cbn [rev]. rewrite dropWhile_app_last by exact Hx.
  rewrite rev_app_distr. reflexivity.
Qed.

Lemma dropWhileEnd_idem {A} (p : A -> bool) l :
  dropWhileEnd p (dropWhileEnd p l) = dropWhileEnd p l.
Proof.
  unfold dropWhileEnd. rewrite rev_involutive. f_equal.
  apply dropWhile_id, dropWhile_head.
Qed.

(** What [trim] keeps, as characters. *)
Lemma chars_trim s :
  chars (trim s) = dropWhileEnd isSpace (dropWhile isSpace (chars s)).
Proof.
  unfold trim. apply chars_joinStrings.
  destruct (dropWhileEnd_prefix isSpace (dropWhile isSpace (chars s))) as [l2 H2].
  destruct (dropWhile_suffix isSpace (chars s)) as [l1 H1].
  apply (Tokens_prefix _ l2). rewrite <- H2. apply (Tokens_suffix l1). rewrite <- H1.
  apply Tokens_chars.
Qed.

(** [trim] changes nothing in a trimmed string. *)
Lemma trim_idem s : trim (trim s) = trim s.
Proof.
  unfold trim at 1. rewrite chars_trim.
  set (l := dropWhile isSpace (chars s)).
  assert (Hhead : dropWhile isSpace (dropWhileEnd isSpace l) = dropWhileEnd isSpace l).
  { apply dropWhile_id. pose proof (dropWhile_head isSpace (chars s)) as H. fold l in H.
    destruct l as [|x l']; [exact I |]. now rewrite dropWhileEnd_cons. }
  now rewrite Hhead, dropWhileEnd_idem.
Qed.

(** A string without white space at either end is its own [trim]. *)
Lemma trim_id s :
  match chars s with [] => True | t :: _ => isSpace t = false end ->
  match rev (chars s) with [] => True | t :: _ => isSpace t = false end ->
  trim s = s.
Proof.
  intros Hfirst Hlast. unfold trim. rewrite (dropWhile_id _ _ Hfirst).
  unfold dropWhileEnd. rewrite (dropWhile_id _ _ Hlast), rev_involutive.
  apply joinStrings_chars.
Qed.

Lemma trim_no_space s : Forall (fun t => isSpace t = false) (chars s) -> trim s = s.
Proof.
  intros H. apply trim_id.
  - destruct H; [exact I | assumption].
  - apply Forall_rev in H. destruct H; [exact I | assumption].
Qed.

(** The characters of a text that is followed by a text starting a new
    character. *)
Lemma chars_app a b :
  match b with EmptyString => True | String d _ => isContinuation d = false end ->
  chars (a +:+ b) = chars a ++ chars b.
Proof.
  intros Hb. rewrite <- (joinStrings_chars a) at 1.
  pose proof (Tokens_chars a) as Ha. revert Ha. generalize (chars a) as l.
  assert (Hrest : forall r, Forall (fun u => isToken u = true /\ startsFresh u = true) r ->
            chars (joinStrings r +:+ b) = r ++ chars b /\
            match joinStrings r +:+ b with
            | EmptyString => True
            | String d _ => isContinuation d = false
            end).
  { induction 1 as [|u r [Hu Hf] Hr [IH1 IH2]].
    - now rewrite append_nil_l.
    - destruct u as [|c conts]; [discriminate |].
      rewrite joinStrings_cons, append_assoc, append_cons. split.
      + rewrite chars_token; [now rewrite IH1 | exact Hu | exact IH2].
      + cbn [startsFresh] in Hf. now apply negb_true_iff in Hf. }
  intros [|t r]; [intros _; now rewrite append_nil_l |]. intros [Ht Hr].
  destruct t as [|c conts]; [discriminate |].
  rewrite joinStrings_cons, append_assoc, append_cons.
  destruct (Hrest r Hr) as [H1 H2].
  rewrite chars_token; [now rewrite H1 | exact Ht | exact H2].
Qed.

(** A string of bytes below 128 has one character for each byte. *)
Lemma chars_single_bytes s :
  allBytes (fun c => negb (isContinuation c)) s = true ->
  chars s = map (fun c => String c EmptyString) (list_ascii_of_string s).
Proof.
  induction s as [|c s IH]; [reflexivity |]. cbn [allBytes]. intros H.
  apply andb_true_iff in H as [_ H]. specialize (IH H).
  destruct s as [|d s']; [reflexivity |].
  rewrite chars_cons2. cbn [allBytes] in H.
  apply andb_true_iff in H as [Hd _]. apply negb_true_iff in Hd. rewrite Hd, IH. reflexivity.
Qed.

Lemma allBytes_impl (p q : ascii -> bool) s :
  (forall c, p c = true -> q c = true) -> allBytes p s = true -> allBytes q s = true.
Proof.
  intros Hpq. induction s as [|c s IH]; [reflexivity |]. cbn [allBytes]. intros H.
  apply andb_true_iff in H as [Hc Hs]. now rewrite (Hpq c Hc), IH.
Qed.

Lemma allBytes_app p a b : allBytes p (a +:+ b) = allBytes p a && allBytes p b.
Proof.
  induction a as [|c a IH]; [now rewrite append_nil_l |].
  rewrite append_cons. cbn [allBytes]. now rewrite IH, andb_assoc.
Qed.

Lemma allBytes_charIn p s c : allBytes p s = true -> p c = false -> charIn c s = false.
Proof.
  intros Ha Hc. induction s as [|d s IH]; [reflexivity |]. cbn [allBytes charIn] in *.
  apply andb_true_iff in Ha as [Hd Hs]. rewrite (IH Hs), orb_false_r.
  destruct (Ascii.eqb d c) eqn:E; [| reflexivity].
  apply Ascii.eqb_eq in E. congruence.
Qed.

End Characters.

(* ===================================================================== *)
(** ** Slugs and encoded links *)
(* ===================================================================== *)

Section Slugs.

Lemma collapseRuns_dashesApart s : forall b, dashesApart b (collapseRuns b s) = true.
Proof.
  induction s as [|c s IH]; intros b; [reflexivity |]. cbn [collapseRuns].
  destruct (isSlugChar c) eqn:Ec.
  - cbn [dashesApart]. rewrite Ec. apply IH.
  - destruct b; [apply IH |]. cbn [dashesApart].
    change (isSlugChar "-"%char) with false. cbn iota.
    change (Ascii.eqb "-"%char "-"%char) with true. cbn [andb negb]. apply IH.
Qed.

Lemma dropLeadingDash_dashesApart s :
  dashesApart false s = true -> dashesApart true (dropLeadingDash s) = true.
Proof.
  destruct s as [|c s]; [reflexivity |]. cbn [dashesApart].
  destruct (isSlugChar c) eqn:Ec.
  - intros H. assert (Hd : dropLeadingDash (String c s) = String c s).
    { unfold dropLeadingDash. destruct c as [[] [] [] [] [] [] [] []]; try reflexivity.
      discriminate Ec. }
    rewrite Hd. cbn [dashesApart]. now rewrite Ec.
  - intros H. apply andb_true_iff in H as [H Hs]. apply andb_true_iff in H as [H _].
    apply Ascii.eqb_eq in H. subst c. exact Hs.
Qed.

Lemma dropTrailingDash_cons c d s :
  dropTrailingDash (String c (String d s)) = String c (dropTrailingDash (String d s)).
Proof. reflexivity. Qed.

Lemma dropTrailingDash_spec s : forall b,
  dashesApart b s = true ->
  dashesApart b (dropTrailingDash s) = true /\ endsWithDash (dropTrailingDash s) = false.
Proof.
  induction s as [|c s IH]; intros b H; [now split |].
  destruct s as [|d s'].
  - cbn [dropTrailingDash]. destruct (Ascii.eqb c "-"%char) eqn:E; [now split |].
    split; [exact H |]. cbn [endsWithDash]. exact E.
  - rewrite dropTrailingDash_cons. cbn [dashesApart] in H |- *.
    destruct (isSlugChar c) eqn:Ec.
    + destruct (IH false H) as [H1 H2]. split; [exact H1 |].
      destruct (dropTrailingDash (String d s')) as [|e r] eqn:Er; [| exact H2].
      cbn [endsWithDash]. destruct (Ascii.eqb c "-"%char) eqn:E; [| reflexivity].
      apply Ascii.eqb_eq in E. subst c. discriminate Ec.
    + apply andb_true_iff in H as [Hc Hs]. destruct (IH true Hs) as [H1 H2].
      rewrite Hc, H1. split; [reflexivity |].
      destruct (dropTrailingDash (String d s')) as [|e r] eqn:Er; [| exact H2].
      (* the dash would be the last byte: after it [d] is not a dash, so
         something is left *)
      exfalso. cbn [dashesApart] in Hs. cbn [dropTrailingDash] in Er.
      destruct s' as [|e' s''].
      * destruct (Ascii.eqb d "-"%char) eqn:Ed; [| discriminate Er].
        apply Ascii.eqb_eq in Ed. subst d. discriminate Hs.
      * discriminate Er.
Qed.

(** The shape of every slug. *)
Lemma slugifyAscii_shape value :
  dashesApart true (slugifyAscii value) = true /\ endsWithDash (slugifyAscii value) = false.
Proof.
  unfold slugifyAscii. apply dropTrailingDash_spec, dropLeadingDash_dashesApart,
    collapseRuns_dashesApart.
Qed.

Lemma dashesApart_bytes s : forall b, dashesApart b s = true -> allBytes isSlugByte s = true.
Proof.
  induction s as [|c s IH]; intros b H; [reflexivity |]. cbn [dashesApart allBytes] in *.
  unfold isSlugByte at 1. destruct (isSlugChar c).
  - cbn [orb andb]. now apply (IH false).
  - apply andb_true_iff in H as [H Hs]. apply andb_true_iff in H as [H _].
    rewrite H. cbn [orb andb]. now apply (IH true).
Qed.

Lemma dashesApart_weaken s : dashesApart true s = true -> dashesApart false s = true.
Proof.
  destruct s as [|c s]; [reflexivity |]. cbn [dashesApart].
  destruct (isSlugChar c); [trivial |]. intros H.
  apply andb_true_iff in H as [H _]. apply andb_true_iff in H as [_ H]. discriminate H.
Qed.

Lemma dashesApart_no_pair s : forall b, dashesApart b s = true -> findSub "--" s = None.
Proof.
  induction s as [|c s IH]; intros b H; [reflexivity |].
  cbn [dashesApart] in H. cbn [findSub].
  assert (Hstrip : stripPrefix "--" (String c s) = None).
  { cbn [stripPrefix]. destruct (Ascii.eqb "-"%char c) eqn:Ec; [| reflexivity].
    apply Ascii.eqb_eq in Ec. subst c. change (isSlugChar "-"%char) with false in H.
    cbn iota in H. apply andb_true_iff in H as [_ Hs].
    destruct s as [|d s']; [reflexivity |]. cbn [dashesApart] in Hs.
    destruct (Ascii.eqb "-"%char d) eqn:Ed; [| reflexivity].
    apply Ascii.eqb_eq in Ed. subst d. discriminate Hs. }
  rewrite Hstrip.
  assert (Hrest : findSub "--" s = None).
  { destruct (isSlugChar c); [now apply (IH false) |].
    apply andb_true_iff in H as [_ Hs]. now apply (IH true). }
  now rewrite Hrest.
Qed.

Lemma isSlugChar_ascii c : isSlugByte c = true -> isContinuation c = false /\ isUpperAscii c = false.
Proof.
  unfold isSlugByte, isSlugChar, isLowerAscii, isDigitAscii, isContinuation, isUpperAscii.
  intros H. apply orb_true_iff in H as [H | H].
  - apply orb_true_iff in H as [H | H]; apply andb_true_iff in H as [H1 H2];
      apply Nat.leb_le in H1, H2; split; apply andb_false_iff.
    + left. apply Nat.leb_gt. lia.
    + right. apply Nat.leb_gt. lia.
    + left. apply Nat.leb_gt. lia.
    + left. apply Nat.leb_gt. lia.
  - apply Ascii.eqb_eq in H. subst c. split; reflexivity.
Qed.

(** Lowering the case changes nothing in a string of lower-case letters,
    digits and dashes. *)
Lemma toLowerCase_slug s : allBytes isSlugByte s = true -> toLowerCase s = s.
Proof.
  intros H. unfold toLowerCase.
  assert (Hc : chars s = map (fun c => String c EmptyString) (list_ascii_of_string s)).
  { apply chars_single_bytes. revert H. apply allBytes_impl. intros c Hc.
    now rewrite (proj1 (isSlugChar_ascii c Hc)). }
  rewrite Hc. clear Hc. induction s as [|c s IH]; [reflexivity |].
  cbn [allBytes] in H. apply andb_true_iff in H as [Hc Hs].
  cbn [list_ascii_of_string map]. rewrite joinStrings_cons, (IH Hs).
  unfold lowerChar. now rewrite (proj2 (isSlugChar_ascii c Hc)).
Qed.

Lemma collapseRuns_id s : forall b, dashesApart b s = true -> collapseRuns b s = s.
Proof.
  induction s as [|c s IH]; intros b H; [reflexivity |].
  cbn [dashesApart collapseRuns] in *. destruct (isSlugChar c).
  - now rewrite (IH false).
  - apply andb_true_iff in H as [H Hs]. apply andb_true_iff in H as [Hc Hb].
    apply negb_true_iff in Hb. subst b. apply Ascii.eqb_eq in Hc. subst c.
    now rewrite (IH true).
Qed.

Lemma dropLeadingDash_id s : dashesApart true s = true -> dropLeadingDash s = s.
Proof.
  destruct s as [|c s]; [reflexivity |]. cbn [dashesApart].
  destruct (isSlugChar c) eqn:Ec.
  - intros _. unfold dropLeadingDash. destruct c as [[] [] [] [] [] [] [] []]; try reflexivity.
    discriminate Ec.
  - intros H. apply andb_true_iff in H as [H _]. apply andb_true_iff in H as [_ H].
    discriminate H.
Qed.

Lemma dropTrailingDash_id s : endsWithDash s = false -> dropTrailingDash s = s.
Proof.
  induction s as [|c s IH]; [reflexivity |]. destruct s as [|d s'].
  - cbn [endsWithDash dropTrailingDash]. now intros ->.
  - intros H. rewrite dropTrailingDash_cons. f_equal. apply IH. exact H.
Qed.

End Slugs.

(** X13: the shape of a slug.  Whatever the value, [slugifyAscii] returns a
    string of lower-case letters of [a-z], digits and dashes that neither
    starts nor ends with a dash and in which no dash follows another.  So an
    id made by [cityId] needs no escaping: it has no quote, no angle bracket,
    no ampersand and no space. *)
Theorem slugifyAscii_alphabet (value : option string) :
  let out := slugifyAscii value in
  allBytes isSlugByte out = true /\
  startsWith "-" out = false /\
  endsWithDash out = false /\
  findSub "--" out = None /\
  (forall c index,
     In c [chDq; chSq; chLt; chGt; chAmp; " "%char] ->
     charIn c (cityId (stringOf value) index) = false).
Proof.
  intros out. subst out. destruct (slugifyAscii_shape value) as [Hd He].
  assert (Hb : allBytes isSlugByte (slugifyAscii value) = true)
    by now apply (dashesApart_bytes _ true).
  refine (conj Hb (conj _ (conj He (conj _ _)))).
  - destruct (slugifyAscii value) as [|c s]; [reflexivity |].
    unfold startsWith. cbn [stripPrefix]. destruct (Ascii.eqb "-"%char c) eqn:E; [| reflexivity].
    apply Ascii.eqb_eq in E. subst c. discriminate Hd.
  - now apply (dashesApart_no_pair _ true).
  - intros c index Hc. unfold cityId.
    assert (Hnot : isSlugByte c = false).
    { repeat (destruct Hc as [<- | Hc]; [reflexivity |]). contradiction. }
    assert (Hv : slugifyAscii (Some (stringOf value)) = slugifyAscii value) by reflexivity.
    rewrite Hv.
    destruct (isEmpty (slugifyAscii value)); cbn [negb]; rewrite charIn_app.
    + assert (Hnum : charIn c (showNat (index + 1)) = false).
      { unfold showNat. generalize (Nat.to_uint (index + 1)) as u.
        assert (Hd' : forall d, charIn c (NilEmpty.string_of_uint d) = false).
        { induction d as [| d IH | d IH | d IH | d IH | d IH | d IH | d IH | d IH | d IH | d IH];
            cbn [NilEmpty.string_of_uint charIn]; rewrite ?IH, ?orb_false_r;
            try reflexivity;
            repeat (destruct Hc as [<- | Hc]; [reflexivity |]); contradiction. }
        exact Hd'. }
      rewrite Hnum, orb_false_r.
      repeat (destruct Hc as [<- | Hc]; [reflexivity |]). contradiction.
    + rewrite (allBytes_charIn _ _ c Hb Hnot), orb_false_r.
      repeat (destruct Hc as [<- | Hc]; [reflexivity |]). contradiction.
Qed.

(** X14: a slug is its own slug: [slugifyAscii] applied to one of its
    results returns it unchanged. *)
Theorem slugifyAscii_idempotent (value : option string) :
  slugifyAscii (Some (slugifyAscii value)) = slugifyAscii value.
Proof.
  destruct (slugifyAscii_shape value) as [Hd He].
  set (out := slugifyAscii value) in *.
  unfold slugifyAscii. cbn [stringOf default from_option id].
  rewrite toLowerCase_slug by now apply (dashesApart_bytes _ true).
  rewrite collapseRuns_id by now apply dashesApart_weaken.
  rewrite dropLeadingDash_id by exact Hd.
  now apply dropTrailingDash_id.
Qed.

(* ===================================================================== *)
(** ** Encoded ids, covers and links *)
(* ===================================================================== *)

Section Encoding.

Lemma code_bounded c : (code c < 256)%nat.
Proof. apply nat_ascii_bounded. Qed.



Lemma hexDigit_unreserved n : (n < 16)%nat -> isUnreserved (hexDigit n) = true.
Proof.
  intros H. do 16 (destruct n as [|n]; [reflexivity |]). lia.
Qed.

Lemma encodeURIComponent_cons c s :
  encodeURIComponent (String c s) =
  if isUnreserved c then String c (encodeURIComponent s)
  else String "%"%char
         (String (hexDigit (code c / 16))
            (String (hexDigit (code c mod 16)) (encodeURIComponent s))).
Proof. reflexivity. Qed.

Lemma encodeURIComponent_bytes s : allBytes isUriByte (encodeURIComponent s) = true.
Proof.
  induction s as [|c s IH]; [reflexivity |]. rewrite encodeURIComponent_cons.
  destruct (isUnreserved c) eqn:Ec; cbn [allBytes].
  - unfold isUriByte at 1. now rewrite Ec, IH.
  - rewrite IH. unfold isUriByte.
    rewrite !hexDigit_unreserved.
    + reflexivity.
    + apply Nat.mod_upper_bound. lia.
    + apply Nat.Div0.div_lt_upper_bound. pose proof (code_bounded c). lia.
Qed.


Lemma encodeURIComponent_unreserved s :
  allBytes isUnreserved s = true -> encodeURIComponent s = s.
Proof.
  induction s as [|c s IH]; [reflexivity |]. rewrite encodeURIComponent_cons.
  cbn [allBytes]. intros H. apply andb_true_iff in H as [Hc Hs]. now rewrite Hc, IH.
Qed.


End Encoding.

Section Patterns.

Lemma matchAll_spec ts : forall r, matchAll r ts = true <-> Matches r ts.
Proof.
  induction ts as [|t ts IH]; intros r; cbn [matchAll].
  - apply nullable_Matches.
  - rewrite IH. apply deriv_Matches.
Qed.

Lemma Matches_star_chars p ts :
  Matches (RStar (RChar p)) ts <-> Forall (fun t => p t = true) ts.
Proof.
  split.
  - induction ts as [|t w IH]; intros H; [constructor |].
    apply Matches_star_cons in H as (u & v & -> & Hc & Hs).
    apply Matches_char_inv in Hc as (t' & Ht & Hp). injection Ht as <- ->.
    constructor; [exact Hp | now apply IH].
  - induction 1 as [|t w Ht Hw IH]; [constructor |].
    apply (MStarApp (RChar p) [t] w); [now constructor | exact IH].
Qed.

(** One or more characters of a class. *)
Lemma Matches_plus_chars p ts :
  Matches (RSeq (RChar p) (RStar (RChar p))) ts <->
  ts <> [] /\ Forall (fun t => p t = true) ts.
Proof.
  split.
  - intros H. apply Matches_seq_inv in H as (u & v & -> & Hu & Hv).
    apply Matches_char_inv in Hu as (t & -> & Hp). apply Matches_star_chars in Hv.
    split; [discriminate |]. constructor; assumption.
  - intros [Hne H]. destruct H as [|t w Ht Hw]; [congruence |].
    apply (MSeq (RChar p) (RStar (RChar p)) [t] w); [now constructor |].
    now apply Matches_star_chars.
Qed.

Lemma coverChars_bytes l :
  Forall (fun t => isCoverChar t = true) l -> allBytes isCoverByte (joinStrings l) = true.
Proof.
  induction 1 as [|t l Ht Hl IH]; [reflexivity |].
  rewrite joinStrings_cons, allBytes_app, IH, andb_true_r.
  destruct t as [|c [|d t']]; try discriminate Ht.
  cbn [allBytes]. unfold isCoverByte. now rewrite Ht.
Qed.

(** A literal with the [i] flag matches character by character. *)
Lemma Matches_litI s u :
  Matches (litI s) u -> Forall2 (fun x t => canonChar x = canonChar t) u (chars s).
Proof.
  unfold litI. revert u. induction (chars s) as [|t l IH]; intros u H; cbn [foldr] in H.
  - inversion H. constructor.
  - apply Matches_seq_inv in H as (a & b & -> & Ha & Hb).
    apply Matches_char_inv in Ha as (x & -> & Hx). apply String.eqb_eq in Hx.
    constructor; [exact Hx | now apply IH].
Qed.

Lemma not_urlChar x :
  isUrlChar x = false -> In x (jsWhitespace ++ [dq; "'"; "<"; ">"]).
Proof.
  unfold isUrlChar, isSpace. intros H. apply negb_false_iff in H.
  rewrite <- existsb_app in H. apply existsb_exists in H as (y & Hy & E).
  apply String.eqb_eq in E. now subst.
Qed.

(** The characters of the scheme and of [://] are in the class of
    [sanitizeUrl], in either case. *)
Lemma scheme_urlChars s u :
  In s ["http"; "s"; "://"] -> Matches (litI s) u ->
  Forall (fun x => isUrlChar x = true) u.
Proof.
  intros Hs H. apply Matches_litI in H.
  assert (Hok : forall t, In t (chars s) ->
            In (canonChar t) ["H"; "T"; "P"; "S"; ":"; "/"]).
  { repeat (destruct Hs as [<- | Hs];
            [intros t Ht; cbn in Ht; repeat (destruct Ht as [<- | Ht]; [cbn; tauto |]);
             contradiction |]).
    contradiction. }
  clear Hs. induction H as [|x t u l Hx Hl IH]; [constructor |].
  constructor.
  - destruct (isUrlChar x) eqn:E; [reflexivity |]. exfalso.
    apply not_urlChar in E. specialize (Hok t (or_introl eq_refl)). rewrite <- Hx in Hok.
    cbn in E. repeat (destruct E as [<- | E]; [cbn in Hok; intuition discriminate |]).
    contradiction.
  - apply IH. intros t' Ht'. apply Hok. now right.
Qed.

Lemma Matches_httpRe u : Matches httpRe u -> Forall (fun x => isUrlChar x = true) u.
Proof.
  unfold httpRe. intros H.
  apply Matches_seq_inv in H as (a & b & -> & Ha & Hb).
  apply Matches_seq_inv in Hb as (c & d & -> & Hc & Hd).
  apply Forall_app. split; [apply (scheme_urlChars "http"); [cbn; tauto | exact Ha] |].
  apply Forall_app. split; [| apply (scheme_urlChars "://"); [cbn; tauto | exact Hd]].
  apply Matches_alt_inv in Hc as [Hc | Hc].
  - apply (scheme_urlChars "s"); [cbn; tauto | exact Hc].
  - inversion Hc. constructor.
Qed.

End Patterns.


(** X16: a cover that passes [sanitizeCover].  The result is the empty
    string or the trimmed value, and all its bytes are letters, digits or one
    of the five characters dash, underscore, dot, slash and colon: it
    holds no quote, parenthesis, space, angle bracket, backslash or semicolon
    that could end the [url('...')] or the style attribute it is written
    into.  Sanitizing a result again returns it unchanged. *)
Theorem sanitizeCover_safe (value : option string) :
  let out := sanitizeCover value in
  (out = EmptyString \/ out = trim (stringOf value)) /\
  allBytes isCoverByte out = true /\
  (forall c,
     In c [chDq; chSq; "("%char; ")"%char; " "%char; chLt; chGt; chBackslash; ";"%char] ->
     charIn c out = false) /\
  sanitizeCover (Some out) = out.
Proof.
  intros out. unfold sanitizeCover in out.
  destruct (isEmpty (trim (stringOf value))) eqn:Ee.
  { subst out. repeat split; auto. }
  destruct (matchAll coverRe (chars (trim (stringOf value)))) eqn:Em; cbn [negb] in out;
    subst out.
  2:{ repeat split; auto. }
  assert (Hb : allBytes isCoverByte (trim (stringOf value)) = true).
  { apply matchAll_spec, Matches_plus_chars in Em as [_ Hf].
    rewrite <- (joinStrings_chars (trim (stringOf value))). now apply coverChars_bytes. }
  refine (conj (or_intror eq_refl) (conj Hb (conj _ _))).
  - intros c Hc. apply (allBytes_charIn isCoverByte); [exact Hb |].
    repeat (destruct Hc as [<- | Hc]; [reflexivity |]). contradiction.
  - unfold sanitizeCover. cbn [stringOf default from_option id].
    now rewrite trim_idem, Ee, Em.
Qed.

(** X17: a link that passes [sanitizeUrl].  The result is the empty string
    or the trimmed value; none of its characters is white space, a quote or
    an angle bracket; when it is not empty it starts with [http://] or
    [https://], in either case.  Sanitizing a result again returns it
    unchanged. *)
Theorem sanitizeUrl_safe (value : option string) :
  let out := sanitizeUrl value in
  (out = EmptyString \/ out = trim (stringOf value)) /\
  Forall (fun t => isUrlChar t = true) (chars out) /\
  (out <> EmptyString -> isHttpUrl (Some out) = true) /\
  sanitizeUrl (Some out) = out.
Proof.
  intros out. unfold sanitizeUrl in out.
  destruct (isEmpty (trim (stringOf value))) eqn:Ee.
  { subst out. repeat split; auto; constructor. }
  destruct (matchAll urlRe (chars (trim (stringOf value)))) eqn:Em; cbn [negb] in out;
    subst out.
  2:{ repeat split; auto; constructor. }
  pose proof Em as Hm. apply matchAll_spec in Hm. unfold urlRe in Hm.
  apply Matches_seq_inv in Hm as (u & v & Huv & Hu & Hv).
  apply Matches_plus_chars in Hv as [_ Hv].
  refine (conj (or_intror eq_refl) (conj _ (conj _ _))).
  - rewrite Huv. apply Forall_app. split; [now apply Matches_httpRe | exact Hv].
  - intros _. unfold isHttpUrl, fieldOr, orElse. rewrite Ee.
    apply matchPrefix_spec. exists u, v. split; assumption.
  - unfold sanitizeUrl. cbn [stringOf default from_option id].
    now rewrite trim_idem, Ee, Em.
Qed.

(* ===================================================================== *)
(** ** Covers and local photos *)
(* ===================================================================== *)

Section Photos.

Variable env : Env.

Lemma getLocalPlacePhoto_trim placeId index :
  getLocalPlacePhoto env (trim placeId) index = getLocalPlacePhoto env placeId index.
Proof. unfold getLocalPlacePhoto. now rewrite trim_idem. Qed.

(** The address of a local photo has no white space at its ends. *)
Lemma trim_photo_url safeId :
  trim ("/image/place-photos/" +:+ safeId +:+ ".jpg")
    = "/image/place-photos/" +:+ safeId +:+ ".jpg".
Proof.
  apply trim_id.
  - change ("/image/place-photos/" +:+ safeId +:+ ".jpg")
      with (String "/" (String "i" ("mage/place-photos/" +:+ safeId +:+ ".jpg"))).
    rewrite chars_cons2. reflexivity.
  - rewrite <- append_assoc, chars_app by reflexivity.
    rewrite rev_app_distr. reflexivity.
Qed.

Lemma sanitizeCover_local placeId url :
  getLocalPlacePhoto env placeId 0 = Some url ->
  sanitizeCover (Some url) = EmptyString \/ sanitizeCover (Some url) = url.
Proof.
  unfold getLocalPlacePhoto. destruct (isEmpty (trim placeId)); [discriminate |].
  cbn [Nat.ltb Nat.leb]. destruct (photoExists env (trim placeId +:+ ".jpg")); [| discriminate].
  intros [= <-]. unfold sanitizeCover. cbn [stringOf default from_option id].
  rewrite trim_photo_url.
  destruct (isEmpty ("/image/place-photos/" +:+ trim placeId +:+ ".jpg")); [now left |].
  destruct (negb (matchAll coverRe (chars ("/image/place-photos/" +:+ trim placeId +:+ ".jpg"))));
    [now left | now right].
Qed.

Lemma scanPhotos_spec safeId fuel : forall i,
  let n := scanPhotos env safeId i fuel in
  (n <= fuel)%nat /\
  (forall j, (j < n)%nat -> getLocalPlacePhoto env safeId (i + j) <> None) /\
  ((n < fuel)%nat -> getLocalPlacePhoto env safeId (i + n) = None).
Proof.
  induction fuel as [|fuel IH]; intros i; cbn [scanPhotos].
  - repeat split; [lia | intros j Hj; lia | lia].
  - destruct (getLocalPlacePhoto env safeId i) as [url|] eqn:E.
    + destruct (IH (S i)) as (H1 & H2 & H3). cbv zeta. repeat split.
      * lia.
      * intros [|j] Hj; [rewrite Nat.add_0_r, E; discriminate |].
        replace (i + S j)%nat with (S i + j)%nat by lia. apply H2. lia.
      * intros Hn. replace (i + S (scanPhotos env safeId (S i) fuel))%nat
          with (S i + scanPhotos env safeId (S i) fuel)%nat by lia.
        apply H3. lia.
    + cbv zeta. repeat split; [lia | intros j Hj; lia |].
      intros _. now rewrite Nat.add_0_r.
Qed.

End Photos.

(** X18: where the cover of a company comes from.  [resolveCompanyCoverUrl]
    returns the cover of the record when it passes [sanitizeCover], and
    otherwise what [buildPlacePhotoUrl] returns for the first photo: the
    address of the local file when it exists, else the address under
    [/api/place-photo/] when the provider is enabled and the place id is not
    blank, else the empty string.  The [sanitizeCover] of the local address
    changes nothing in the result. *)
Theorem resolveCompanyCoverUrl_sources (env : Env) (company : Company) (placeId : string) :
  resolveCompanyCoverUrl env company placeId
    = orElse (sanitizeCover (cover company)) (buildPlacePhotoUrl env placeId 0) /\
  buildPlacePhotoUrl env placeId 0 =
    match getLocalPlacePhoto env placeId 0 with
    | Some url => url
    | None =>
        if isPlacesApiEnabled (config env) && negb (isEmpty (trim placeId))
        then "/api/place-photo/" +:+ trim placeId
        else EmptyString
    end /\
  (sanitizeCover (cover company) = EmptyString ->
   getLocalPlacePhoto env placeId 0 = None ->
   isPlacesApiEnabled (config env) = false ->
   resolveCompanyCoverUrl env company placeId = EmptyString).
Proof.
  assert (H1 : resolveCompanyCoverUrl env company placeId
               = orElse (sanitizeCover (cover company)) (buildPlacePhotoUrl env placeId 0)).
  { unfold resolveCompanyCoverUrl. cbv zeta. unfold orElse at 2.
    destruct (isEmpty (sanitizeCover (cover company))); cbn [negb]; [| reflexivity].
    destruct (getLocalPlacePhoto env placeId 0) as [url|] eqn:E.
    - cbn [default from_option id].
      assert (Hb : buildPlacePhotoUrl env placeId 0 = url).
      { unfold buildPlacePhotoUrl. now rewrite E. }
      rewrite Hb.
      destruct (sanitizeCover_local env placeId url E) as [-> | ->].
      + reflexivity.
      + unfold orElse. now destruct (isEmpty url).
    - cbn [default from_option id]. change (sanitizeCover (Some EmptyString)) with EmptyString.
      reflexivity. }
  assert (H2 : buildPlacePhotoUrl env placeId 0 =
    match getLocalPlacePhoto env placeId 0 with
    | Some url => url
    | None =>
        if isPlacesApiEnabled (config env) && negb (isEmpty (trim placeId))
        then "/api/place-photo/" +:+ trim placeId
        else EmptyString
    end).
  { unfold buildPlacePhotoUrl. destruct (getLocalPlacePhoto env placeId 0); [reflexivity |].
    destruct (isPlacesApiEnabled (config env)); cbn [negb andb]; [| reflexivity].
    destruct (isEmpty (trim placeId)); cbn [negb]; [reflexivity |].
    cbn [Nat.ltb Nat.leb]. now rewrite append_nil_r. }
  refine (conj H1 (conj H2 _)).
  intros Hc Hl Hd. now rewrite H1, H2, Hc, Hl, Hd.
Qed.

(** X19: the number of local photos.  [countLocalPlacePhotos] returns a
    number [n] of at most 12 such that the photos with the indices below [n]
    all exist; when [n] is below 12, the photo with the index [n] does not
    exist.  It is the length of the unbroken run of photos that starts at
    index 0, cut at 12. *)
Theorem countLocalPlacePhotos_run (env : Env) (placeId : string) :
  let n := countLocalPlacePhotos env placeId in
  (n <= 12)%nat /\
  (forall i, (i < n)%nat -> getLocalPlacePhoto env placeId i <> None) /\
  ((n < 12)%nat -> getLocalPlacePhoto env placeId n = None).
Proof.
  intros n. subst n. unfold countLocalPlacePhotos.
  destruct (isEmpty (trim placeId)) eqn:E.
  - repeat split; [lia | intros i Hi; lia |].
    intros _. unfold getLocalPlacePhoto. now rewrite E.
  - destruct (scanPhotos_spec env (trim placeId) MAX_SCAN 0) as (H1 & H2 & H3).
    cbn [Nat.add] in H2, H3. unfold MAX_SCAN in *.
    repeat split.
    + exact H1.
    + intros i Hi. rewrite <- getLocalPlacePhoto_trim. now apply H2.
    + intros Hn. rewrite <- getLocalPlacePhoto_trim. now apply H3.
Qed.

(* ===================================================================== *)
(** ** The company page: labels, opening hours and absolute links *)
(* ===================================================================== *)

Section Pieces.

Variable p : string -> bool.

Lemma splitOn_nonempty ts : splitOn p ts <> [].
Proof.
  destruct ts as [|t r]; cbn [splitOn]; [discriminate |].
  destruct (p t); [discriminate |]. destruct (splitOn p r); discriminate.
Qed.

Lemma splitOn_cons t r :
  splitOn p (t :: r) =
  if p t then [] :: splitOn p r
  else match splitOn p r with
       | part :: parts => (t :: part) :: parts
       | [] => [[t]]
       end.
Proof. reflexivity. Qed.

(** The first piece ends at the first separator. *)
Lemma splitOn_first label sep rest :
  Forall (fun t => p t = false) label -> p sep = true ->
  splitOn p (label ++ sep :: rest) = label :: splitOn p rest.
Proof.
  intros Hl Hs. induction Hl as [|t label Ht Hl IH]; cbn [app].
  - rewrite splitOn_cons. now rewrite Hs.
  - rewrite splitOn_cons, Ht, IH. reflexivity.
Qed.

Lemma splitOn_none ts : Forall (fun t => p t = false) ts -> splitOn p ts = [ts].
Proof.
  induction 1 as [|t ts Ht Hts IH]; [reflexivity |].
  rewrite splitOn_cons, Ht, IH. reflexivity.
Qed.

Lemma joinWith_cons sep x y l :
  joinWith sep (x :: y :: l) = x +:+ sep +:+ joinWith sep (y :: l).
Proof. reflexivity. Qed.

Lemma joinWith_prepend sep a x l :
  joinWith sep ((a +:+ x) :: l) = a +:+ joinWith sep (x :: l).
Proof.
  destruct l as [|y l]; [reflexivity |]. rewrite !joinWith_cons. now rewrite append_assoc.
Qed.

(** Joining the pieces with [sep] writes [sep] for every separator. *)
Lemma joinWith_splitOn sep ts :
  joinWith sep (map joinStrings (splitOn p ts))
    = joinStrings (map (fun t => if p t then sep else t) ts).
Proof.
  induction ts as [|t r IH]; [reflexivity |].
  rewrite splitOn_cons. cbn [map]. rewrite joinStrings_cons, <- IH.
  destruct (p t).
  - pose proof (splitOn_nonempty r) as Hne.
    destruct (splitOn p r) as [|part parts]; [congruence |].
    cbn [map]. rewrite joinWith_cons.
    change (joinStrings []) with EmptyString. now rewrite append_nil_l.
  - pose proof (splitOn_nonempty r) as Hne.
    destruct (splitOn p r) as [|part parts]; [congruence |].
    cbn [map]. rewrite joinStrings_cons. apply joinWith_prepend.
Qed.

(** The pieces are characters as [chars] makes them, without a
    separator. *)
Lemma splitOn_pieces ts :
  Forall (fun u => isToken u = true /\ startsFresh u = true) ts ->
  Forall (fun piece =>
            Forall (fun u => isToken u = true /\ startsFresh u = true) piece /\
            Forall (fun t => p t = false) piece)
         (splitOn p ts).
Proof.
  induction 1 as [|t r Ht Hr IH]; cbn [splitOn].
  - repeat constructor.
  - destruct (p t) eqn:E.
    + constructor; [split; constructor | exact IH].
    + pose proof (splitOn_nonempty r) as Hne.
      destruct (splitOn p r) as [|part parts]; [congruence |].
      apply Forall_cons in IH as [[Hp1 Hp2] Hparts].
      constructor; [| exact Hparts]. split; constructor; assumption.
Qed.

Lemma splitOn_pieces_chars s :
  Forall (fun piece => Tokens piece /\ Forall (fun t => p t = false) piece)
         (splitOn p (chars s)).
Proof.
  pose proof (Tokens_chars s) as H. destruct (chars s) as [|t r]; [repeat constructor |].
  destruct H as [Ht Hr]. pose proof (splitOn_pieces r Hr) as Hp.
  rewrite splitOn_cons. destruct (p t) eqn:E.
  - constructor; [split; [exact I | constructor] |].
    eapply Forall_impl; [exact Hp |]. intros piece [H1 H2]. split; [| exact H2].
    destruct H1 as [|u piece' [Hu _] Hpiece]; [exact I | split; assumption].
  - pose proof (splitOn_nonempty r) as Hne.
    destruct (splitOn p r) as [|part parts]; [congruence |].
    apply Forall_cons in Hp as [[Hp1 Hp2] Hparts].
    constructor.
    + split; [split; assumption | constructor; assumption].
    + eapply Forall_impl; [exact Hparts |]. intros piece [H1 H2]. split; [| exact H2].
      destruct H1 as [|u piece' [Hu _] Hpiece]; [exact I | split; assumption].
Qed.

End Pieces.

Section Labels.

Lemma Forall_dropWhile {A} (P : A -> Prop) (q : A -> bool) l :
  Forall P l -> Forall P (dropWhile q l).
Proof.
  induction 1 as [|x l Hx Hl IH]; cbn [dropWhile]; [constructor |].
  destruct (q x); [exact IH | now constructor].
Qed.

Lemma Forall_dropWhileEnd {A} (P : A -> Prop) (q : A -> bool) l :
  Forall P l -> Forall P (dropWhileEnd q l).
Proof.
  intros H. unfold dropWhileEnd. apply Forall_rev, Forall_dropWhile, Forall_rev, H.
Qed.

(** Trimming a piece keeps characters of the piece. *)
Lemma chars_trim_piece (P : string -> Prop) piece :
  Tokens piece -> Forall P piece -> Forall P (chars (trim (joinStrings piece))).
Proof.
  intros Ht Hp. rewrite chars_trim, chars_joinStrings by exact Ht.
  now apply Forall_dropWhileEnd, Forall_dropWhile.
Qed.

Lemma last_In {A} (l : list A) d : l <> [] -> In (List.last l d) l.
Proof.
  induction l as [|x l IH]; [congruence |]. intros _.
  destruct l as [|y l]; [now left |]. right. apply IH. discriminate.
Qed.

(** What [parseCategoryFromSummary] can return. *)
Lemma parseCategoryFromSummary_piece summary :
  parseCategoryFromSummary summary = EmptyString \/
  exists piece,
    In piece (splitOn isMiddleDot (chars (trim (fieldOr summary EmptyString)))) /\
    parseCategoryFromSummary summary = trim (joinStrings piece) /\
    parseCategoryFromSummary summary <> EmptyString.
Proof.
  unfold parseCategoryFromSummary. cbv zeta.
  destruct (negb (existsb isMiddleDot (chars (trim (fieldOr summary EmptyString)))));
    [now left |].
  set (pieces := splitOn isMiddleDot (chars (trim (fieldOr summary EmptyString)))).
  set (parts := List.filter (fun part => negb (isEmpty part))
                  (map (fun piece => trim (joinStrings piece)) pieces)).
  destruct (1 <? List.length parts)%nat eqn:E; [| now left].
  assert (Hne : parts <> []).
  { destruct parts; [discriminate E | discriminate]. }
  pose proof (last_In parts EmptyString Hne) as Hin.
  unfold parts in Hin at 2. apply filter_In in Hin as [Hin Hnonempty].
  apply in_map_iff in Hin as (piece & Heq & Hpiece).
  right. exists piece. refine (conj Hpiece (conj (eq_sym Heq) _)).
  apply negb_true_iff in Hnonempty. now apply isEmpty_false.
Qed.

End Labels.

(** X20: the hours of today.  [getTodayHours] reads the entry of today from
    a week of seven entries or more that starts on Monday: Sunday, the day 0
    of [getDay], is the entry 6, and a day [d] from Monday to Saturday the
    entry [d - 1].  When the trimmed entry is a label without colon, a colon
    or a full-width colon, and a rest, the result is the rest, trimmed, with
    every full-width colon of the rest written as a colon: the colons of
    the hours themselves are kept.  An entry without any colon gives the
    empty string. *)
Theorem getTodayHours_after_first_colon (openingHours : option Json) (today : nat)
    (items : list Json) (e : string) (label rest : list string) (sep : string) :
  getPropOpt openingHours "weekday_text" = Some (JArr items) ->
  (7 <= List.length items)%nat ->
  nth_error items ((today + 6) mod 7) = Some (JStr e) ->
  (chars (trim e) = label ++ sep :: rest ->
   Forall (fun t => isColon t = false) label -> isColon sep = true ->
   getTodayHours openingHours today = Normal (trim (joinStrings (map plainColon rest)))) /\
  (Forall (fun t => isColon t = false) (chars (trim e)) ->
   getTodayHours openingHours today = Normal EmptyString) /\
  ((0 + 6) mod 7 = 6 /\ (1 + 6) mod 7 = 0 /\ (6 + 6) mod 7 = 5)%nat.
Proof.
  intros Hw Hlen Hnth.
  assert (Hstart : getTodayHours openingHours today =
            let entry := if isEmpty e then EmptyString else trim e in
            if isEmpty entry then Normal EmptyString
            else
              let parts := splitOn isColon (chars entry) in
              if (List.length parts <? 2)%nat then Normal EmptyString
              else Normal (trim (joinWith ":" (map joinStrings (List.tl parts))))).
  { unfold getTodayHours. rewrite Hw. cbn [isArray negb orb arrayOrEmpty].
    assert (Hl : (List.length items <? 7)%nat = false) by (apply Nat.ltb_ge; exact Hlen).
    rewrite Hl, Hnth. cbn [stringOrEmpty truthy jsString bind].
    destruct (isEmpty e); reflexivity. }
  refine (conj _ (conj _ (conj eq_refl (conj eq_refl eq_refl)))).
  - intros Hc Hl Hs. rewrite Hstart. cbv zeta.
    assert (He : isEmpty e = false).
    { destruct e; [| reflexivity]. destruct label; discriminate Hc. }
    rewrite He.
    assert (Hne : isEmpty (trim e) = false).
    { apply isEmpty_false. intros E. rewrite E in Hc. destruct label; discriminate Hc. }
    rewrite Hne, Hc, (splitOn_first isColon label sep rest Hl Hs).
    pose proof (splitOn_nonempty isColon rest) as Hr.
    destruct (splitOn isColon rest) as [|part parts] eqn:Er; [congruence |].
    cbn [List.length Nat.ltb Nat.leb List.tl]. rewrite <- Er.
    now rewrite (joinWith_splitOn isColon ":" rest).
  - intros Hnone. rewrite Hstart. cbv zeta.
    destruct (isEmpty e); [reflexivity |].
    destruct (isEmpty (trim e)); [reflexivity |].
    now rewrite (splitOn_none isColon _ Hnone).
Qed.

Lemma getTodayHours_after_first_colon_witness :
  getTodayHours (Some sampleHours) 1 = Normal "9:00 AM – 5:00 PM".
Proof.
  refine (proj1 (getTodayHours_after_first_colon (Some sampleHours) 1
                   (arrayOrEmpty (getPropOpt (Some sampleHours) "weekday_text"))
                   "Monday: 9:00 AM – 5:00 PM"
                   (chars "Monday") (chars " 9:00 AM – 5:00 PM") ":" _ _ _) _ _ _).
  - reflexivity.
  - simpl. lia.
  - reflexivity.
  - reflexivity.
  - repeat constructor.
  - reflexivity.
Defined.

(** X21: the category label of the company page.  A category read from the
    summary is the empty string or one of the pieces of the trimmed summary
    between its middle dots, trimmed and not empty: it holds no middle dot
    and no white space at its ends.  [formatCategoryLabel] prefers the
    category of the record, never returns 中餐 (it writes 中餐馆), and
    returns the empty string only when both sources are blank. *)
Theorem category_label_from_summary (company : Company) :
  let parsed := parseCategoryFromSummary (summary company) in
  let label := formatCategoryLabel company in
  Forall (fun t => isMiddleDot t = false) (chars parsed) /\
  trim parsed = parsed /\
  label <> "中餐" /\
  (trim (fieldOr (category company) EmptyString) <> EmptyString ->
   label = if String.eqb (trim (fieldOr (category company) EmptyString)) "中餐"
           then "中餐馆" else trim (fieldOr (category company) EmptyString)) /\
  (label = EmptyString <->
   trim (fieldOr (category company) EmptyString) = EmptyString /\ parsed = EmptyString).
Proof.
  intros parsed label. subst parsed label.
  refine (conj _ (conj _ (conj _ (conj _ _)))).
  - destruct (parseCategoryFromSummary_piece (summary company)) as [-> | (piece & Hin & -> & _)];
      [constructor |].
    pose proof (splitOn_pieces_chars isMiddleDot
                  (trim (fieldOr (summary company) EmptyString))) as Hp.
    rewrite Forall_forall in Hp. destruct (Hp piece) as [Ht Hd];
      [now apply list_elem_of_In |].
    now apply chars_trim_piece.
  - destruct (parseCategoryFromSummary_piece (summary company)) as [-> | (piece & _ & -> & _)];
      [reflexivity | apply trim_idem].
  - unfold formatCategoryLabel. cbv zeta.
    destruct (isEmpty (orElse _ _)); [discriminate |].
    destruct (String.eqb (orElse _ _) "中餐") eqn:E; [discriminate |].
    now apply String.eqb_neq in E.
  - intros Hne. unfold formatCategoryLabel. cbv zeta.
    rewrite (orElse_nonempty _ _ Hne). apply isEmpty_false in Hne. now rewrite Hne.
  - unfold formatCategoryLabel. cbv zeta. unfold orElse.
    destruct (isEmpty (trim (fieldOr (category company) EmptyString))) eqn:Ec.
    + apply isEmpty_true in Ec. rewrite Ec.
      destruct (isEmpty (parseCategoryFromSummary (summary company))) eqn:Ep.
      * apply isEmpty_true in Ep. tauto.
      * apply isEmpty_false in Ep.
        destruct (String.eqb _ "中餐"); split; try discriminate; tauto.
    + rewrite Ec. apply isEmpty_false in Ec.
      destruct (String.eqb _ "中餐"); split; try discriminate; tauto.
Qed.

(** X22: absolute links.  With an origin that starts with [http://] or
    [https://], [buildAbsoluteUrl] returns the empty string for a blank value
    and otherwise a link that starts with [http://] or [https://]: the
    trimmed value itself when it is such a link, and else the origin, a
    slash unless the value starts with one, and the trimmed value. *)
Theorem buildAbsoluteUrl_absolute (origin : string) (value : option string) :
  isHttpUrl (Some origin) = true ->
  let raw := trim (fieldOr value EmptyString) in
  let out := buildAbsoluteUrl origin value in
  (raw = EmptyString -> out = EmptyString) /\
  (raw <> EmptyString ->
   isHttpUrl (Some out) = true /\
   (isHttpUrl (Some raw) = true -> out = raw) /\
   (isHttpUrl (Some raw) = false ->
    out = origin +:+ (if startsWith "/" raw then EmptyString else "/") +:+ raw)).
Proof.
  intros Horigin raw out. subst out. unfold buildAbsoluteUrl. fold raw.
  assert (Hself : forall s, fieldOr (Some s) EmptyString = s).
  { intros s. unfold fieldOr, orElse. now destruct s. }
  unfold isHttpUrl in *. rewrite ?Hself in *.
  split; [now intros -> |].
  intros Hne. apply isEmpty_false in Hne. rewrite Hne.
  destruct (matchPrefix httpRe (chars raw)) eqn:Em.
  { rewrite ?Hself, ?Em. repeat split; try reflexivity; discriminate. }
  rewrite ?Hself. refine (conj _ (conj _ (fun _ => eq_refl))); [| discriminate].
  apply matchPrefix_spec in Horigin as (u & v & Huv & Hu).
  apply matchPrefix_spec.
  assert (Hfresh : match (if startsWith "/" raw then EmptyString else "/") +:+ raw with
                   | EmptyString => True
                   | String d _ => isContinuation d = false
                   end).
  { destruct (startsWith "/" raw) eqn:Es.
    - apply startsWith_split in Es as [r ->]. reflexivity.
    - reflexivity. }
  rewrite (chars_app origin _ Hfresh), Huv.
  exists u, (v ++ chars ((if startsWith "/" raw then EmptyString else "/") +:+ raw)).
  split; [now rewrite app_assoc | exact Hu].
Qed.

Lemma buildAbsoluteUrl_absolute_witness :
  buildAbsoluteUrl "https://mxchino.com" (Some "company/abc")
    = "https://mxchino.com/company/abc".
Proof.
  refine (proj2 (proj2 (proj2 (buildAbsoluteUrl_absolute "https://mxchino.com"
                                 (Some "company/abc") _) _)) _).
  - reflexivity.
  - discriminate.
  - reflexivity.
Defined.

(* ===================================================================== *)
(** ** The directory data, the submissions and the switch of the provider *)
(* ===================================================================== *)

Section DataScript.









End DataScript.




(** X26: the switch and the keys.  When [isPlacesApiEnabled] holds, the key
    of the provider in use is there.  So the checks of the key further
    down never fire: [fetchSerpApiJson] with one of the two SerpApi
    providers is [fetchJson], the search for a place id is the attempt with
    its [catch], and so is the fetch of the details, unless the provider is
    [searchapi] and the query is blank. *)
Theorem enabled_provider_has_key (mapFields : Json -> string -> Completion Json)
    (cfg : Config) (live : FetchOutcome) (placeId query : string) :
  isPlacesApiEnabled cfg = true ->
  (String.eqb (PLACES_PROVIDER cfg) "serpapi" || String.eqb (PLACES_PROVIDER cfg) "searchapi"
     = true ->
   fetchSerpApiJson cfg live = fetchJson live) /\
  liveFind cfg live = tryCatch (findAttempt cfg live) (fun _ => Normal EmptyString) /\
  (String.eqb (PLACES_PROVIDER cfg) "searchapi" = false \/ trim query <> EmptyString ->
   liveDetails mapFields cfg live placeId query
     = tryCatch (detailsAttempt mapFields cfg live placeId) (fun _ => Normal None)).
Proof.
  unfold isPlacesApiEnabled, fetchSerpApiJson, liveFind, findAttempt, liveDetails,
    detailsAttempt.
  destruct (PLACES_API_ENABLED cfg); cbn [negb]; [| discriminate].
  destruct (String.eqb (PLACES_PROVIDER cfg) "serpapi") eqn:E1.
  - apply String.eqb_eq in E1. rewrite E1. cbn [String.eqb Ascii.eqb Bool.eqb orb].
    change (String.eqb "serpapi" "searchapi") with false. cbn iota.
    intros H. apply negb_true_iff in H. rewrite H. auto.
  - destruct (String.eqb (PLACES_PROVIDER cfg) "searchapi") eqn:E2; cbn [orb].
    + intros H. apply negb_true_iff in H. rewrite H.
      refine (conj (fun _ => eq_refl) (conj eq_refl _)).
      intros [Hf | Hq]; [discriminate |]. apply isEmpty_false in Hq. now rewrite Hq.
    + intros H. apply negb_true_iff in H. rewrite H.
      refine (conj _ (conj eq_refl (fun _ => eq_refl))). discriminate.
Qed.

Lemma enabled_provider_has_key_witness :
  liveFind enabledConfig googleCandidates
    = tryCatch (findAttempt enabledConfig googleCandidates) (fun _ => Normal EmptyString).
Proof.
  refine (proj1 (proj2 (enabled_provider_has_key sameFields enabledConfig googleCandidates
                          EmptyString EmptyString _))).
  reflexivity.
Defined.

(* ===================================================================== *)
(** ** The cookie of the visitor *)
(* ===================================================================== *)

Section Escapes.

Lemma hexValue_hexDigit n : (n < 16)%nat -> hexValue (hexDigit n) = Some n.
Proof. intros H. do 16 (destruct n as [|n]; [reflexivity |]). lia. Qed.

Lemma readEscape_escaped b rest :
  (b < 256)%nat ->
  readEscape (String "%"%char (String (hexDigit (b / 16)) (String (hexDigit (b mod 16)) rest)))
    = Some (b, rest).
Proof.
  intros H. unfold readEscape. change (Ascii.eqb "%"%char "%"%char) with true. cbn iota.
  rewrite !hexValue_hexDigit.
  - now rewrite <- Nat.div_mod_eq.
  - apply Nat.mod_upper_bound. lia.
  - apply Nat.Div0.div_lt_upper_bound. lia.
Qed.

Lemma isUnreserved_ascii c :
  isUnreserved c = true -> (code c < 128)%nat /\ Ascii.eqb c "%"%char = false.
Proof.
  destruct c as [[] [] [] [] [] [] [] []]; vm_compute; intros H;
    first [discriminate H | split; [lia | reflexivity]].
Qed.

Lemma encodeURIComponent_escaped c r :
  isUnreserved c = false ->
  encodeURIComponent (String c r) =
    String "%"%char
      (String (hexDigit (code c / 16)) (String (hexDigit (code c mod 16)) (encodeURIComponent r))).
Proof. intros H. now rewrite encodeURIComponent_cons, H. Qed.

Lemma high_not_unreserved c : (128 <= code c)%nat -> isUnreserved c = false.
Proof.
  intros H. destruct (isUnreserved c) eqn:E; [| reflexivity].
  apply isUnreserved_ascii in E as [E _]. lia.
Qed.

Lemma isContinuation_range c :
  isContinuation c = true -> (128 <=? code c)%nat && (code c <? 192)%nat = true.
Proof. trivial. Qed.

Lemma readEscape_length s b rest :
  readEscape s = Some (b, rest) -> String.length s = (3 + String.length rest)%nat.
Proof.
  unfold readEscape. destruct s as [|c [|x [|y r]]]; try discriminate.
  destruct (Ascii.eqb c "%"%char); [| discriminate].
  destruct (hexValue x); [| discriminate]. destruct (hexValue y); [| discriminate].
  now intros [= _ <-].
Qed.

Lemma readContinuations_length n : forall s bs rest,
  readContinuations n s = Some (bs, rest) -> (String.length rest <= String.length s)%nat.
Proof.
  induction n as [|n IH]; intros s bs rest; cbn [readContinuations].
  - now intros [= _ <-].
  - destruct (readEscape s) as [[b r1]|] eqn:E; [| discriminate].
    destruct ((128 <=? b)%nat && (b <? 192)%nat); [| discriminate].
    destruct (readContinuations n r1) as [[bs' r2]|] eqn:E2; [| discriminate].
    intros [= _ <-]. apply readEscape_length in E. apply IH in E2. lia.
Qed.

Lemma decodeFrom_cons fuel c rest :
  decodeFrom (S fuel) (String c rest) =
  if negb (Ascii.eqb c "%"%char) then
    let! r := decodeFrom fuel rest in Normal (String c r)
  else
    match readEscape (String c rest) with
    | None => Throw uriError
    | Some (b, rest1) =>
        if (b <? 128)%nat then
          let! r := decodeFrom fuel rest1 in Normal (String (ascii_of_nat b) r)
        else
          match continuationCount b with
          | None => Throw uriError
          | Some n =>
              match readContinuations n rest1 with
              | None => Throw uriError
              | Some (bs, rest2) =>
                  if validSequence b bs then
                    let! r := decodeFrom fuel rest2 in Normal (bytes (b :: bs) +:+ r)
                  else Throw uriError
              end
          end
    end.
Proof. reflexivity. Qed.

(** The result does not depend on the fuel once there is enough of it. *)
Lemma decodeFrom_enough n : forall s fuel1 fuel2,
  (String.length s <= n)%nat ->
  (String.length s <= fuel1)%nat -> (String.length s <= fuel2)%nat ->
  decodeFrom fuel1 s = decodeFrom fuel2 s.
Proof.
  induction n as [|n IH]; intros s fuel1 fuel2 Hn H1 H2.
  - destruct s; [now destruct fuel1, fuel2 | simpl in Hn; lia].
  - destruct s as [|c rest]; [now destruct fuel1, fuel2 |].
    cbn [String.length] in *.
    destruct fuel1 as [|f1]; [lia |]. destruct fuel2 as [|f2]; [lia |].
    rewrite !decodeFrom_cons.
    destruct (negb (Ascii.eqb c "%"%char)).
    { rewrite (IH rest f1 f2) by lia. reflexivity. }
    destruct (readEscape (String c rest)) as [[b rest1]|] eqn:E; [| reflexivity].
    apply readEscape_length in E. cbn [String.length] in E.
    destruct (b <? 128)%nat.
    { rewrite (IH rest1 f1 f2) by lia. reflexivity. }
    destruct (continuationCount b) as [k|]; [| reflexivity].
    destruct (readContinuations k rest1) as [[bs rest2]|] eqn:E2; [| reflexivity].
    apply readContinuations_length in E2.
    destruct (validSequence b bs); [| reflexivity].
    rewrite (IH rest2 f1 f2) by lia. reflexivity.
Qed.

Lemma length_encodeURIComponent_cons c r :
  (String.length (encodeURIComponent r) < String.length (encodeURIComponent (String c r)))%nat.
Proof.
  rewrite encodeURIComponent_cons. destruct (isUnreserved c); cbn [String.length]; lia.
Qed.

Lemma single_byte c : String (ascii_of_nat (code c)) EmptyString = String c EmptyString.
Proof. unfold code. now rewrite ascii_nat_embedding. Qed.

Lemma continuation_high c : isContinuation c = true -> (128 <= code c)%nat.
Proof.
  unfold isContinuation. intros H. apply andb_true_iff in H as [H _]. now apply Nat.leb_le.
Qed.

(** Decoding what [encodeURIComponent] wrote gives the text back. *)
Lemma decodeFrom_encoded n : forall s fuel,
  (String.length s <= n)%nat -> validUtf8 s = true ->
  (String.length (encodeURIComponent s) <= fuel)%nat ->
  decodeFrom fuel (encodeURIComponent s) = Normal s.
Proof.
  induction n as [|n IH]; intros s fuel Hn Hv Hf.
  { destruct s; [now destruct fuel | simpl in Hn; lia]. }
  destruct s as [|c r]; [now destruct fuel |].
  cbn [String.length] in Hn. cbn [validUtf8] in Hv.
  pose proof (code_bounded c) as Hc.
  destruct (code c <? 128)%nat eqn:Elow.
  - (* one byte *)
    pose proof (length_encodeURIComponent_cons c r) as Hlen.
    destruct fuel as [|f]; [lia |].
    destruct (isUnreserved c) eqn:Eu.
    + rewrite encodeURIComponent_cons, Eu in Hf |- *. cbn [String.length] in Hf.
      rewrite decodeFrom_cons. destruct (isUnreserved_ascii c Eu) as [_ Ep].
      rewrite Ep. cbn [negb]. rewrite (IH r f) by (assumption || lia). reflexivity.
    + rewrite (encodeURIComponent_escaped c r Eu) in Hf |- *. cbn [String.length] in Hf.
      rewrite decodeFrom_cons. change (Ascii.eqb "%"%char "%"%char) with true. cbn [negb].
      rewrite (readEscape_escaped (code c)) by exact Hc. rewrite Elow.
      rewrite (IH r f) by (assumption || lia). cbn [bind]. unfold code.
      now rewrite ascii_nat_embedding.
  - (* a lead byte and its continuation bytes *)
    apply Nat.ltb_ge in Elow.
    assert (Hlead : isUnreserved c = false) by now apply high_not_unreserved.
    rewrite (encodeURIComponent_escaped c _ Hlead) in Hf |- *. cbn [String.length] in Hf.
    destruct fuel as [|f]; [lia |].
    rewrite decodeFrom_cons. change (Ascii.eqb "%"%char "%"%char) with true. cbn [negb].
    rewrite (readEscape_escaped (code c)) by exact Hc.
    assert (Elow' : (code c <? 128)%nat = false) by now apply Nat.ltb_ge.
    rewrite Elow'.
    destruct (continuationCount (code c)) as [[|[|[|[|k]]]]|] eqn:Ek; try discriminate Hv.
    + (* two bytes *)
      destruct r as [|c2 r2]; [discriminate Hv |].
      apply andb_true_iff in Hv as [Hv Hr]. apply andb_true_iff in Hv as [H2 Hs].
      pose proof (code_bounded c2) as Hc2.
      rewrite (encodeURIComponent_escaped c2 _ (high_not_unreserved _ (continuation_high _ H2)))
        in Hf |- *.
      cbn [String.length] in Hf. cbn [readContinuations].
      rewrite (readEscape_escaped (code c2)) by exact Hc2.
      rewrite (isContinuation_range c2 H2), Hs.
      rewrite (IH r2 f) by (assumption || (cbn [String.length] in Hn; lia)).
      cbn [bind bytes foldr]. rewrite !append_cons, append_nil_l. unfold code.
      now rewrite !ascii_nat_embedding.
    + (* three bytes *)
      destruct r as [|c2 [|c3 r3]]; try discriminate Hv.
      apply andb_true_iff in Hv as [Hv Hr]. apply andb_true_iff in Hv as [Hv Hs].
      apply andb_true_iff in Hv as [H2 H3].
      pose proof (code_bounded c2) as Hc2. pose proof (code_bounded c3) as Hc3.
      rewrite (encodeURIComponent_escaped c2 _ (high_not_unreserved _ (continuation_high _ H2)))
        in Hf |- *.
      rewrite (encodeURIComponent_escaped c3 _ (high_not_unreserved _ (continuation_high _ H3)))
        in Hf |- *.
      cbn [String.length] in Hf. cbn [readContinuations].
      rewrite (readEscape_escaped (code c2)) by exact Hc2.
      rewrite (isContinuation_range c2 H2).
      rewrite (readEscape_escaped (code c3)) by exact Hc3.
      rewrite (isContinuation_range c3 H3), Hs.
      rewrite (IH r3 f) by (assumption || (cbn [String.length] in Hn; lia)).
      cbn [bind bytes foldr]. rewrite !append_cons, append_nil_l. unfold code.
      now rewrite !ascii_nat_embedding.
    + (* four bytes *)
      destruct r as [|c2 [|c3 [|c4 r4]]]; try discriminate Hv.
      apply andb_true_iff in Hv as [Hv Hr]. apply andb_true_iff in Hv as [Hv Hs].
      apply andb_true_iff in Hv as [Hv H4]. apply andb_true_iff in Hv as [H2 H3].
      pose proof (code_bounded c2) as Hc2. pose proof (code_bounded c3) as Hc3.
      pose proof (code_bounded c4) as Hc4.
      rewrite (encodeURIComponent_escaped c2 _ (high_not_unreserved _ (continuation_high _ H2)))
        in Hf |- *.
      rewrite (encodeURIComponent_escaped c3 _ (high_not_unreserved _ (continuation_high _ H3)))
        in Hf |- *.
      rewrite (encodeURIComponent_escaped c4 _ (high_not_unreserved _ (continuation_high _ H4)))
        in Hf |- *.
      cbn [String.length] in Hf. cbn [readContinuations].
      rewrite (readEscape_escaped (code c2)) by exact Hc2.
      rewrite (isContinuation_range c2 H2).
      rewrite (readEscape_escaped (code c3)) by exact Hc3.
      rewrite (isContinuation_range c3 H3).
      rewrite (readEscape_escaped (code c4)) by exact Hc4.
      rewrite (isContinuation_range c4 H4), Hs.
      rewrite (IH r4 f) by (assumption || (cbn [String.length] in Hn; lia)).
      cbn [bind bytes foldr]. rewrite !append_cons, append_nil_l. unfold code.
      now rewrite !ascii_nat_embedding.
Qed.

Lemma decodeURIComponent_encoded s :
  validUtf8 s = true -> decodeURIComponent (encodeURIComponent s) = Normal s.
Proof.
  intros H. unfold decodeURIComponent.
  now apply (decodeFrom_encoded (String.length s)).
Qed.

End Escapes.

Section Cookies.

Lemma cookieByte_plain c :
  isCookieByte c = true ->
  isContinuation c = false /\ isSpace (String c EmptyString) = false /\
  Ascii.eqb c ";"%char = false /\ Ascii.eqb c "="%char = false.
Proof.
  destruct c as [[] [] [] [] [] [] [] []]; vm_compute; intros H;
    first [discriminate H | repeat split].
Qed.

Lemma uriByte_cookieByte c : isUriByte c = true -> isCookieByte c = true.
Proof.
  destruct c as [[] [] [] [] [] [] [] []]; vm_compute; intros H;
    first [discriminate H | reflexivity].
Qed.

Lemma joinStrings_singles s :
  joinStrings (map (fun c => String c EmptyString) (list_ascii_of_string s)) = s.
Proof.
  induction s as [|c s IH]; [reflexivity |].
  cbn [list_ascii_of_string map]. now rewrite joinStrings_cons, IH.
Qed.

Lemma breakAtEquals_none ts :
  Forall (fun t => String.eqb t "=" = false) ts -> breakAtEquals ts = None.
Proof. induction 1 as [|t ts Ht Hts IH]; [reflexivity |]. cbn [breakAtEquals]. now rewrite Ht, IH. Qed.

(** The header made of the one cookie [mx_vid] with a value of plain
    bytes. *)
Lemma parseCookies_one value :
  allBytes isCookieByte value = true ->
  parseCookies (ANALYTICS_COOKIE_NAME +:+ "=" +:+ value)
    = let! decoded := decodeURIComponent value in Normal [(ANALYTICS_COOKIE_NAME, decoded)].
Proof.
  intros Hv. unfold parseCookies.
  set (singles := map (fun c => String c EmptyString) (list_ascii_of_string value)).
  assert (Hchars : chars (ANALYTICS_COOKIE_NAME +:+ "=" +:+ value)
                   = ["m"; "x"; "_"; "v"; "i"; "d"; "="] ++ singles).
  { rewrite chars_single_bytes; [reflexivity |].
    change (ANALYTICS_COOKIE_NAME +:+ "=" +:+ value) with ("mx_vid=" +:+ value).
    rewrite allBytes_app. cbn [andb]. change (allBytes _ "mx_vid=") with true. cbn [andb].
    revert Hv. apply allBytes_impl. intros c Hc.
    now rewrite (proj1 (cookieByte_plain c Hc)). }
  assert (Hplain : Forall (fun t => isSpace t = false /\ String.eqb t ";" = false
                                    /\ String.eqb t "=" = false) singles).
  { unfold singles. clear Hchars. induction value as [|c value IH]; [constructor |].
    cbn [allBytes] in Hv. apply andb_true_iff in Hv as [Hc Hv].
    cbn [list_ascii_of_string map]. constructor; [| now apply IH].
    destruct (cookieByte_plain c Hc) as (_ & Hs & H1 & H2).
    cbn [String.eqb]. now rewrite Hs, H1, H2. }
  change (isEmpty (ANALYTICS_COOKIE_NAME +:+ "=" +:+ value)) with false. cbn iota.
  rewrite Hchars.
  rewrite splitOn_none.
  2:{ apply Forall_app. split; [repeat constructor |].
      eapply Forall_impl; [exact Hplain |]. now intros t (_ & H & _). }
  cbn [cookiesFrom app breakAtEquals String.eqb Ascii.eqb Bool.eqb].
  change (trim (joinStrings ["m"; "x"; "_"; "v"; "i"; "d"])) with ANALYTICS_COOKIE_NAME.
  change (isEmpty ANALYTICS_COOKIE_NAME) with false. cbn iota.
  assert (Htrim : trim (joinStrings singles) = value).
  { unfold singles. rewrite joinStrings_singles. apply trim_no_space.
    rewrite chars_single_bytes.
    - fold singles. eapply Forall_impl; [exact Hplain |]. now intros t (H & _).
    - revert Hv. apply allBytes_impl. intros c Hc.
      now rewrite (proj1 (cookieByte_plain c Hc)). }
  rewrite Htrim. destruct (decodeURIComponent value); reflexivity.
Qed.

Lemma parseCookies_visitorCookie visitorId :
  validUtf8 visitorId = true ->
  parseCookies (visitorCookie visitorId) = Normal [(ANALYTICS_COOKIE_NAME, visitorId)].
Proof.
  intros Hv. unfold visitorCookie. rewrite parseCookies_one.
  - now rewrite decodeURIComponent_encoded.
  - eapply allBytes_impl; [apply uriByte_cookieByte | apply encodeURIComponent_bytes].
Qed.

Lemma parseCookies_broken value :
  allBytes isCookieByte value = true ->
  startsWith "%" value = true -> readEscape value = None ->
  parseCookies (ANALYTICS_COOKIE_NAME +:+ "=" +:+ value) = Throw uriError.
Proof.
  intros Hv Hp He. rewrite parseCookies_one by exact Hv.
  unfold decodeURIComponent. destruct value as [|c rest]; [discriminate Hp |].
  cbn [String.length]. rewrite decodeFrom_cons.
  unfold startsWith in Hp. cbn [stripPrefix] in Hp.
  destruct (Ascii.eqb "%"%char c) eqn:E; [| discriminate Hp].
  rewrite Ascii.eqb_sym, E. cbn [negb]. now rewrite He.
Qed.

Lemma stripPrefix_append p : forall rest, stripPrefix p (p +:+ rest) = Some rest.
Proof.
  induction p as [|c p IH]; intros rest; [reflexivity |].
  rewrite append_cons. cbn [stripPrefix]. now rewrite Ascii.eqb_refl, IH.
Qed.

Lemma Matches_times p n : forall ts,
  Matches (times n (RChar p)) ts ->
  List.length ts = n /\ Forall (fun t => p t = true) ts.
Proof.
  induction n as [|n IH]; intros ts H; cbn [times] in H.
  - inversion H; subst. split; [reflexivity | constructor].
  - inversion H as [| | a b u v Hu Hv | | | |]; subst.
    inversion Hu as [|q t Ht | | | | |]; subst.
    destruct (IH _ Hv) as [Hl Hf]. split; [cbn; now rewrite Hl | now constructor].
Qed.

Lemma visitorIdChar_unreserved t :
  isVisitorIdChar t = true -> allBytes isUnreserved t = true.
Proof.
  destruct t as [|c [|d r]]; try discriminate.
  destruct c as [[] [] [] [] [] [] [] []]; vm_compute; intros H;
    first [discriminate H | reflexivity].
Qed.

Lemma visitorId_unreserved visitorId :
  matchAll visitorIdRe (chars visitorId) = true -> allBytes isUnreserved visitorId = true.
Proof.
  intros H. apply matchAll_spec in H. apply Matches_times in H as [_ H].
  rewrite <- (joinStrings_chars visitorId).
  induction H as [|t ts Ht Hts IH]; [reflexivity |].
  rewrite joinStrings_cons, allBytes_app, IH, (visitorIdChar_unreserved t Ht). reflexivity.
Qed.

Lemma unreserved_validUtf8 s : allBytes isUnreserved s = true -> validUtf8 s = true.
Proof.
  induction s as [|c s IH]; [reflexivity |]. cbn [allBytes validUtf8]. intros H.
  apply andb_true_iff in H as [Hc Hs]. apply isUnreserved_ascii in Hc as [Hc _].
  apply Nat.ltb_lt in Hc. rewrite Hc. now apply IH.
Qed.

End Cookies.

(** X27: the cookie of the visitor is read back.  For every well-formed
    text, [decodeURIComponent] gives back what [encodeURIComponent] was given.
    So [parseCookies], applied to the cookie that [ensureVisitorId] writes and
    the browser sends back, returns the visitor id under [mx_vid]. *)
Theorem visitor_cookie_read_back (visitorId : string) :
  validUtf8 visitorId = true ->
  decodeURIComponent (encodeURIComponent visitorId) = Normal visitorId /\
  parseCookies (visitorCookie visitorId) = Normal [(ANALYTICS_COOKIE_NAME, visitorId)].
Proof.
  intros Hv. split; [now apply decodeURIComponent_encoded | now apply parseCookies_visitorCookie].
Qed.

Lemma visitor_cookie_read_back_witness :
  parseCookies (visitorCookie "3f2b6c1e-9d4a-4c8b-a1e2-5b7f0c9d8e6a 访客")
    = Normal [(ANALYTICS_COOKIE_NAME, "3f2b6c1e-9d4a-4c8b-a1e2-5b7f0c9d8e6a 访客")].
Proof.
  refine (proj2 (visitor_cookie_read_back "3f2b6c1e-9d4a-4c8b-a1e2-5b7f0c9d8e6a 访客" _)).
  reflexivity.
Defined.

(** X28: a cookie with a broken escape.  For a request whose cookie header
    is the one cookie [mx_vid] with a value of printable bytes,
    [parseCookies] returns the decoded value under [mx_vid].  When the value
    starts with a percent sign that is not followed by two hexadecimal
    digits, [decodeURIComponent] throws: neither [parseCookies] nor
    [ensureVisitorId] catches it, so no visitor id is returned. *)
Theorem cookie_with_broken_escape (value : string) :
  allBytes isCookieByte value = true ->
  parseCookies (ANALYTICS_COOKIE_NAME +:+ "=" +:+ value)
    = (let! decoded := decodeURIComponent value in Normal [(ANALYTICS_COOKIE_NAME, decoded)]) /\
  (startsWith "%" value = true -> readEscape value = None ->
   parseCookies (ANALYTICS_COOKIE_NAME +:+ "=" +:+ value) = Throw uriError /\
   forall req randomUUID,
     visit_cookie req = Some (ANALYTICS_COOKIE_NAME +:+ "=" +:+ value) ->
     ensureVisitorId req randomUUID = Throw uriError).
Proof.
  intros Hv. split; [now apply parseCookies_one |].
  intros Hp He. pose proof (parseCookies_broken value Hv Hp He) as Hthrow.
  split; [exact Hthrow |]. intros req randomUUID Hreq.
  unfold ensureVisitorId. rewrite Hreq.
  change (fieldOr (Some (ANALYTICS_COOKIE_NAME +:+ "=" +:+ value)) EmptyString)
    with (ANALYTICS_COOKIE_NAME +:+ "=" +:+ value).
  now rewrite Hthrow.
Qed.

Lemma cookie_with_broken_escape_witness :
  ensureVisitorId (visitWith "mx_vid=%zz") "3f2b6c1e-9d4a-4c8b-a1e2-5b7f0c9d8e6a"
    = Throw uriError.
Proof.
  refine (proj2 (proj2 (cookie_with_broken_escape "%zz" _) _ _) (visitWith "mx_vid=%zz") _ _);
    reflexivity.
Defined.

(** X29: a visitor keeps the id.  Let [uuid] be an id of the shape that
    [ensureVisitorId] accepts: 36 characters, each a hexadecimal digit or a
    dash.  On a request without cookies, [ensureVisitorId] returns the fresh
    id [uuid] and sets a cookie that starts with [mx_vid=uuid].  On a later
    request that carries this cookie, it returns [uuid] again, whatever the
    fresh id would be, and sets no cookie. *)
Theorem visitor_keeps_id (uuid : string) :
  matchAll visitorIdRe (chars uuid) = true ->
  forall first next other,
    visit_cookie first = None ->
    visit_cookie next = Some (visitorCookie uuid) ->
    (exists isSecure,
       ensureVisitorId first uuid = Normal (uuid, Some (setCookieValue uuid isSecure)) /\
       startsWith (visitorCookie uuid +:+ "; ") (setCookieValue uuid isSecure) = true) /\
    visitorCookie uuid = ANALYTICS_COOKIE_NAME +:+ "=" +:+ uuid /\
    ensureVisitorId next other = Normal (uuid, None).
Proof.
  intros Hm first next other Hfirst Hnext.
  pose proof (visitorId_unreserved uuid Hm) as Hu.
  assert (Hcookie : visitorCookie uuid = ANALYTICS_COOKIE_NAME +:+ "=" +:+ uuid).
  { unfold visitorCookie. now rewrite (encodeURIComponent_unreserved uuid Hu). }
  split; [| split; [exact Hcookie |]].
  - eexists. split.
    + unfold ensureVisitorId. rewrite Hfirst. reflexivity.
    + unfold setCookieValue. cbn [app]. rewrite joinWith_cons.
      unfold startsWith. rewrite <- append_assoc, stripPrefix_append. reflexivity.
  - unfold ensureVisitorId. rewrite Hnext.
    assert (Hne : fieldOr (Some (visitorCookie uuid)) EmptyString = visitorCookie uuid)
      by reflexivity.
    rewrite Hne, (parseCookies_visitorCookie uuid (unreserved_validUtf8 uuid Hu)).
    cbn [bind mapGet]. change (String.eqb ANALYTICS_COOKIE_NAME ANALYTICS_COOKIE_NAME) with true.
    cbn iota. cbn [fieldOr]. unfold orElse.
    destruct uuid as [|c r]; [discriminate Hm |].
    cbn [isEmpty orb]. now rewrite Hm.
Qed.

Lemma visitor_keeps_id_witness :
  ensureVisitorId (visitWith "mx_vid=3f2b6c1e-9d4a-4c8b-a1e2-5b7f0c9d8e6a")
    "0a1b2c3d-0000-4000-8000-000000000000"
    = Normal ("3f2b6c1e-9d4a-4c8b-a1e2-5b7f0c9d8e6a", None).
Proof.
  refine (proj2 (proj2 (visitor_keeps_id "3f2b6c1e-9d4a-4c8b-a1e2-5b7f0c9d8e6a" _
                          firstVisit (visitWith "mx_vid=3f2b6c1e-9d4a-4c8b-a1e2-5b7f0c9d8e6a")
                          "0a1b2c3d-0000-4000-8000-000000000000" _ _)));
    reflexivity.
Defined.
